(** * The todo list core: Item, List and their operations

    A shallow embedding of package [todo] (types [Priority], [Item], [List]
    and the methods of [*List]) together with the properties of the list
    operations.

    Conventions of the embedding.
    - A Go [string] is a byte sequence: Rocq's [string].
    - A Go [int] is modelled by [Z]; the only arithmetic on indices is the
      comparison with [0] and [len(l.Items)].
    - A slice is modelled by the sequence of its elements ([list]); spare
      capacity and the sharing of backing arrays are not represented.
    - [time.Time] is modelled by the instant it denotes, [*time.Time] by an
      [option].
    - A method with receiver [l *List] takes the List before the call and
      returns the List after it next to its Go result; [error] results are
      [option error], [None] standing for [nil].
    - [time.Now()] is an explicit argument.
    - The file system and the JSON codec are outside the package: [Save]
      and [Load] take the codec functions as arguments and thread a file
      system state.  Module [gojson] is a model of [json.Marshal] and
      [json.Unmarshal] for the type List.  The Unicode tables of package
      strings and the RFC 3339 texts of package time are parameters. *)

From Stdlib Require Import Ascii.
From stdpp Require Import base list strings gmap.

Local Open Scope Z_scope.

(** ** Errors *)

Inductive error : Type :=
  | errors_New (msg : string)           (* errors.New(msg) *)
  | PathError (op path : string)        (* *fs.PathError of package os *)
  | SyntaxError                         (* *json.SyntaxError *)
  | UnmarshalTypeError (value : string) (* *json.UnmarshalTypeError *)
  | TimeParseError (value : string)     (* error of Time.UnmarshalJSON *)
  | MarshalerError (value : string).    (* *json.MarshalerError *)

#[global] Instance error_eq_dec : EqDecision error.
Proof. solve_decision. Defined.

(** ** Priority *)

Definition Priority : Type := Z.

Definition PriorityLow : Priority := 0.
Definition PriorityMedium : Priority := 1.
Definition PriorityHigh : Priority := 2.

(** ** Item and List *)

Definition Time : Type := Z.

(** [t.Before(u)]: the instant [t] is strictly before [u]. *)
Definition Before (t u : Time) : bool := t <? u.

Record Item : Type := mkItem {
  Text : string;
  Done : bool;
  Item_Priority : Priority;
  DueDate : option Time;
  Tags : list string;
  CreatedAt : Time
}.

#[global] Instance Item_eq_dec : EqDecision Item.
Proof. solve_decision. Defined.

Definition set_Text (v : string) (it : Item) : Item :=
  mkItem v (Done it) (Item_Priority it) (DueDate it) (Tags it) (CreatedAt it).
Definition set_Done (v : bool) (it : Item) : Item :=
  mkItem (Text it) v (Item_Priority it) (DueDate it) (Tags it) (CreatedAt it).
Definition set_Priority (v : Priority) (it : Item) : Item :=
  mkItem (Text it) (Done it) v (DueDate it) (Tags it) (CreatedAt it).
Definition set_DueDate (v : option Time) (it : Item) : Item :=
  mkItem (Text it) (Done it) (Item_Priority it) v (Tags it) (CreatedAt it).
Definition set_Tags (v : list string) (it : Item) : Item :=
  mkItem (Text it) (Done it) (Item_Priority it) (DueDate it) v (CreatedAt it).

Definition NewItem (now : Time) (text : string) : Item :=
  {| Text := text; Done := false; Item_Priority := PriorityMedium;
     DueDate := None; Tags := []; CreatedAt := now |}.

Record List : Type := mkList { Items : list Item }.

#[global] Instance List_eq_dec : EqDecision List.
Proof. solve_decision. Defined.

Definition NewList : List := {| Items := [] |}.

(** [len(l.Items)] *)
Definition len (l : List) : Z := Z.of_nat (length (Items l)).

(** The guard [index < 0 || index >= len(l.Items)] of every index-taking
    method. *)
Definition out_of_range (index : Z) (l : List) : bool :=
  (index <? 0) || (index >=? len l).

Definition ErrIndex : error := errors_New "Item index out of Range".

(** [l.Items[index].f = v], for an index that passed the guard. *)
Definition update_item (index : Z) (f : Item → Item) (l : List) : List :=
  {| Items := alter f (Z.to_nat index) (Items l) |}.

(** ** Add *)

(** The loop of [Add]: [true] when it returns the error. *)
Fixpoint Add_loop (items : list Item) (item : Item) : bool :=
  match items with
  | [] => false
  | existing :: rest =>
      if bool_decide (Text existing = Text item) then true
      else Add_loop rest item
  end.

Definition Add (now : Time) (text : string) (l : List) : List * option error :=
  let item := NewItem now text in
  if Add_loop (Items l) item
  then (l, Some (errors_New "Item already exists in the list"))
  else ({| Items := Items l ++ [item] |}, None).

(** ** Sort, Complete, Uncomplete *)

(** The loop of [Sort], with its two accumulators. *)
Fixpoint Sort_loop (items incomplete completed : list Item)
  : list Item * list Item :=
  match items with
  | [] => (incomplete, completed)
  | item :: rest =>
      if Done item
      then Sort_loop rest incomplete (completed ++ [item])
      else Sort_loop rest (incomplete ++ [item]) completed
  end.

Definition Sort (l : List) : List :=
  let '(incomplete, completed) := Sort_loop (Items l) [] [] in
  {| Items := incomplete ++ completed |}.

Definition Complete (index : Z) (l : List) : List * option error :=
  if out_of_range index l then (l, Some ErrIndex)
  else (Sort (update_item index (set_Done true) l), None).

Definition Uncomplete (index : Z) (l : List) : List * option error :=
  if out_of_range index l then (l, Some ErrIndex)
  else (Sort (update_item index (set_Done false) l), None).

(** ** Delete, Edit, ClearCompleted *)

Definition Delete (index : Z) (l : List) : List * option error :=
  if out_of_range index l then (l, Some ErrIndex)
  else ({| Items := take (Z.to_nat index) (Items l)
                    ++ drop (Z.to_nat (index + 1)) (Items l) |}, None).

Definition Edit (index : Z) (newText : string) (l : List)
  : List * option error :=
  if out_of_range index l then (l, Some ErrIndex)
  else if bool_decide (newText = ""%string)
  then (l, Some (errors_New "Task text cannot be empty"))
  else (update_item index (set_Text newText) l, None).

Fixpoint ClearCompleted_loop (items incomplete : list Item) (count : Z)
  : list Item * Z :=
  match items with
  | [] => (incomplete, count)
  | item :: rest =>
      if negb (Done item)
      then ClearCompleted_loop rest (incomplete ++ [item]) count
      else ClearCompleted_loop rest incomplete (count + 1)
  end.

Definition ClearCompleted (l : List) : List * Z :=
  let '(incomplete, count) := ClearCompleted_loop (Items l) [] 0 in
  ({| Items := incomplete |}, count).

(** ** SetPriority, SetDueDate, AddTag, RemoveTag *)

Definition SetPriority (index : Z) (priority : Priority) (l : List)
  : List * option error :=
  if out_of_range index l then (l, Some ErrIndex)
  else (update_item index (set_Priority priority) l, None).

Definition SetDueDate (index : Z) (dueDate : Time) (l : List)
  : List * option error :=
  if out_of_range index l then (l, Some ErrIndex)
  else (update_item index (set_DueDate (Some dueDate)) l, None).

(** [l.Items[index].Tags], for an index that passed the guard. *)
Definition tags_at (index : Z) (l : List) : list string :=
  default [] (Tags <$> Items l !! Z.to_nat index).

Fixpoint AddTag_loop (tags : list string) (tag : string) : bool :=
  match tags with
  | [] => false
  | t :: rest => if bool_decide (t = tag) then true else AddTag_loop rest tag
  end.

Definition AddTag (index : Z) (tag : string) (l : List)
  : List * option error :=
  if out_of_range index l then (l, Some ErrIndex)
  else if AddTag_loop (tags_at index l) tag
  then (l, Some (errors_New "Tag already exists"))
  else (update_item index (fun it => set_Tags (Tags it ++ [tag]) it) l, None).

(** The loop of [RemoveTag] from position [i] on: the position of the first
    tag equal to [tag]. *)
Fixpoint RemoveTag_loop (rest : list string) (tag : string) (i : nat)
  : option nat :=
  match rest with
  | [] => None
  | t :: rest' =>
      if bool_decide (t = tag) then Some i else RemoveTag_loop rest' tag (S i)
  end.

Definition RemoveTag (index : Z) (tag : string) (l : List)
  : List * option error :=
  if out_of_range index l then (l, Some ErrIndex)
  else
    let tags := tags_at index l in
    match RemoveTag_loop tags tag 0 with
    | Some i =>
        (update_item index (set_Tags (take i tags ++ drop (S i) tags)) l, None)
    | None => (l, Some (errors_New "Tag not found"))
    end.

(** ** Package strings: ToLower and Contains *)

(** Bytes are compared through their codes. *)
Definition byte_code (c : ascii) : N := N_of_ascii c.

(** [utf8.RuneSelf]: bytes below it are single-byte (ASCII) runes. *)
Definition RuneSelf : N := 128.

Fixpoint string_forallb (p : ascii → bool) (s : string) : bool :=
  match s with
  | EmptyString => true
  | String c s' => p c && string_forallb p s'
  end.

Fixpoint string_map (f : ascii → ascii) (s : string) : string :=
  match s with
  | EmptyString => EmptyString
  | String c s' => String (f c) (string_map f s')
  end.

Definition isASCII (s : string) : bool :=
  string_forallb (fun c => (byte_code c <? RuneSelf)%N) s.

(** ['A' <= c && c <= 'Z'], then [c += 'a' - 'A']. *)
Definition lower_byte (c : ascii) : ascii :=
  if ((65 <=? byte_code c) && (byte_code c <=? 90))%N
  then ascii_of_N (byte_code c + 32)
  else c.

(** ['a' <= c && c <= 'z'], then [c -= 'a' - 'A']. *)
Definition upper_byte (c : ascii) : ascii :=
  if ((97 <=? byte_code c) && (byte_code c <=? 122))%N
  then ascii_of_N (byte_code c - 32)
  else c.

(** [strings.ToLower]: an ASCII-only string is lowered byte by byte; any
    other string goes through [strings.Map(unicode.ToLower, s)], whose
    Unicode tables are the parameter [unicode_ToLower]. *)
Definition ToLower (unicode_ToLower : string → string) (s : string) : string :=
  if isASCII s then string_map lower_byte s else unicode_ToLower s.

(** [strings.HasPrefix(s, prefix)] *)
Fixpoint HasPrefix (s prefix : string) {struct prefix} : bool :=
  match prefix, s with
  | EmptyString, _ => true
  | String _ _, EmptyString => false
  | String c prefix', String d s' => bool_decide (c = d) && HasPrefix s' prefix'
  end.

(** [strings.Contains(s, substr)]: [substr] occurs in [s] at some offset. *)
Fixpoint Contains (s substr : string) : bool :=
  HasPrefix s substr
  || match s with
     | EmptyString => false
     | String _ s' => Contains s' substr
     end.

(** ** Queries: Search and GetOverdue *)

(** The inner loop of [Search] over the tags of [item]: appends [item] once
    and breaks at the first matching tag. *)
Fixpoint Search_tags (lower : string → string) (tags : list string)
    (query : string) (item : Item) (results : list Item) : list Item :=
  match tags with
  | [] => results
  | tag :: rest =>
      if Contains (lower tag) query then results ++ [item]
      else Search_tags lower rest query item results
  end.

(** The outer loop of [Search]; [query] is already lowered. *)
Fixpoint Search_loop (lower : string → string) (items : list Item)
    (query : string) (results : list Item) : list Item :=
  match items with
  | [] => results
  | item :: rest =>
      if Contains (lower (Text item)) query
      then Search_loop lower rest query (results ++ [item])
      else Search_loop lower rest query
             (Search_tags lower (Tags item) query item results)
  end.

Definition Search (unicode_ToLower : string → string) (query : string)
    (l : List) : List * list Item :=
  let query := ToLower unicode_ToLower query in
  (l, Search_loop (ToLower unicode_ToLower) (Items l) query []).

Fixpoint GetOverdue_loop (now : Time) (items results : list Item)
  : list Item :=
  match items with
  | [] => results
  | item :: rest =>
      if match DueDate item with
         | Some due => Before due now && negb (Done item)
         | None => false
         end
      then GetOverdue_loop now rest (results ++ [item])
      else GetOverdue_loop now rest results
  end.

Definition GetOverdue (now : Time) (l : List) : List * list Item :=
  (l, GetOverdue_loop now (Items l) []).

(** ** Priority: String and ParsePriority *)

Definition Priority_String (p : Priority) : string :=
  if bool_decide (p = PriorityHigh) then "HIGH"
  else if bool_decide (p = PriorityMedium) then "MEDIUM"
  else if bool_decide (p = PriorityLow) then "LOW"
  else "NONE".

(** [strings.ToUpper]: as [ToLower], an ASCII-only string is raised byte by
    byte and any other string goes through the Unicode tables, the
    parameter [unicode_ToUpper]. *)
Definition ToUpper (unicode_ToUpper : string → string) (s : string) : string :=
  if isASCII s then string_map upper_byte s else unicode_ToUpper s.

Definition ParsePriority (unicode_ToUpper : string → string) (s : string)
  : Priority :=
  let upper := ToUpper unicode_ToUpper s in
  if bool_decide (upper = "HIGH") || bool_decide (upper = "H")
  then PriorityHigh
  else if bool_decide (upper = "MEDIUM") || bool_decide (upper = "MED")
          || bool_decide (upper = "M")
  then PriorityMedium
  else if bool_decide (upper = "LOW") || bool_decide (upper = "L")
  then PriorityLow
  else PriorityMedium.

(** ** GetStats *)

Record Stats : Type := mkStats { Total : Z; Completed : Z; Pending : Z }.

Fixpoint GetStats_loop (items : list Item) (stats : Stats) : Stats :=
  match items with
  | [] => stats
  | item :: rest =>
      if Done item
      then GetStats_loop rest
             (mkStats (Total stats) (Completed stats + 1) (Pending stats))
      else GetStats_loop rest
             (mkStats (Total stats) (Completed stats) (Pending stats + 1))
  end.

Definition GetStats (l : List) : List * Stats :=
  (l, GetStats_loop (Items l) (mkStats (len l) 0 0)).

(** ** FilterByPriority and FilterByTag *)

Fixpoint FilterByPriority_loop (priority : Priority)
    (items results : list Item) : list Item :=
  match items with
  | [] => results
  | item :: rest =>
      if bool_decide (Item_Priority item = priority)
      then FilterByPriority_loop priority rest (results ++ [item])
      else FilterByPriority_loop priority rest results
  end.

Definition FilterByPriority (priority : Priority) (l : List)
  : List * list Item :=
  (l, FilterByPriority_loop priority (Items l) []).

(** The inner loop of [FilterByTag]: appends [item] and breaks at the first
    tag equal to [tag]. *)
Fixpoint FilterByTag_tags (tags : list string) (tag : string) (item : Item)
    (results : list Item) : list Item :=
  match tags with
  | [] => results
  | t :: rest =>
      if bool_decide (t = tag) then results ++ [item]
      else FilterByTag_tags rest tag item results
  end.

Fixpoint FilterByTag_loop (tag : string) (items results : list Item)
  : list Item :=
  match items with
  | [] => results
  | item :: rest =>
      FilterByTag_loop tag rest (FilterByTag_tags (Tags item) tag item results)
  end.

Definition FilterByTag (tag : string) (l : List) : List * list Item :=
  (l, FilterByTag_loop tag (Items l) []).

(** ** Persistence: Save and Load

    [os.WriteFile], [os.ReadFile], [json.Marshal] and [json.Unmarshal] are
    not part of the package.  The file system is a state with the files it
    holds and the paths it refuses; the two codec functions are parameters of
    [Save] and [Load].  [Data] is the type of file contents. *)

Record FS (Data : Type) : Type := mkFS {
  files : gmap string Data;
  unwritable : gset string;   (* no such directory, permission denied, ... *)
  unreadable : gset string    (* permission denied, is a directory, ... *)
}.
Arguments mkFS {Data} _ _ _.
Arguments files {Data} _.
Arguments unwritable {Data} _.
Arguments unreadable {Data} _.

Definition os_WriteFile {Data} (name : string) (data : Data) (fs : FS Data)
  : FS Data * option error :=
  if bool_decide (name ∈ unwritable fs)
  then (fs, Some (PathError "open" name))
  else (mkFS (<[name := data]> (files fs)) (unwritable fs) (unreadable fs),
        None).

Definition os_ReadFile {Data} (name : string) (fs : FS Data) : Data + error :=
  if bool_decide (name ∈ unreadable fs) then inr (PathError "open" name)
  else match files fs !! name with
       | Some data => inl data
       | None => inr (PathError "open" name)
       end.

(** [Save] and [Load].  [marshal] stands for [json.Marshal]: it returns
    the encoding of the List or an error.  [unmarshal] stands for
    [json.Unmarshal]: it decodes into the List behind the pointer it is
    given and returns that List as it has left it, next to its error. *)
Definition Save {Data} (marshal : List → Data + error) (filename : string)
    (l : List) (fs : FS Data) : FS Data * option error :=
  match marshal l with
  | inr err => (fs, Some err)
  | inl data => os_WriteFile filename data fs
  end.

Definition Load {Data} (unmarshal : Data → List → List * option error)
    (filename : string) (l : List) (fs : FS Data) : List * option error :=
  match os_ReadFile filename fs with
  | inr err => (l, Some err)
  | inl data => unmarshal data l
  end.

(** ** The decoder of encoding/json, for the type List

    A model of [json.Unmarshal(data, l)] for [l *List], following the
    documented behaviour of the package: the input is first checked for
    well-formedness as a whole; a well-formed input is then decoded into the
    live value, a JSON value that does not fit its target being skipped and
    the earliest such mismatch reported at the end, an error of
    [Time.UnmarshalJSON] stopping the decoding where it occurs.  Two pieces
    of the library stay parameters: [time_Parse], the RFC 3339 parser of
    package time, and [unicode_fold], the case folding of object keys that
    contain non-ASCII bytes. *)

Module gojson.

#[warnings="-register-all"]
Inductive value : Type :=
  | Null
  | Bool (b : bool)
  | Number (lit : string)
  | Str (raw : string)                      (* the literal between its quotes *)
  | Array (elems : list value)
  | Object (members : list (string * value)). (* keys as raw literals *)

(** *** Scanner *)

Definition byte_is (c : ascii) (code : N) : bool := (byte_code c =? code)%N.

Definition is_space (c : ascii) : bool :=
  byte_is c 32 || byte_is c 9 || byte_is c 13 || byte_is c 10.

Definition is_digit (c : ascii) : bool :=
  ((48 <=? byte_code c) && (byte_code c <=? 57))%N.

Definition hex_val (c : ascii) : option N :=
  let n := byte_code c in
  if ((48 <=? n) && (n <=? 57))%N then Some (n - 48)%N
  else if ((97 <=? n) && (n <=? 102))%N then Some (n - 87)%N
  else if ((65 <=? n) && (n <=? 70))%N then Some (n - 55)%N
  else None.

Fixpoint skip_space (s : string) : string :=
  match s with
  | String c s' => if is_space c then skip_space s' else s
  | EmptyString => s
  end.

Fixpoint span_digits (s : string) : string * string :=
  match s with
  | String c s' =>
      if is_digit c
      then let '(ds, rest) := span_digits s' in (String c ds, rest)
      else (EmptyString, s)
  | EmptyString => (EmptyString, s)
  end.

(** The exponent of a number, after its integer and fraction parts. *)
Definition scan_exp (lit s : string) : option (string * string) :=
  match s with
  | String e s1 =>
      if byte_is e 101 || byte_is e 69 then
        let '(sign, s2) :=
          match s1 with
          | String g s2 =>
              if byte_is g 43 || byte_is g 45
              then (String g EmptyString, s2)
              else (EmptyString, s1)
          | EmptyString => (EmptyString, s1)
          end in
        let '(ds, rest) := span_digits s2 in
        if bool_decide (ds = EmptyString) then None
        else Some (lit +:+ String e sign +:+ ds, rest)
      else Some (lit, s)
  | EmptyString => Some (lit, s)
  end.

Definition scan_frac (lit s : string) : option (string * string) :=
  match s with
  | String d s1 =>
      if byte_is d 46 then
        let '(ds, rest) := span_digits s1 in
        if bool_decide (ds = EmptyString) then None
        else scan_exp (lit +:+ String d ds) rest
      else scan_exp lit s
  | EmptyString => Some (lit, s)
  end.

(** A number literal at the head of [s], and the rest of [s]. *)
Definition scan_number (s : string) : option (string * string) :=
  let '(sign, s1) :=
    match s with
    | String m s1 => if byte_is m 45 then (String m EmptyString, s1)
                     else (EmptyString, s)
    | EmptyString => (EmptyString, s)
    end in
  match s1 with
  | String c s2 =>
      if byte_is c 48 then scan_frac (sign +:+ String c EmptyString) s2
      else if is_digit c then
        let '(ds, rest) := span_digits s1 in scan_frac (sign +:+ ds) rest
      else None
  | EmptyString => None
  end.

Definition cons2 (c : ascii) (r : option (string * string))
  : option (string * string) :=
  match r with
  | Some (body, rest) => Some (String c body, rest)
  | None => None
  end.

(** A string literal after its opening quote: its raw body and the rest of
    the input after the closing quote. *)
Fixpoint scan_string (s : string) : option (string * string) :=
  match s with
  | EmptyString => None
  | String c s1 =>
      if byte_is c 34 then Some (EmptyString, s1)
      else if byte_is c 92 then
        match s1 with
        | String e s2 =>
            if byte_is e 98 || byte_is e 102 || byte_is e 110
               || byte_is e 114 || byte_is e 116
               || byte_is e 92 || byte_is e 47 || byte_is e 34
            then cons2 c (cons2 e (scan_string s2))
            else if byte_is e 117 then
              match s2 with
              | String h1 (String h2 (String h3 (String h4 s3))) =>
                  match hex_val h1, hex_val h2, hex_val h3, hex_val h4 with
                  | Some _, Some _, Some _, Some _ =>
                      cons2 c (cons2 e (cons2 h1 (cons2 h2 (cons2 h3
                        (cons2 h4 (scan_string s3))))))
                  | _, _, _, _ => None
                  end
              | _ => None
              end
            else None
        | EmptyString => None
        end
      else if (byte_code c <? 32)%N then None
      else cons2 c (scan_string s1)
  end.

(** Strips the keyword [kw] from the head of [s]. *)
Fixpoint scan_keyword (kw s : string) : option string :=
  match kw, s with
  | EmptyString, _ => Some s
  | String k kw', String c s' =>
      if bool_decide (k = c) then scan_keyword kw' s' else None
  | String _ _, EmptyString => None
  end.

(** The elements of an array after the first look-ahead: a value, then
    [','] and more, or [']']. *)
Fixpoint scan_elements (scan_value : string → option (value * string))
    (fuel : nat) (s : string) : option (list value * string) :=
  match fuel with
  | O => None
  | S fuel' =>
      match scan_value s with
      | None => None
      | Some (v, rest) =>
          match skip_space rest with
          | String c rest' =>
              if byte_is c 44 then
                match scan_elements scan_value fuel' rest' with
                | Some (vs, rest'') => Some (v :: vs, rest'')
                | None => None
                end
              else if byte_is c 93 then Some ([v], rest')
              else None
          | EmptyString => None
          end
      end
  end.

(** The members of an object: a key, [':'], a value, then [','] and more,
    or ['}']. *)
Fixpoint scan_members (scan_value : string → option (value * string))
    (fuel : nat) (s : string) : option (list (string * value) * string) :=
  match fuel with
  | O => None
  | S fuel' =>
      match skip_space s with
      | String q s1 =>
          if byte_is q 34 then
            match scan_string s1 with
            | None => None
            | Some (key, s2) =>
                match skip_space s2 with
                | String colon s3 =>
                    if byte_is colon 58 then
                      match scan_value s3 with
                      | None => None
                      | Some (v, s4) =>
                          match skip_space s4 with
                          | String c s5 =>
                              if byte_is c 44 then
                                match scan_members scan_value fuel' s5 with
                                | Some (ms, s6) => Some ((key, v) :: ms, s6)
                                | None => None
                                end
                              else if byte_is c 125 then Some ([(key, v)], s5)
                              else None
                          | EmptyString => None
                          end
                      end
                    else None
                | EmptyString => None
                end
            end
          else None
      | EmptyString => None
      end
  end.

(** One JSON value at the head of [s], after optional white space.  [depth]
    bounds the nesting of arrays and objects. *)
Fixpoint scan_value (depth : nat) (s : string) : option (value * string) :=
  match depth with
  | O => None
  | S depth' =>
      match skip_space s with
      | EmptyString => None
      | String c s1 =>
          if byte_is c 110 then
            match scan_keyword "ull" s1 with
            | Some rest => Some (Null, rest) | None => None end
          else if byte_is c 116 then
            match scan_keyword "rue" s1 with
            | Some rest => Some (Bool true, rest) | None => None end
          else if byte_is c 102 then
            match scan_keyword "alse" s1 with
            | Some rest => Some (Bool false, rest) | None => None end
          else if byte_is c 34 then
            match scan_string s1 with
            | Some (raw, rest) => Some (Str raw, rest) | None => None end
          else if byte_is c 91 then
            match depth' with
            | O => None
            | S _ =>
                match skip_space s1 with
                | EmptyString => None
                | String d s2 =>
                    if byte_is d 93 then Some (Array [], s2)
                    else
                      match scan_elements (scan_value depth')
                              (String.length s1) s1 with
                      | Some (vs, rest) => Some (Array vs, rest)
                      | None => None
                      end
                end
            end
          else if byte_is c 123 then
            match depth' with
            | O => None
            | S _ =>
                match skip_space s1 with
                | EmptyString => None
                | String d s2 =>
                    if byte_is d 125 then Some (Object [], s2)
                    else
                      match scan_members (scan_value depth')
                              (String.length s1) s1 with
                      | Some (ms, rest) => Some (Object ms, rest)
                      | None => None
                      end
                end
            end
          else
            match scan_number (String c s1) with
            | Some (lit, rest) => Some (Number lit, rest)
            | None => None
            end
      end
  end.

(** The scanner gives up beyond 10000 nested arrays and objects. *)
Definition maxNestingDepth : nat := 100 * 100.

(** [checkValid]: the whole of [data] is one JSON value, white space
    around it apart. *)
Definition checkValid (data : string) : option value :=
  match scan_value (S maxNestingDepth) data with
  | Some (v, rest) =>
      match skip_space rest with
      | EmptyString => Some v
      | String _ _ => None
      end
  | None => None
  end.

(** *** String literals *)

Definition chr (n : N) : ascii := ascii_of_N n.

(** [utf8.EncodeRune]; surrogates and values beyond U+10FFFF are encoded as
    U+FFFD. *)
Definition EncodeRune (r : N) : string :=
  let replacement := String (chr 239) (String (chr 191) (String (chr 189) "")) in
  (if r <? 128 then String (chr r) ""
   else if r <? 2048 then
     String (chr (192 + r / 64)) (String (chr (128 + r mod 64)) "")
   else if (55296 <=? r) && (r <? 57344) then replacement
   else if r <? 65536 then
     String (chr (224 + r / 4096))
       (String (chr (128 + (r / 64) mod 64)) (String (chr (128 + r mod 64)) ""))
   else if r <? 1114112 then
     String (chr (240 + r / 262144))
       (String (chr (128 + (r / 4096) mod 64))
          (String (chr (128 + (r / 64) mod 64))
             (String (chr (128 + r mod 64)) "")))
   else replacement)%N.

Definition in_range (lo hi : N) (c : ascii) : bool :=
  ((lo <=? byte_code c) && (byte_code c <=? hi))%N.

(** The width of the well-formed UTF-8 sequence at the head of [s]; [0] when
    there is none ([utf8.DecodeRune] then returns [RuneError] with size 1). *)
Definition rune_width (s : string) : nat :=
  match s with
  | EmptyString => 0
  | String b0 s1 =>
      if (byte_code b0 <? 128)%N then 1
      else
        match s1 with
        | EmptyString => 0
        | String b1 s2 =>
            if in_range 194 223 b0 then
              if in_range 128 191 b1 then 2 else 0
            else
              match s2 with
              | EmptyString => 0
              | String b2 s3 =>
                  let second3 :=
                    if byte_is b0 224 then in_range 160 191 b1
                    else if byte_is b0 237 then in_range 128 159 b1
                    else in_range 128 191 b1 in
                  if in_range 224 239 b0 then
                    if second3 && in_range 128 191 b2 then 3 else 0
                  else
                    match s3 with
                    | EmptyString => 0
                    | String b3 _ =>
                        let second4 :=
                          if byte_is b0 240 then in_range 144 191 b1
                          else if byte_is b0 244 then in_range 128 143 b1
                          else in_range 128 191 b1 in
                        if in_range 240 244 b0 && second4
                           && in_range 128 191 b2 && in_range 128 191 b3
                        then 4 else 0
                    end
              end
        end
  end.

(** [getu4]: the code unit of the escape [\uXXXX] at the head of [s]. *)
Definition getu4 (s : string) : option (N * string) :=
  match s with
  | String b (String u (String h1 (String h2 (String h3 (String h4 rest))))) =>
      if byte_is b 92 && byte_is u 117 then
        match hex_val h1, hex_val h2, hex_val h3, hex_val h4 with
        | Some a, Some b, Some c, Some d =>
            Some (((a * 16 + b) * 16 + c) * 16 + d, rest)%N
        | _, _, _, _ => None
        end
      else None
  | _ => None
  end.

Fixpoint string_take (n : nat) (s : string) : string :=
  match n, s with
  | S n', String c s' => String c (string_take n' s')
  | _, _ => EmptyString
  end.

Fixpoint string_drop (n : nat) (s : string) : string :=
  match n, s with
  | S n', String _ s' => string_drop n' s'
  | _, _ => s
  end.

Definition unescape (e : ascii) : ascii :=
  if byte_is e 98 then chr 8
  else if byte_is e 102 then chr 12
  else if byte_is e 110 then chr 10
  else if byte_is e 114 then chr 13
  else if byte_is e 116 then chr 9
  else e.

(** [unquote]: the string a raw literal denotes.  Escapes are decoded, a
    pair of surrogate escapes gives one rune, a lone surrogate and every
    byte that is not part of well-formed UTF-8 become U+FFFD. *)
Fixpoint unquote_loop (fuel : nat) (raw : string) : string :=
  match fuel with
  | O => EmptyString
  | S fuel' =>
      match raw with
      | EmptyString => EmptyString
      | String c rest =>
          if byte_is c 92 then
            match getu4 raw with
            | Some (rr, rest1) =>
                if ((55296 <=? rr) && (rr <? 57344))%N then
                  match getu4 rest1 with
                  | Some (rr1, rest2) =>
                      if ((rr <? 56320) && (56320 <=? rr1) && (rr1 <? 57344))%N
                      then EncodeRune
                             ((rr - 55296) * 1024 + (rr1 - 56320) + 65536)%N
                           +:+ unquote_loop fuel' rest2
                      else EncodeRune 65533 +:+ unquote_loop fuel' rest1
                  | None => EncodeRune 65533 +:+ unquote_loop fuel' rest1
                  end
                else EncodeRune rr +:+ unquote_loop fuel' rest1
            | None =>
                match rest with
                | String e rest1 =>
                    String (unescape e) (unquote_loop fuel' rest1)
                | EmptyString => EmptyString
                end
            end
          else
            match rune_width raw with
            | O => EncodeRune 65533 +:+ unquote_loop fuel' rest
            | S n => String c (string_take n rest)
                     +:+ unquote_loop fuel' (string_drop n rest)
            end
      end
  end.

Definition unquote (raw : string) : string :=
  unquote_loop (String.length raw) raw.

(** *** Decoding into a List *)

(** The instant of the zero [time.Time], January 1 of year 1, 00:00 UTC, in
    nanoseconds from the Unix epoch. *)
Definition Time_zero : Time := -62135596800 * 1000000000.

(** The zero [Item], to which a fresh slice element is initialised. *)
Definition Item_zero : Item :=
  {| Text := ""; Done := false; Item_Priority := 0; DueDate := None;
     Tags := []; CreatedAt := Time_zero |}.

(** [d.saveError]: only the earliest mismatch is kept. *)
Definition saveError (err : error) (saved : option error) : option error :=
  match saved with
  | Some _ => saved
  | None => Some err
  end.

(** The [Value] of an [UnmarshalTypeError]. *)
Definition kind (v : value) : string :=
  match v with
  | Null => "null"
  | Bool _ => "bool"
  | Number _ => "number"
  | Str _ => "string"
  | Array _ => "array"
  | Object _ => "object"
  end.

(** A decoding step returns its target as it has left it, the saved error
    and, when decoding stops, the error that stops it. *)
Definition step (A : Type) : Type := A * option error * option error.

Definition decode_string (v : value) (cur : string) (saved : option error)
  : step string :=
  match v with
  | Str raw => (unquote raw, saved, None)
  | Null => (cur, saved, None)
  | _ => (cur, saveError (UnmarshalTypeError (kind v)) saved, None)
  end.

Definition decode_bool (v : value) (cur : bool) (saved : option error)
  : step bool :=
  match v with
  | Bool b => (b, saved, None)
  | Null => (cur, saved, None)
  | _ => (cur, saveError (UnmarshalTypeError (kind v)) saved, None)
  end.

Fixpoint digits_value (s : string) (acc : Z) : option Z :=
  match s with
  | EmptyString => Some acc
  | String c s' =>
      if is_digit c
      then digits_value s' (10 * acc + Z.of_N (byte_code c - 48))
      else None
  end.

(** [strconv.ParseInt(lit, 10, 64)] on a number literal. *)
Definition ParseInt (lit : string) : option Z :=
  let '(neg, ds) :=
    match lit with
    | String m ds => if byte_is m 45 then (true, ds) else (false, lit)
    | EmptyString => (false, lit)
    end in
  match ds with
  | EmptyString => None
  | String _ _ =>
      match digits_value ds 0 with
      | Some n =>
          let z := if neg then - n else n in
          if (- 2 ^ 63 <=? z) && (z <? 2 ^ 63) then Some z else None
      | None => None
      end
  end.

Definition decode_int (v : value) (cur : Z) (saved : option error) : step Z :=
  match v with
  | Number lit =>
      match ParseInt lit with
      | Some z => (z, saved, None)
      | None =>
          (cur, saveError (UnmarshalTypeError ("number " +:+ lit)) saved, None)
      end
  | Null => (cur, saved, None)
  | _ => (cur, saveError (UnmarshalTypeError (kind v)) saved, None)
  end.

(** Array elements are decoded into the slots of the slice in turn, a slot
    beyond its length starting from [zero]; the slice is cut after the last
    element, unless decoding stops before. *)
Fixpoint decode_elems {A : Type} (zero : A)
    (dec : value → A → option error → step A)
    (elems : list value) (cur : list A) (saved : option error)
  : step (list A) :=
  match elems with
  | [] => ([], saved, None)
  | v :: rest =>
      let '(x, saved1, stop) := dec v (default zero (head cur)) saved in
      match stop with
      | Some err => (x :: tail cur, saved1, Some err)
      | None =>
          let '(xs, saved2, stop2) :=
            decode_elems zero dec rest (tail cur) saved1 in
          (x :: xs, saved2, stop2)
      end
  end.

Definition decode_slice {A : Type} (zero : A)
    (dec : value → A → option error → step A)
    (v : value) (cur : list A) (saved : option error) : step (list A) :=
  match v with
  | Array elems => decode_elems zero dec elems cur saved
  | Null => ([], saved, None)
  | _ => (cur, saveError (UnmarshalTypeError (kind v)) saved, None)
  end.

Section Decode.

(** The RFC 3339 parser behind [Time.UnmarshalJSON], applied to the raw
    literal between its quotes. *)
Variable time_Parse : string → option Time.

(** The case folding of an object key that has non-ASCII bytes. *)
Variable unicode_fold : string → string.

(** [foldName]: keys are matched with field names up to case. *)
Definition foldName (key : string) : string :=
  if isASCII key then string_map upper_byte key else unicode_fold key.

(** A [time.Time] target decodes through [Time.UnmarshalJSON], whose error
    stops the decoding. *)
Definition decode_Time (v : value) (cur : Time) (saved : option error)
  : step Time :=
  match v with
  | Null => (cur, saved, None)
  | Str raw =>
      match time_Parse raw with
      | Some t => (t, saved, None)
      | None => (cur, saved, Some (TimeParseError raw))
      end
  | _ => (cur, saved, Some (TimeParseError (kind v)))
  end.

(** A [*time.Time] target: [null] sets the pointer to nil; for any other
    value a nil pointer is first set to a new zero [time.Time]. *)
Definition decode_Time_ptr (v : value) (cur : option Time)
    (saved : option error) : step (option Time) :=
  match v with
  | Null => (None, saved, None)
  | _ =>
      let '(t, saved1, stop) := decode_Time v (default Time_zero cur) saved in
      (Some t, saved1, stop)
  end.

(** One member of an object decoded into an Item. *)
Definition decode_Item_member (key : string) (v : value) (it : Item)
    (saved : option error) : step Item :=
  let name := foldName (unquote key) in
  if bool_decide (name = "TEXT") then
    let '(x, saved1, stop) := decode_string v (Text it) saved in
    (set_Text x it, saved1, stop)
  else if bool_decide (name = "DONE") then
    let '(x, saved1, stop) := decode_bool v (Done it) saved in
    (set_Done x it, saved1, stop)
  else if bool_decide (name = "PRIORITY") then
    let '(x, saved1, stop) := decode_int v (Item_Priority it) saved in
    (set_Priority x it, saved1, stop)
  else if bool_decide (name = "DUEDATE") then
    let '(x, saved1, stop) := decode_Time_ptr v (DueDate it) saved in
    (set_DueDate x it, saved1, stop)
  else if bool_decide (name = "TAGS") then
    let '(x, saved1, stop) :=
      decode_slice EmptyString decode_string v (Tags it) saved in
    (set_Tags x it, saved1, stop)
  else if bool_decide (name = "CREATEDAT") then
    let '(x, saved1, stop) := decode_Time v (CreatedAt it) saved in
    (mkItem (Text it) (Done it) (Item_Priority it) (DueDate it) (Tags it) x,
     saved1, stop)
  else (it, saved, None).

Fixpoint decode_Item_members (members : list (string * value)) (it : Item)
    (saved : option error) : step Item :=
  match members with
  | [] => (it, saved, None)
  | (key, v) :: rest =>
      let '(it1, saved1, stop) := decode_Item_member key v it saved in
      match stop with
      | Some err => (it1, saved1, Some err)
      | None => decode_Item_members rest it1 saved1
      end
  end.

Definition decode_Item (v : value) (cur : Item) (saved : option error)
  : step Item :=
  match v with
  | Object members => decode_Item_members members cur saved
  | Null => (cur, saved, None)
  | _ => (cur, saveError (UnmarshalTypeError (kind v)) saved, None)
  end.

Fixpoint decode_List_members (members : list (string * value)) (l : List)
    (saved : option error) : step List :=
  match members with
  | [] => (l, saved, None)
  | (key, v) :: rest =>
      if bool_decide (foldName (unquote key) = "ITEMS") then
        let '(items, saved1, stop) :=
          decode_slice Item_zero decode_Item v (Items l) saved in
        match stop with
        | Some err => (mkList items, saved1, Some err)
        | None => decode_List_members rest (mkList items) saved1
        end
      else decode_List_members rest l saved
  end.

Definition decode_List (v : value) (l : List) (saved : option error)
  : step List :=
  match v with
  | Object members => decode_List_members members l saved
  | Null => (l, saved, None)
  | _ => (l, saveError (UnmarshalTypeError (kind v)) saved, None)
  end.

(** [json.Unmarshal(data, l)] *)
Definition Unmarshal (data : string) (l : List) : List * option error :=
  match checkValid data with
  | None => (l, Some SyntaxError)
  | Some v =>
      let '(l', saved, stop) := decode_List v l None in
      (l', match stop with Some err => Some err | None => saved end)
  end.

End Decode.

(** *** Encoding a List

    A model of [json.Marshal(l)] for [l *List]: the fields of a struct in
    their order, a nil [DueDate] and an empty [Tags] left out
    ([omitempty]), strings quoted by [appendString] with HTML escaping on.
    [time_Format] stands for the RFC 3339 text of [Time.MarshalJSON], which
    fails for a year outside [0, 9999]. *)

Definition dq : ascii := chr 34.
Definition bs : ascii := chr 92.

(** ["0123456789abcdef"[n]] *)
Definition hex_digit (n : N) : ascii :=
  if (n <? 10)%N then chr (48 + n) else chr (87 + n).

(** [htmlSafeSet]: the ASCII bytes that are copied as they are. *)
Definition htmlSafe (b : ascii) : bool :=
  (32 <=? byte_code b)%N
  && negb (byte_is b 34 || byte_is b 92 || byte_is b 60 || byte_is b 62
           || byte_is b 38).

(** What [appendString] writes for a byte below [utf8.RuneSelf]. *)
Definition quote_byte (b : ascii) : string :=
  if htmlSafe b then String b EmptyString
  else if byte_is b 92 || byte_is b 34 then String bs (String b EmptyString)
  else if byte_is b 8 then String bs "b"
  else if byte_is b 12 then String bs "f"
  else if byte_is b 10 then String bs "n"
  else if byte_is b 13 then String bs "r"
  else if byte_is b 9 then String bs "t"
  else String bs
         (String (chr 117) (String (chr 48) (String (chr 48)
            (String (hex_digit (byte_code b / 16))
               (String (hex_digit (byte_code b mod 16)) EmptyString))))).

(** U+2028 and U+2029 at the head of [s]: the last hex digit of the rune
    and the rest of [s]. *)
Definition line_separator (s : string) : option (ascii * string) :=
  match s with
  | String b0 (String b1 (String b2 rest)) =>
      if byte_is b0 226 && byte_is b1 128
      then if byte_is b2 168 then Some (chr 56, rest)
           else if byte_is b2 169 then Some (chr 57, rest)
           else None
      else None
  | _ => None
  end.

(** The body of [appendString]: what stands between the quotes. *)
Fixpoint quote_loop (fuel : nat) (s : string) : string :=
  match fuel with
  | O => EmptyString
  | S fuel' =>
      match s with
      | EmptyString => EmptyString
      | String b rest =>
          if (byte_code b <? RuneSelf)%N
          then quote_byte b +:+ quote_loop fuel' rest
          else
            match rune_width s with
            | O => String bs "ufffd" +:+ quote_loop fuel' rest
            | S n =>
                match line_separator s with
                | Some (h, rest3) =>
                    String bs "u202" +:+ String h (quote_loop fuel' rest3)
                | None =>
                    String b (string_take n rest)
                    +:+ quote_loop fuel' (string_drop n rest)
                end
            end
      end
  end.

Definition quote_body (s : string) : string :=
  quote_loop (String.length s) s.

(** A string literal: [body] between quotes. *)
Definition literal (body : string) : string :=
  String dq (body +:+ String dq EmptyString).

(** The decimal digits of [n], written before [acc]. *)
Fixpoint digits_loop (fuel : nat) (n : N) (acc : string) : string :=
  match fuel with
  | O => acc
  | S fuel' =>
      let acc' := String (chr (48 + n mod 10)) acc in
      if (n / 10 =? 0)%N then acc' else digits_loop fuel' (n / 10) acc'
  end.

(** [strconv.AppendInt(z, 10)] for a 64-bit [z], which has at most 20
    digits. *)
Definition itoa (z : Z) : string :=
  if z <? 0 then String (chr 45) (digits_loop 20 (Z.to_N (- z)) EmptyString)
  else digits_loop 20 (Z.to_N z) EmptyString.

(** The text of a member: the key between quotes, a colon, the value. *)
Definition member (name value : string) : string :=
  String dq (name +:+ String dq (String (chr 58) value)).

Fixpoint join_comma (texts : list string) : string :=
  match texts with
  | [] => EmptyString
  | [text] => text
  | text :: rest => text +:+ String (chr 44) (join_comma rest)
  end.

Definition brackets (opening closing : N) (texts : list string) : string :=
  String (chr opening) (join_comma texts +:+ String (chr closing) EmptyString).

Section Encode.

Variable time_Format : Time → option string.

(** The members of an Item, each with its name and the text of its value;
    [None] when [Time.MarshalJSON] fails. *)
Definition Item_members (it : Item) : option (list (string * string)) :=
  match time_Format (CreatedAt it) with
  | None => None
  | Some created =>
      let tags :=
        match Tags it with
        | [] => []
        | _ :: _ =>
            [("Tags",
              brackets 91 93 (map (λ tag, literal (quote_body tag)) (Tags it)))]
        end in
      let members due :=
        [("Text", literal (quote_body (Text it)));
         ("Done", if Done it then "true" else "false");
         ("Priority", itoa (Item_Priority it))]
        ++ due ++ tags ++ [("CreatedAt", literal created)] in
      match DueDate it with
      | None => Some (members [])
      | Some d =>
          match time_Format d with
          | None => None
          | Some due => Some (members [("DueDate", literal due)])
          end
      end
  end.

Definition encode_Item (it : Item) : option string :=
  match Item_members it with
  | Some members =>
      Some (brackets 123 125 (map (λ m, member m.1 m.2) members))
  | None => None
  end.

Fixpoint encode_Items (items : list Item) : option (list string) :=
  match items with
  | [] => Some []
  | it :: rest =>
      match encode_Item it, encode_Items rest with
      | Some text, Some texts => Some (text :: texts)
      | _, _ => None
      end
  end.

(** [json.Marshal(l)].  For an empty list, [nil_Items] tells whether
    [l.Items] is the nil slice, written [null], or an empty one, written
    [[]]. *)
Definition Marshal (nil_Items : bool) (l : List) : string + error :=
  match Items l with
  | [] =>
      inl (brackets 123 125
             [member "Items" (if nil_Items then "null" else brackets 91 93 [])])
  | _ :: _ =>
      match encode_Items (Items l) with
      | Some texts =>
          inl (brackets 123 125 [member "Items" (brackets 91 93 texts)])
      | None => inr (MarshalerError "Time.MarshalJSON")
      end
  end.

End Encode.

End gojson.

(** ** Packages utf8 and strings: DecodeRune and Map *)

(** [utf8.DecodeRuneInString] on a non-empty string: the rune at its head
    and the width of its encoding; a byte that starts no well-formed
    sequence decodes to U+FFFD with width 1. *)
Definition DecodeRune (s : string) : N * nat :=
  match gojson.rune_width s, s with
  | 1%nat, String b0 _ => (byte_code b0, 1%nat)
  | 2%nat, String b0 (String b1 _) =>
      ((byte_code b0 - 192) * 64 + (byte_code b1 - 128), 2%nat)%N
  | 3%nat, String b0 (String b1 (String b2 _)) =>
      ((byte_code b0 - 224) * 4096 + (byte_code b1 - 128) * 64
       + (byte_code b2 - 128), 3%nat)%N
  | 4%nat, String b0 (String b1 (String b2 (String b3 _))) =>
      ((byte_code b0 - 240) * 262144 + (byte_code b1 - 128) * 4096
       + (byte_code b2 - 128) * 64 + (byte_code b3 - 128), 4%nat)%N
  | _, _ => (65533%N, 1%nat)
  end.

(** [strings.Map(mapping, s)] for a mapping that drops no rune: the runes
    of [s], as [range] decodes them, are mapped and written out in turn. *)
Fixpoint Map_loop (fuel : nat) (mapping : N → N) (s : string) : string :=
  match fuel with
  | O => EmptyString
  | S fuel' =>
      match s with
      | EmptyString => EmptyString
      | String _ _ =>
          let '(c, width) := DecodeRune s in
          gojson.EncodeRune (mapping c)
          +:+ Map_loop fuel' mapping (gojson.string_drop width s)
      end
  end.

Definition strings_Map (mapping : N → N) (s : string) : string :=
  Map_loop (String.length s) mapping s.

(** * Properties *)

(** ** Vocabulary of the statements *)

(** The incomplete items and the completed items of a sequence, each in the
    order of the sequence. *)
Definition incomplete_of (items : list Item) : list Item :=
  filter (λ it, Done it = false) items.
Definition completed_of (items : list Item) : list Item :=
  filter (λ it, Done it = true) items.

(** No completed item precedes an incomplete item. *)
Definition partitioned (items : list Item) : Prop :=
  ∀ (i j : nat) (a b : Item),
    (i < j)%nat → items !! i = Some a → items !! j = Some b →
    Done a = true → Done b = true.

(** The index is a position of the list. *)
Definition valid_index (index : Z) (l : List) : Prop := 0 ≤ index < len l.

(** Some item of the list has the text [t]. *)
Definition has_text (t : string) (l : List) : Prop :=
  Exists (λ it, Text it = t) (Items l).

(** [selects P items results]: [results] is [items] restricted to the
    positions whose item satisfies [P], in the same order, each position
    kept once. *)
Inductive selects {A : Type} (P : A → Prop) : list A → list A → Prop :=
  | selects_nil : selects P [] []
  | selects_keep x items results :
      P x → selects P items results → selects P (x :: items) (x :: results)
  | selects_skip x items results :
      ¬ P x → selects P items results → selects P (x :: items) results.

(** [sub] occurs in [s]. *)
Definition substring_of (sub s : string) : Prop :=
  ∃ pre post, s = pre +:+ sub +:+ post.

(** [q] occurs in [s] when case is ignored, that is, after [ToLower] on
    both. *)
Definition ci_substring (unicode_ToLower : string → string) (q s : string)
  : Prop :=
  substring_of (ToLower unicode_ToLower q) (ToLower unicode_ToLower s).

(** The item matches the query on its text or on one of its tags. *)
Definition matches (unicode_ToLower : string → string) (q : string)
    (it : Item) : Prop :=
  ci_substring unicode_ToLower q (Text it)
  ∨ ∃ tag, tag ∈ Tags it ∧ ci_substring unicode_ToLower q tag.

(** The item has a due date, strictly before [now], and is not done. *)
Definition overdue (now : Time) (it : Item) : Prop :=
  ∃ due, DueDate it = Some due ∧ due < now ∧ Done it = false.

(** Two items agree on text, done flag, priority, due date and tags. *)
Definition same_item (a b : Item) : Prop :=
  Text a = Text b ∧ Done a = Done b ∧ Item_Priority a = Item_Priority b
  ∧ DueDate a = DueDate b ∧ Tags a = Tags b.

(** Two lists have pairwise agreeing items, in the same order. *)
Definition same_items (l l' : List) : Prop :=
  Forall2 same_item (Items l) (Items l').

(** JSON text written with ['] where the text has its double quote. *)
Definition json_text (s : string) : string :=
  string_map (λ c, if gojson.byte_is c 39 then ascii_of_N 34 else c) s.

(** A file system that holds nothing and refuses the directory of the save
    error test. *)
Definition no_directory : string := "/nonexistent/directory/todos.json".
Definition fs_no_directory : FS string := mkFS ∅ {[ no_directory ]} ∅.

(** A file system that holds nothing and refuses nothing, and one where
    [todos.json] can be written but not read. *)
Definition fs_empty : FS string := mkFS ∅ ∅ ∅.
Definition fs_write_only : FS string := mkFS ∅ ∅ {[ "todos.json" ]}.

(** A file of well-formed JSON whose second item has a number for text, and
    a file that is not JSON. *)
Definition wrong_shape : string :=
  json_text "{'Items':[{'Text':'a'},{'Text':1}]}".
Definition fs_wrong_shape : FS string :=
  mkFS {[ "todos.json" := wrong_shape ]} ∅ ∅.
Definition fs_not_json : FS string :=
  mkFS {[ "todos.json" := "invalid json content {{{" ]} ∅ ∅.

#[global] Instance has_text_dec t l : Decision (has_text t l).
Proof. unfold has_text. apply _. Defined.

Definition ErrExists : error := errors_New "Item already exists in the list".

(** The three tasks of the scenarios. *)
Definition three_tasks : List :=
  {| Items := [NewItem 1 "Task 1"; NewItem 2 "Task 2"; NewItem 3 "Task 3"] |}.

(** Every item of the list has a non-empty text. *)
Definition nonempty_texts (l : List) : Prop :=
  Forall (λ it, Text it ≠ "") (Items l).

(** Lists built from the empty list by the mutating operations. *)
Inductive reachable : List → Prop :=
  | reach_NewList : reachable NewList
  | reach_Add now text l : reachable l → reachable (Add now text l).1
  | reach_Complete index l : reachable l → reachable (Complete index l).1
  | reach_Uncomplete index l : reachable l → reachable (Uncomplete index l).1
  | reach_Delete index l : reachable l → reachable (Delete index l).1
  | reach_Edit index text l : reachable l → reachable (Edit index text l).1
  | reach_SetPriority index p l :
      reachable l → reachable (SetPriority index p l).1
  | reach_SetDueDate index d l :
      reachable l → reachable (SetDueDate index d l).1
  | reach_AddTag index tag l : reachable l → reachable (AddTag index tag l).1
  | reach_RemoveTag index tag l :
      reachable l → reachable (RemoveTag index tag l).1
  | reach_ClearCompleted l : reachable l → reachable (ClearCompleted l).1
  | reach_Sort l : reachable l → reachable (Sort l).

(** Two bytes are the same letter up to ASCII case: equal, or an upper
    case letter and the lower case letter 32 code points above it. *)
Definition is_upper_letter (c : ascii) : Prop :=
  (65 ≤ byte_code c ∧ byte_code c ≤ 90)%N.

Definition same_letter (c d : ascii) : Prop :=
  c = d
  ∨ (is_upper_letter c ∧ byte_code d = (byte_code c + 32)%N)
  ∨ (is_upper_letter d ∧ byte_code c = (byte_code d + 32)%N).

(** Two strings have the same length and the same letters up to ASCII
    case. *)
Fixpoint case_equal (s t : string) : Prop :=
  match s, t with
  | EmptyString, EmptyString => True
  | String c s', String d t' => same_letter c d ∧ case_equal s' t'
  | _, _ => False
  end.

(** [q] occurs in [s] up to ASCII case: some part of [s] is [q] up to
    case. *)
Definition ci_occurs (q s : string) : Prop :=
  ∃ pre mid post, s = pre +:+ mid +:+ post ∧ case_equal mid q.

(** The item contains the query as a case-insensitive substring of its
    text or of one of its tags. *)
Definition matches_ci (q : string) (it : Item) : Prop :=
  ci_occurs q (Text it) ∨ ∃ tag, tag ∈ Tags it ∧ ci_occurs q tag.

(** The text and the tags of the item are ASCII. *)
Definition ascii_item (it : Item) : Prop :=
  isASCII (Text it) = true ∧ Forall (λ tag, isASCII tag = true) (Tags it).

(** The tasks of the search scenario. *)
Definition go_tasks : List :=
  {| Items := [NewItem 1 "Buy groceries"; NewItem 2 "Learn Go programming";
               NewItem 3 "Write documentation"] |}.

(** Two strings of one byte each, neither of them well-formed UTF-8. *)
Definition byte_fe : string := String (ascii_of_N 254) EmptyString.
Definition byte_ff : string := String (ascii_of_N 255) EmptyString.

(** The string is well-formed UTF-8: a sequence of well-formed runes. *)
Inductive valid_utf8 : string → Prop :=
  | valid_utf8_nil : valid_utf8 EmptyString
  | valid_utf8_rune s n :
      gojson.rune_width s = S n →
      valid_utf8 (gojson.string_drop (S n) s) →
      valid_utf8 s.

(** The value of a Go [int]. *)
Definition int64 (z : Z) : Prop := - 2 ^ 63 ≤ z < 2 ^ 63.

(** The raw body of a string literal, as the scanner accepts it: plain
    bytes, two-byte escapes, and [\u] escapes of four hex digits. *)
Definition is_escape (e : ascii) : bool :=
  gojson.byte_is e 98 || gojson.byte_is e 102 || gojson.byte_is e 110
  || gojson.byte_is e 114 || gojson.byte_is e 116
  || gojson.byte_is e 92 || gojson.byte_is e 47 || gojson.byte_is e 34.

Inductive raw_ok : string → Prop :=
  | raw_nil : raw_ok EmptyString
  | raw_plain c raw :
      (32 <=? byte_code c)%N = true →
      gojson.byte_is c 34 = false → gojson.byte_is c 92 = false →
      raw_ok raw → raw_ok (String c raw)
  | raw_escape e raw :
      is_escape e = true → raw_ok raw →
      raw_ok (String gojson.bs (String e raw))
  | raw_unicode h1 h2 h3 h4 raw :
      is_Some (gojson.hex_val h1) → is_Some (gojson.hex_val h2) →
      is_Some (gojson.hex_val h3) → is_Some (gojson.hex_val h4) →
      raw_ok raw →
      raw_ok (String gojson.bs (String (gojson.chr 117)
                (String h1 (String h2 (String h3 (String h4 raw)))))).

(** A time text without quote, backslash or control byte, as RFC 3339
    texts are. *)
Definition plain_text (s : string) : Prop :=
  string_forallb (λ c, (32 <=? byte_code c)%N
                       && negb (gojson.byte_is c 34)
                       && negb (gojson.byte_is c 92)) s = true.

(** [time_Format] and [time_Parse] agree on the instant [t]: [t] is
    written, as plain text, and the text reads back as [t]. *)
Definition time_round_trips (time_Format : Time → option string)
    (time_Parse : string → option Time) (t : Time) : Prop :=
  ∃ s, time_Format t = Some s ∧ plain_text s ∧ time_Parse s = Some t.

(** What the JSON round trip asks of an item: text and tags are well-formed
    UTF-8, the priority is a Go [int], and the time codec agrees on its
    time stamps. *)
Definition encodable (time_Format : Time → option string)
    (time_Parse : string → option Time) (it : Item) : Prop :=
  valid_utf8 (Text it)
  ∧ Forall valid_utf8 (Tags it)
  ∧ int64 (Item_Priority it)
  ∧ time_round_trips time_Format time_Parse (CreatedAt it)
  ∧ ∀ d, DueDate it = Some d → time_round_trips time_Format time_Parse d.

(** The RFC 3339 texts of the first instants after the Unix epoch, in
    UTC, and their reading.  The table writes no other instant; among
    them are the instants of the year 10000 and later, which
    [Time.MarshalJSON] refuses. *)
Definition utc_Format (t : Time) : option string :=
  if bool_decide (t = 1) then Some "1970-01-01T00:00:00.000000001Z"
  else if bool_decide (t = 2) then Some "1970-01-01T00:00:00.000000002Z"
  else if bool_decide (t = 3) then Some "1970-01-01T00:00:00.000000003Z"
  else None.

Definition utc_Parse (s : string) : option Time :=
  if bool_decide (s = "1970-01-01T00:00:00.000000001Z") then Some 1
  else if bool_decide (s = "1970-01-01T00:00:00.000000002Z") then Some 2
  else if bool_decide (s = "1970-01-01T00:00:00.000000003Z") then Some 3
  else None.

(** ** Vocabulary of the JSON round trip *)

(** Every byte of the string is outside ASCII. *)
Definition high_bytes (s : string) : Prop :=
  string_forallb (λ c, (128 <=? byte_code c)%N) s = true.

(** What may follow a number: a byte that continues no number. *)
Definition ends_number (x : ascii) : Prop :=
  gojson.is_digit x = false ∧ gojson.byte_is x 46 = false
  ∧ gojson.byte_is x 101 = false ∧ gojson.byte_is x 69 = false.

(** A byte that may follow a value inside an array or an object. *)
Definition delimiter (x : ascii) : Prop :=
  x = gojson.chr 44 ∨ x = gojson.chr 93 ∨ x = gojson.chr 125.

(** The text begins with a byte that is not white space and closes
    nothing. *)
Definition starts_value (text : string) : Prop :=
  ∃ c r, text = String c r ∧ gojson.is_space c = false
         ∧ gojson.byte_is c 93 = false ∧ gojson.byte_is c 125 = false.

(** [scan] reads the value [v] off [text] when a delimiter follows. *)
Definition scans_to (scan : string → option (gojson.value * string))
    (text : string) (v : gojson.value) : Prop :=
  starts_value text
  ∧ ∀ x X, delimiter x → scan (text +:+ String x X) = Some (v, String x X).

Definition member_scans (scan : string → option (gojson.value * string))
    (m : string * string) (kv : string * gojson.value) : Prop :=
  raw_ok m.1 ∧ kv.1 = m.1 ∧ scans_to scan m.2 kv.2.

(** The JSON value that the text of an Item denotes. *)
Definition Item_value (time_Format : Time → option string) (it : Item)
  : gojson.value :=
  gojson.Object
    ([("Text", gojson.Str (gojson.quote_body (Text it)));
      ("Done", gojson.Bool (Done it));
      ("Priority", gojson.Number (gojson.itoa (Item_Priority it)))]
     ++ match DueDate it with
        | Some d => [("DueDate", gojson.Str (default "" (time_Format d)))]
        | None => []
        end
     ++ match Tags it with
        | [] => []
        | _ :: _ =>
            [("Tags",
              gojson.Array
                (map (λ tag, gojson.Str (gojson.quote_body tag)) (Tags it)))]
        end
     ++ [("CreatedAt",
          gojson.Str (default "" (time_Format (CreatedAt it))))]).

(** Two items with what [appendString] escapes in text and tags, a due
    date and the done flag set. *)
Definition saved_tasks : List :=
  {| Items := [mkItem "Buy <milk> & eggs" true PriorityHigh (Some 2)
                 ["home & garden"; "work"] 1;
               NewItem 3 "Task 3"] |}.

(** January 1 of the year 10000, 00:00 UTC, in nanoseconds from the Unix
    epoch, and a task that is due then. *)
Definition year_10000 : Time := 253402300800 * 1000000000.
Definition far_task : List :=
  {| Items := [set_DueDate (Some year_10000) (NewItem 1 "Task 1")] |}.

(** One task whose text is the byte [0xFF], and the same task with U+FFFD
    for text. *)
Definition invalid_task : List := {| Items := [NewItem 1 byte_ff] |}.
Definition replaced_task : List :=
  {| Items := [NewItem 1 (gojson.EncodeRune 65533)] |}.

(** No two items of the list have the same text. *)
Definition unique_texts (l : List) : Prop := NoDup (Text <$> Items l).

(** No item of the list holds a tag twice. *)
Definition unique_tags (l : List) : Prop :=
  Forall (λ it, NoDup (Tags it)) (Items l).

(** Some item of the list is done. *)
Definition has_done (l : List) : Prop := Exists (λ it, Done it = true) (Items l).

(** The three priorities. *)
Definition is_priority (p : Priority) : Prop :=
  p = PriorityLow ∨ p = PriorityMedium ∨ p = PriorityHigh.

(** ** Sort *)

Lemma Sort_loop_spec items incomplete completed :
  Sort_loop items incomplete completed
  = (incomplete ++ incomplete_of items, completed ++ completed_of items).
Proof.
  revert incomplete completed.
  induction items as [|item rest IH]; intros incomplete completed; simpl.
  - by rewrite !app_nil_r.
  - unfold incomplete_of, completed_of in *.
    destruct (Done item) eqn:Hd; rewrite IH.
    + rewrite (filter_cons_False (λ it, Done it = false)) by congruence.
      rewrite (filter_cons_True (λ it, Done it = true)) by done.
      by rewrite <- app_assoc.
    + rewrite (filter_cons_True (λ it, Done it = false)) by done.
      rewrite (filter_cons_False (λ it, Done it = true)) by congruence.
      by rewrite <- app_assoc.
Qed.

Lemma Sort_Items l :
  Items (Sort l) = incomplete_of (Items l) ++ completed_of (Items l).
Proof. unfold Sort. by rewrite Sort_loop_spec. Qed.

Lemma incomplete_of_app xs ys :
  incomplete_of (xs ++ ys) = incomplete_of xs ++ incomplete_of ys.
Proof. apply filter_app. Qed.

Lemma completed_of_app xs ys :
  completed_of (xs ++ ys) = completed_of xs ++ completed_of ys.
Proof. apply filter_app. Qed.

Lemma incomplete_of_Forall items :
  Forall (λ it, Done it = false) (incomplete_of items).
Proof.
  apply Forall_forall. intros it Hin.
  by apply list_elem_of_filter in Hin as [? _].
Qed.

Lemma completed_of_Forall items :
  Forall (λ it, Done it = true) (completed_of items).
Proof.
  apply Forall_forall. intros it Hin.
  by apply list_elem_of_filter in Hin as [? _].
Qed.

Lemma incomplete_of_id items :
  Forall (λ it, Done it = false) items → incomplete_of items = items.
Proof.
  induction 1 as [|it items Hit _ IH]; [done|].
  unfold incomplete_of in *. rewrite filter_cons_True by done. by f_equal.
Qed.

Lemma completed_of_id items :
  Forall (λ it, Done it = true) items → completed_of items = items.
Proof.
  induction 1 as [|it items Hit _ IH]; [done|].
  unfold completed_of in *. rewrite filter_cons_True by done. by f_equal.
Qed.

Lemma incomplete_of_none items :
  Forall (λ it, Done it = true) items → incomplete_of items = [].
Proof.
  induction 1 as [|it items Hit _ IH]; [done|].
  unfold incomplete_of in *. rewrite filter_cons_False by congruence. done.
Qed.

Lemma completed_of_none items :
  Forall (λ it, Done it = false) items → completed_of items = [].
Proof.
  induction 1 as [|it items Hit _ IH]; [done|].
  unfold completed_of in *. rewrite filter_cons_False by congruence. done.
Qed.

(** The groups of a partitioned sequence are those of its two halves. *)
Lemma incomplete_of_partition inc com :
  incomplete_of (incomplete_of inc ++ completed_of com) = incomplete_of inc.
Proof.
  rewrite incomplete_of_app.
  rewrite (incomplete_of_id (incomplete_of inc)) by apply incomplete_of_Forall.
  rewrite (incomplete_of_none (completed_of com)) by apply completed_of_Forall.
  apply app_nil_r.
Qed.

Lemma completed_of_partition inc com :
  completed_of (incomplete_of inc ++ completed_of com) = completed_of com.
Proof.
  rewrite completed_of_app.
  rewrite (completed_of_none (incomplete_of inc)) by apply incomplete_of_Forall.
  by rewrite (completed_of_id (completed_of com)) by apply completed_of_Forall.
Qed.

Lemma partitioned_app inc com :
  Forall (λ it, Done it = false) inc → Forall (λ it, Done it = true) com →
  partitioned (inc ++ com).
Proof.
  intros Hinc Hcom i j a b Hij Ha Hb Hdone.
  destruct (decide (j < length inc)%nat) as [Hj|Hj].
  - rewrite lookup_app_l in Ha by lia.
    rewrite Forall_lookup in Hinc. specialize (Hinc _ _ Ha). congruence.
  - rewrite lookup_app_r in Hb by lia.
    rewrite Forall_lookup in Hcom. by apply (Hcom _ _ Hb).
Qed.

Lemma Sort_partitioned l : partitioned (Items (Sort l)).
Proof.
  rewrite Sort_Items.
  apply partitioned_app; [apply incomplete_of_Forall|apply completed_of_Forall].
Qed.

Lemma partition_Permutation items :
  incomplete_of items ++ completed_of items ≡ₚ items.
Proof.
  induction items as [|it items IH]; [done|].
  unfold incomplete_of, completed_of in *.
  destruct (Done it) eqn:Hd.
  - rewrite (filter_cons_False (λ it, Done it = false)) by congruence.
    rewrite (filter_cons_True (λ it, Done it = true)) by done.
    rewrite <- Permutation_middle. by constructor.
  - rewrite (filter_cons_True (λ it, Done it = false)) by done.
    rewrite (filter_cons_False (λ it, Done it = true)) by congruence.
    simpl. by constructor.
Qed.

(** C7. [Sort] is a total function (it has no error result) and an
    idempotent stable partition: after [Sort] the list is the incomplete
    items of the list before, in their order, followed by its completed
    items, in their order; no completed item precedes an incomplete one;
    the items are a permutation of those before; sorting twice is sorting
    once. *)
Theorem Sort_stable_partition (l : List) :
  Items (Sort l) = incomplete_of (Items l) ++ completed_of (Items l)
  ∧ partitioned (Items (Sort l))
  ∧ incomplete_of (Items (Sort l)) = incomplete_of (Items l)
  ∧ completed_of (Items (Sort l)) = completed_of (Items l)
  ∧ Items (Sort l) ≡ₚ Items l
  ∧ Sort (Sort l) = Sort l.
Proof.
  split_and!.
  - apply Sort_Items.
  - apply Sort_partitioned.
  - rewrite Sort_Items. apply incomplete_of_partition.
  - rewrite Sort_Items. apply completed_of_partition.
  - rewrite Sort_Items. apply partition_Permutation.
  - destruct (Sort (Sort l)) as [items2] eqn:H2, (Sort l) as [items1] eqn:H1.
    f_equal.
    change items2 with (Items (mkList items2)). rewrite <- H2.
    rewrite Sort_Items. simpl.
    change items1 with (Items (mkList items1)). rewrite <- H1.
    rewrite Sort_Items.
    by rewrite incomplete_of_partition, completed_of_partition.
Qed.

(** ** The index guard *)

Lemma out_of_range_false index l :
  valid_index index l → out_of_range index l = false.
Proof.
  unfold valid_index, out_of_range. intros [H0 Hlen].
  apply orb_false_intro; [by apply Z.ltb_ge|].
  rewrite Z.geb_leb. by apply Z.leb_gt.
Qed.

Lemma out_of_range_true index l :
  ¬ valid_index index l → out_of_range index l = true.
Proof.
  unfold valid_index, out_of_range. intros Hnot.
  destruct (index <? 0) eqn:H0; [done|]. simpl.
  rewrite Z.geb_leb. apply Z.leb_le. apply Z.ltb_ge in H0. lia.
Qed.

Lemma valid_index_lookup index l :
  valid_index index l → is_Some (Items l !! Z.to_nat index).
Proof.
  unfold valid_index, len. intros [H0 Hlen].
  apply lookup_lt_is_Some. lia.
Qed.

(** C2. Outside [0, len) each of the eight index-taking operations returns
    the index error and the List it was given, unchanged. *)
Theorem out_of_range_no_effect (index : Z) (l : List) :
  ¬ valid_index index l →
  Complete index l = (l, Some ErrIndex)
  ∧ Uncomplete index l = (l, Some ErrIndex)
  ∧ Delete index l = (l, Some ErrIndex)
  ∧ (∀ newText, Edit index newText l = (l, Some ErrIndex))
  ∧ (∀ priority, SetPriority index priority l = (l, Some ErrIndex))
  ∧ (∀ dueDate, SetDueDate index dueDate l = (l, Some ErrIndex))
  ∧ (∀ tag, AddTag index tag l = (l, Some ErrIndex))
  ∧ (∀ tag, RemoveTag index tag l = (l, Some ErrIndex)).
Proof.
  intros Hout. apply out_of_range_true in Hout.
  unfold Complete, Uncomplete, Delete, Edit, SetPriority, SetDueDate, AddTag,
    RemoveTag.
  rewrite Hout. by split_and!.
Qed.

Lemma out_of_range_no_effect_witness :
  Complete 3 three_tasks = (three_tasks, Some ErrIndex)
  ∧ Delete (-1) three_tasks = (three_tasks, Some ErrIndex).
Proof.
  split.
  - apply (out_of_range_no_effect 3 three_tasks).
    unfold valid_index, len. simpl. lia.
  - apply (out_of_range_no_effect (-1) three_tasks).
    unfold valid_index, len. simpl. lia.
Defined.

(** ** Complete *)

Lemma alter_middle {A} (f : A → A) (items : list A) (i : nat) (x : A) :
  items !! i = Some x →
  alter f i items = take i items ++ f x :: drop (S i) items.
Proof.
  revert i. induction items as [|y items IH]; intros [|i] Hi; try done.
  - simpl in Hi. by injection Hi as ->.
  - simpl in *. f_equal. by apply IH.
Qed.

Lemma Complete_Items index l it :
  valid_index index l →
  Items l !! Z.to_nat index = Some it →
  Items (Complete index l).1
  = incomplete_of (take (Z.to_nat index) (Items l)
                   ++ drop (S (Z.to_nat index)) (Items l))
    ++ completed_of (take (Z.to_nat index) (Items l))
    ++ set_Done true it :: completed_of (drop (S (Z.to_nat index)) (Items l)).
Proof.
  intros Hv Hit. unfold Complete. rewrite (out_of_range_false _ _ Hv). simpl.
  rewrite Sort_Items. unfold update_item. simpl.
  rewrite (alter_middle _ _ _ _ Hit).
  rewrite !incomplete_of_app, !completed_of_app.
  unfold incomplete_of at 2. unfold completed_of at 2.
  rewrite (filter_cons_False (λ it, Done it = false)) by (simpl; congruence).
  rewrite (filter_cons_True (λ it, Done it = true)) by done.
  done.
Qed.

(** What the first sentence of the Complete property says of the scenario
    of the specification fails there: after [Complete(0)] on the three
    tasks the item at index 0 is "Task 2", which is not done. *)
Lemma Complete_index_not_done :
  ∃ l', Complete 0 three_tasks = (l', None)
        ∧ Text <$> Items l' = ["Task 2"; "Task 3"; "Task 1"]
        ∧ Done <$> Items l' !! 0%nat = Some false.
Proof. eexists. split; [reflexivity|]. split; reflexivity. Qed.

(** C1, amended.  For a valid index, [Complete] succeeds; the item that was
    at the index is marked done and placed among the completed items: the
    list afterwards is the incomplete items other than it, in their order,
    then the completed items that were before it, the item itself with
    [Done = true], and the completed items that were after it.  No
    completed item precedes an incomplete one. *)
Theorem Complete_moves_item (index : Z) (l : List) :
  valid_index index l →
  ∃ (it : Item) (l' : List),
    let i := Z.to_nat index in
    let before := take i (Items l) in
    let after := drop (S i) (Items l) in
    Items l !! i = Some it
    ∧ Complete index l = (l', None)
    ∧ Items l' = incomplete_of (before ++ after)
                 ++ completed_of before
                 ++ set_Done true it :: completed_of after
    ∧ Items l' !! (length (incomplete_of (before ++ after))
                   + length (completed_of before))%nat
      = Some (set_Done true it)
    ∧ Done (set_Done true it) = true
    ∧ partitioned (Items l').
Proof.
  intros Hv. destruct (valid_index_lookup _ _ Hv) as [it Hit].
  exists it, (Complete index l).1. simpl.
  pose proof (Complete_Items _ _ _ Hv Hit) as Heq.
  split_and!; [done| |done| |done|].
  - unfold Complete. by rewrite (out_of_range_false _ _ Hv).
  - rewrite Heq, app_assoc.
    rewrite lookup_app_r by (rewrite length_app; lia).
    rewrite length_app.
    by replace (_ - _)%nat with 0%nat by lia.
  - unfold Complete. rewrite (out_of_range_false _ _ Hv). simpl.
    apply Sort_partitioned.
Qed.

Lemma Complete_moves_item_witness :
  ∃ (it : Item) (l' : List),
    Items three_tasks !! 0%nat = Some it
    ∧ Complete 0 three_tasks = (l', None)
    ∧ Items l' !! 2%nat = Some (set_Done true it).
Proof.
  destruct (Complete_moves_item 0 three_tasks) as (it & l' & H).
  { unfold valid_index, len. simpl. lia. }
  exists it, l'. simpl in H. destruct H as (H1 & H2 & H3 & H4 & H5 & H6).
  split; [exact H1|]. split; [exact H2|].
  injection H1 as <-. rewrite H3. reflexivity.
Defined.

(** ** Add *)

Lemma Add_loop_spec items item :
  Add_loop items item = bool_decide (Exists (λ it, Text it = Text item) items).
Proof.
  induction items as [|existing rest IH]; cbn [Add_loop].
  - symmetry. apply bool_decide_eq_false_2. intros H. inversion H.
  - destruct (decide (Text existing = Text item)) as [Heq|Hne].
    + rewrite (bool_decide_eq_true_2 _ Heq).
      symmetry. apply bool_decide_eq_true_2. by left.
    + rewrite (bool_decide_eq_false_2 _ Hne), IH.
      apply bool_decide_ext. rewrite Exists_cons. tauto.
Qed.

Lemma Add_eq now t l :
  Add now t l = if bool_decide (has_text t l)
                then (l, Some ErrExists)
                else ({| Items := Items l ++ [NewItem now t] |}, None).
Proof. unfold Add. by rewrite Add_loop_spec. Qed.

(** C3. [Add(t)] fails and leaves the list as it is when some item has the
    text [t]; otherwise it appends one new item with the text [t] after the
    existing items.  After any [Add(t)], a second [Add(t)] fails and leaves
    the list, hence its length, as the first one left it. *)
Theorem Add_spec (now : Time) (t : string) (l : List) :
  Add now t l = (if bool_decide (has_text t l)
                 then (l, Some ErrExists)
                 else ({| Items := Items l ++ [NewItem now t] |}, None))
  ∧ Text (NewItem now t) = t
  ∧ ∀ now', Add now' t (Add now t l).1 = ((Add now t l).1, Some ErrExists).
Proof.
  split; [apply Add_eq|]. split; [done|]. intros now'.
  rewrite (Add_eq now' t). rewrite bool_decide_eq_true_2; [done|].
  rewrite Add_eq. case_bool_decide as Hin; simpl; [done|].
  unfold has_text. simpl. apply Exists_app. right. by left.
Qed.

(** The text check of [Edit], which [Add] does not have. *)
Lemma Edit_rejects_empty_text index l :
  valid_index index l →
  Edit index "" l = (l, Some (errors_New "Task text cannot be empty")).
Proof. intros Hv. unfold Edit. by rewrite (out_of_range_false _ _ Hv). Qed.

Lemma ClearCompleted_loop_spec items incomplete count :
  ClearCompleted_loop items incomplete count
  = (incomplete ++ incomplete_of items,
     count + Z.of_nat (length (completed_of items))).
Proof.
  revert incomplete count.
  induction items as [|item rest IH]; intros incomplete count; simpl.
  - rewrite app_nil_r. f_equal. lia.
  - unfold incomplete_of, completed_of in *.
    destruct (Done item) eqn:Hd; simpl; rewrite IH.
    + rewrite (filter_cons_False (λ it, Done it = false)) by congruence.
      rewrite (filter_cons_True (λ it, Done it = true)) by done.
      f_equal. simpl. lia.
    + rewrite (filter_cons_True (λ it, Done it = false)) by done.
      rewrite (filter_cons_False (λ it, Done it = true)) by congruence.
      by rewrite <- app_assoc.
Qed.

Lemma nonempty_texts_update index f l :
  (∀ it, Text (f it) = Text it) →
  nonempty_texts l → nonempty_texts (update_item index f l).
Proof.
  intros Hf Hl. unfold nonempty_texts, update_item. simpl.
  apply Forall_alter; [done|]. intros it _. by rewrite Hf.
Qed.

Lemma nonempty_texts_Sort l : nonempty_texts l → nonempty_texts (Sort l).
Proof.
  unfold nonempty_texts. intros Hl.
  eapply Permutation_Forall; [|exact Hl].
  symmetry. rewrite Sort_Items. apply partition_Permutation.
Qed.

(** Every operation other than [Add] keeps the texts non-empty, and so
    does [Add] of a non-empty text: the empty text enters through [Add]
    only. *)
Lemma nonempty_texts_preserved l :
  nonempty_texts l →
  (∀ now text, text ≠ "" → nonempty_texts (Add now text l).1)
  ∧ (∀ index, nonempty_texts (Complete index l).1)
  ∧ (∀ index, nonempty_texts (Uncomplete index l).1)
  ∧ (∀ index, nonempty_texts (Delete index l).1)
  ∧ (∀ index text, nonempty_texts (Edit index text l).1)
  ∧ (∀ index p, nonempty_texts (SetPriority index p l).1)
  ∧ (∀ index d, nonempty_texts (SetDueDate index d l).1)
  ∧ (∀ index tag, nonempty_texts (AddTag index tag l).1)
  ∧ (∀ index tag, nonempty_texts (RemoveTag index tag l).1)
  ∧ nonempty_texts (ClearCompleted l).1
  ∧ nonempty_texts (Sort l).
Proof.
  intros Hl. split_and!.
  - intros now text Htext. rewrite Add_eq. case_bool_decide; [done|].
    unfold nonempty_texts. simpl. apply Forall_app. split; [done|].
    by repeat constructor.
  - intros index. unfold Complete. destruct (out_of_range index l); [done|].
    by apply nonempty_texts_Sort, nonempty_texts_update.
  - intros index. unfold Uncomplete. destruct (out_of_range index l); [done|].
    by apply nonempty_texts_Sort, nonempty_texts_update.
  - intros index. unfold Delete. destruct (out_of_range index l); [done|].
    unfold nonempty_texts. simpl. apply Forall_app.
    split; [by apply Forall_take|by apply Forall_drop].
  - intros index text. unfold Edit. destruct (out_of_range index l); [done|].
    case_bool_decide as Htext; [done|].
    unfold nonempty_texts, update_item. simpl.
    apply Forall_alter; [done|]. by intros it _ _.
  - intros index p. unfold SetPriority.
    destruct (out_of_range index l); [done|]. by apply nonempty_texts_update.
  - intros index d. unfold SetDueDate.
    destruct (out_of_range index l); [done|]. by apply nonempty_texts_update.
  - intros index tag. unfold AddTag.
    destruct (out_of_range index l); [done|].
    destruct (AddTag_loop _ _); [done|]. by apply nonempty_texts_update.
  - intros index tag. unfold RemoveTag.
    destruct (out_of_range index l); [done|].
    destruct (RemoveTag_loop _ _ _); [|done]. by apply nonempty_texts_update.
  - unfold ClearCompleted. rewrite ClearCompleted_loop_spec.
    unfold nonempty_texts. simpl.
    unfold incomplete_of. apply Forall_forall. intros it Hin.
    apply list_elem_of_filter in Hin as [_ Hin].
    unfold nonempty_texts in Hl. rewrite Forall_forall in Hl. by apply Hl.
  - by apply nonempty_texts_Sort.
Qed.

(** C5, at the failing input.  [Add] accepts the empty text: the list with
    one item whose text is empty is reachable from the empty list. *)
Theorem Add_accepts_empty_text (now : Time) :
  Add now "" NewList = ({| Items := [NewItem now ""] |}, None)
  ∧ reachable {| Items := [NewItem now ""] |}
  ∧ ¬ nonempty_texts {| Items := [NewItem now ""] |}.
Proof.
  split; [reflexivity|]. split;
    [|by intros [Hne _]%Forall_cons_1].
  change {| Items := [NewItem now ""] |} with (Add now "" NewList).1.
  apply reach_Add, reach_NewList.
Qed.

(** ** Selections *)

Lemma selects_app {A} (P : A → Prop) xs ys rs ss :
  selects P xs rs → selects P ys ss → selects P (xs ++ ys) (rs ++ ss).
Proof. induction 1; intros Hys; simpl; [done|by constructor; auto..]. Qed.

Lemma selects_all {A} (P : A → Prop) xs : Forall P xs → selects P xs xs.
Proof. induction 1; by constructor. Qed.

Lemma selects_unique {A} (P : A → Prop) xs rs ss :
  selects P xs rs → selects P xs ss → rs = ss.
Proof.
  intros Hrs. revert ss.
  induction Hrs as [|x xs rs Hx _ IH|x xs rs Hx _ IH]; intros ss Hss;
    inversion Hss; subst; try done.
  f_equal. by apply IH.
  by apply IH.
Qed.

Lemma selects_elem_of {A} (P : A → Prop) xs rs x :
  selects P xs rs → x ∈ rs ↔ x ∈ xs ∧ P x.
Proof.
  induction 1 as [|y xs rs Hy _ IH|y xs rs Hy _ IH].
  - split; [by intros ?%elem_of_nil|by intros [?%elem_of_nil _]].
  - rewrite !elem_of_cons, IH. split.
    + intros [->|[Hin Hx]]; [by split; [left|]|by split; [right|]].
    + intros [[->|Hin] Hx]; [by left|by right].
  - rewrite elem_of_cons, IH. split.
    + intros [Hin Hx]. by split; [right|].
    + intros [[->|Hin] Hx]; [done|by split].
Qed.

Lemma selects_sublist {A} (P : A → Prop) xs rs :
  selects P xs rs → rs `sublist_of` xs.
Proof. induction 1; by constructor. Qed.

(** ** Substrings *)

Lemma HasPrefix_spec s prefix :
  HasPrefix s prefix = true ↔ ∃ post, s = prefix +:+ post.
Proof.
  revert s. induction prefix as [|c prefix IH]; intros s; simpl.
  - split; [intros _; by exists s|done].
  - destruct s as [|d s].
    + split; [done|]. by intros [post Hpost].
    + rewrite andb_true_iff, bool_decide_eq_true, IH. split.
      * intros [-> [post ->]]. by exists post.
      * intros [post Hpost]. injection Hpost as -> ->. eauto.
Qed.

Lemma Contains_spec s sub : Contains s sub = true ↔ substring_of sub s.
Proof.
  unfold substring_of. induction s as [|c s IH].
  - cbn [Contains]. rewrite orb_false_r, HasPrefix_spec. split.
    + intros [post Hpost]. by exists EmptyString, post.
    + intros [pre [post Hs]]. destruct pre; [by exists post|done].
  - cbn [Contains]. rewrite orb_true_iff, HasPrefix_spec, IH. split.
    + intros [[post Hpost]|[pre [post ->]]].
      * by exists EmptyString, post.
      * by exists (String c pre), post.
    + intros [[|d pre] [post Hs]].
      * left. by exists post.
      * right. simpl in Hs. injection Hs as -> ->. by exists pre, post.
Qed.

Lemma Contains_empty s : Contains s "" = true.
Proof. by destruct s. Qed.

Lemma ToLower_empty unicode_ToLower : ToLower unicode_ToLower "" = "".
Proof. reflexivity. Qed.

(** ** Search *)

Section Search.

Variable unicode_ToLower : string → string.

Lemma Search_tags_spec tags q item results :
  (Search_tags (ToLower unicode_ToLower) tags (ToLower unicode_ToLower q)
     item results = results ++ [item]
   ∧ ∃ tag, tag ∈ tags ∧ ci_substring unicode_ToLower q tag)
  ∨ (Search_tags (ToLower unicode_ToLower) tags (ToLower unicode_ToLower q)
       item results = results
     ∧ ∀ tag, tag ∈ tags → ¬ ci_substring unicode_ToLower q tag).
Proof.
  induction tags as [|tag rest IH]; cbn [Search_tags].
  - right. split; [done|]. by intros tag ?%elem_of_nil.
  - destruct (Contains (ToLower unicode_ToLower tag)
                (ToLower unicode_ToLower q)) eqn:Hc.
    + left. split; [done|]. exists tag. split; [by left|].
      by apply Contains_spec.
    + destruct IH as [[Heq [t [Hin Ht]]]|[Heq Hnone]].
      * left. split; [done|]. exists t. split; [by right|done].
      * right. split; [done|]. intros t [->|Hin]%elem_of_cons.
        -- intros Ht%Contains_spec. congruence.
        -- by apply Hnone.
Qed.

Lemma Search_loop_spec items q results :
  ∃ found,
    Search_loop (ToLower unicode_ToLower) items (ToLower unicode_ToLower q)
      results = results ++ found
    ∧ selects (matches unicode_ToLower q) items found.
Proof.
  revert results. induction items as [|item rest IH]; intros results.
  - exists []. split; [by rewrite app_nil_r|constructor].
  - cbn [Search_loop].
    destruct (Contains (ToLower unicode_ToLower (Text item))
                (ToLower unicode_ToLower q)) eqn:Hc.
    + destruct (IH (results ++ [item])) as [found [Heq Hsel]].
      exists (item :: found). split.
      * by rewrite Heq, <- app_assoc.
      * constructor; [|done]. left. by apply Contains_spec.
    + destruct (Search_tags_spec (Tags item) q item results)
        as [[Htags Hex]|[Htags Hnone]]; rewrite Htags.
      * destruct (IH (results ++ [item])) as [found [Heq Hsel]].
        exists (item :: found). split.
        -- by rewrite Heq, <- app_assoc.
        -- constructor; [|done]. by right.
      * destruct (IH results) as [found [Heq Hsel]].
        exists found. split; [done|].
        apply selects_skip; [|done].
        intros [Htext%Contains_spec|[tag [Hin Htag]]].
        -- congruence.
        -- by apply (Hnone tag).
Qed.

(** C10. With the empty query every item matches on its text: [Search]
    returns all the items of the list, in list order. *)
Theorem Search_empty_query (l : List) :
  Search unicode_ToLower "" l = (l, Items l).
Proof.
  unfold Search. rewrite ToLower_empty. f_equal.
  assert (∀ items results,
    Search_loop (ToLower unicode_ToLower) items "" results
    = results ++ items) as Hloop.
  { induction items as [|item rest IH]; intros results; cbn [Search_loop].
    - by rewrite app_nil_r.
    - rewrite Contains_empty, IH. by rewrite <- app_assoc. }
  apply (Hloop (Items l) []).
Qed.

End Search.

(** The search scenario of the specification, on ASCII texts. *)
Example Search_go :
  ∀ unicode_ToLower,
    Text <$> (Search unicode_ToLower "go"
       {| Items := [NewItem 1 "Buy groceries"; NewItem 2 "Learn Go programming";
                    NewItem 3 "Write documentation"] |}).2
    = ["Learn Go programming"].
Proof. reflexivity. Qed.

(** ** GetOverdue *)

Lemma GetOverdue_loop_spec now items results :
  ∃ found, GetOverdue_loop now items results = results ++ found
           ∧ selects (overdue now) items found.
Proof.
  revert results. induction items as [|item rest IH]; intros results.
  - exists []. split; [by rewrite app_nil_r|constructor].
  - cbn [GetOverdue_loop]. unfold Before.
    destruct (DueDate item) as [due|] eqn:Hdue.
    + destruct (due <? now) eqn:Hlt; [destruct (Done item) eqn:Hdone|]; simpl.
      * destruct (IH results) as [found [Heq Hsel]]. exists found.
        split; [done|]. apply selects_skip; [|done].
        intros (d & _ & _ & ?). congruence.
      * destruct (IH (results ++ [item])) as [found [Heq Hsel]].
        exists (item :: found). split; [by rewrite Heq, <- app_assoc|].
        constructor; [|done]. exists due. split_and!; [done| |done].
        by apply Z.ltb_lt.
      * destruct (IH results) as [found [Heq Hsel]]. exists found.
        split; [done|]. apply selects_skip; [|done].
        intros (d & Hd & Hlt' & _). apply Z.ltb_ge in Hlt.
        assert (d = due) by congruence. lia.
    + destruct (IH results) as [found [Heq Hsel]]. exists found.
      split; [done|]. apply selects_skip; [|done].
      intros (d & Hd & _). congruence.
Qed.

(** C9. [GetOverdue] returns the list as it is; its results are the items
    of the list that have a due date strictly before the current instant
    and are not done, in list order.  So no result is done and no result
    lacks a due date. *)
Theorem GetOverdue_spec (now : Time) (l : List) :
  ∃ results,
    GetOverdue now l = (l, results)
    ∧ selects (overdue now) (Items l) results
    ∧ (∀ it, it ∈ results ↔ it ∈ Items l ∧ overdue now it)
    ∧ ∀ it, it ∈ results → Done it = false ∧ is_Some (DueDate it).
Proof.
  destruct (GetOverdue_loop_spec now (Items l) []) as [found [Heq Hsel]].
  exists found. split_and!.
  - unfold GetOverdue. by rewrite Heq.
  - done.
  - intros it. by eapply selects_elem_of.
  - intros it Hin. eapply selects_elem_of in Hin as [_ Hov]; [|done].
    destruct Hov as (due & Hdue & _ & Hdone). split; [done|by exists due].
Qed.

(** ** Save and Load *)

Lemma os_ReadFile_WriteFile {Data} name (data : Data) fs fs' :
  os_WriteFile name data fs = (fs', None) →
  name ∉ unreadable fs →
  os_ReadFile name fs' = inl data.
Proof.
  unfold os_WriteFile, os_ReadFile. intros Hw Hr.
  case_bool_decide; [done|]. injection Hw as <-. simpl.
  rewrite bool_decide_eq_false_2 by done.
  by rewrite lookup_insert_eq.
Qed.

Lemma Load_unmarshal {Data} (unmarshal : Data → List → List * option error)
    filename l fs data :
  os_ReadFile filename fs = inl data →
  Load unmarshal filename l fs = unmarshal data l.
Proof. intros Hr. unfold Load. by rewrite Hr. Qed.

Lemma same_items_refl l : same_items l l.
Proof.
  apply Forall2_same_length_lookup_2; [done|]. intros i a b Ha Hb.
  by assert (a = b) as -> by congruence.
Qed.

(** [Load] of well-formed JSON that does not fit a List returns the
    decoder's error and leaves in the List what was decoded: the empty List
    has two items afterwards. *)
Lemma Load_wrong_shape_mutates :
  os_ReadFile "todos.json" fs_wrong_shape = inl wrong_shape
  ∧ (∀ time_Parse unicode_fold,
       Load (gojson.Unmarshal time_Parse unicode_fold) "todos.json" NewList
         fs_wrong_shape
       = ({| Items := [set_Text "a" gojson.Item_zero; gojson.Item_zero] |},
          Some (UnmarshalTypeError "number")))
  ∧ {| Items := [set_Text "a" gojson.Item_zero; gojson.Item_zero] |} ≠ NewList.
Proof. split; [reflexivity|]. split; [intros; reflexivity|done]. Qed.

(** C6, amended.  [Load] of a file that can be read returns what the
    decoder returns for its contents and the live List: the decoder's error,
    and the List as the decoder has left it.  When the contents are not
    well-formed JSON the error is a syntax error and the List is exactly as
    it was before the call. *)
Theorem Load_decode_error (time_Parse : string → option Time)
    (unicode_fold : string → string)
    (filename : string) (l : List) (fs : FS string) (data : string) :
  os_ReadFile filename fs = inl data →
  Load (gojson.Unmarshal time_Parse unicode_fold) filename l fs
  = gojson.Unmarshal time_Parse unicode_fold data l
  ∧ (gojson.checkValid data = None →
     Load (gojson.Unmarshal time_Parse unicode_fold) filename l fs
     = (l, Some SyntaxError)).
Proof.
  intros Hr. split; [by apply Load_unmarshal|].
  intros Hbad. rewrite (Load_unmarshal _ _ _ _ _ Hr).
  unfold gojson.Unmarshal. by rewrite Hbad.
Qed.

Lemma Load_decode_error_witness :
  Load (gojson.Unmarshal (λ _, None) id) "todos.json" three_tasks fs_not_json
  = (three_tasks, Some SyntaxError).
Proof.
  apply (Load_decode_error (λ _, None) id "todos.json" three_tasks fs_not_json
           "invalid json content {{{"); reflexivity.
Defined.

(** * Further properties of the operations *)

(** ** Delete *)

Lemma valid_index_nat index l :
  valid_index index l → (Z.to_nat index < length (Items l))%nat.
Proof. unfold valid_index, len. lia. Qed.

(** [Delete] at a valid index removes the item at that position and no
    other: the list is one shorter, the items before the index stay where
    they are, and each item after it moves one position down. *)
Theorem Delete_removes_item (index : Z) (l : List) :
  valid_index index l →
  ∃ l',
    Delete index l = (l', None)
    ∧ S (length (Items l')) = length (Items l)
    ∧ (∀ j, (j < Z.to_nat index)%nat → Items l' !! j = Items l !! j)
    ∧ (∀ j, (Z.to_nat index ≤ j)%nat → Items l' !! j = Items l !! S j).
Proof.
  intros Hv. pose proof (valid_index_nat _ _ Hv) as Hlt.
  unfold Delete. rewrite (out_of_range_false _ _ Hv).
  eexists. split; [reflexivity|]. simpl.
  replace (Z.to_nat (index + 1)) with (S (Z.to_nat index))
    by (destruct Hv; lia).
  split_and!.
  - rewrite length_app, length_take, length_drop. lia.
  - intros j Hj. rewrite lookup_app_l by (rewrite length_take; lia).
    by apply lookup_take_lt.
  - intros j Hj. rewrite lookup_app_r by (rewrite length_take; lia).
    rewrite length_take, lookup_drop. f_equal. lia.
Qed.

Lemma Delete_removes_item_witness :
  ∃ l', Delete 1 three_tasks = (l', None)
        ∧ Items l' !! 1%nat = Items three_tasks !! 2%nat.
Proof.
  destruct (Delete_removes_item 1 three_tasks) as (l' & Hd & _ & _ & Hafter).
  { unfold valid_index, len. simpl. lia. }
  exists l'. split; [exact Hd|]. apply (Hafter 1%nat). simpl. lia.
Defined.

(** [Add] followed by [Delete] of the last position gives the list back. *)
Theorem Add_then_Delete (now : Time) (t : string) (l l' : List) :
  Add now t l = (l', None) → Delete (len l) l' = (l, None).
Proof.
  rewrite Add_eq. case_bool_decide; [done|]. intros [= <-].
  unfold Delete, out_of_range, len. simpl. rewrite length_app. simpl.
  replace (_ <? 0) with false by (symmetry; apply Z.ltb_ge; lia).
  replace (_ >=? _) with false
    by (symmetry; rewrite Z.geb_leb; apply Z.leb_gt; lia).
  simpl. destruct l as [items]. simpl. f_equal. f_equal.
  rewrite Nat2Z.id.
  replace (Z.to_nat (Z.of_nat (length items) + 1)) with (S (length items))
    by lia.
  rewrite take_app_length.
  rewrite drop_ge by (rewrite length_app; simpl; lia).
  apply app_nil_r.
Qed.

Lemma Add_then_Delete_witness :
  Delete 3 (Add 4 "Task 4" three_tasks).1 = (three_tasks, None).
Proof.
  apply (Add_then_Delete 4 "Task 4" three_tasks (Add 4 "Task 4" three_tasks).1).
  reflexivity.
Defined.

(** ** Sort, Complete and Uncomplete on partitioned lists *)

Lemma partitioned_cons_inv it items :
  partitioned (it :: items) → partitioned items.
Proof.
  intros Hp i j a b Hij Ha Hb. apply (Hp (S i) (S j) a b); [lia|done|done].
Qed.

Lemma partitioned_done_head it items :
  partitioned (it :: items) → Done it = true →
  Forall (λ x, Done x = true) items.
Proof.
  intros Hp Hd. apply Forall_lookup. intros j b Hb.
  apply (Hp 0%nat (S j) it b); [lia|done|done|done].
Qed.

Lemma partitioned_split items :
  partitioned items → incomplete_of items ++ completed_of items = items.
Proof.
  induction items as [|it items IH]; intros Hp; [done|].
  destruct (Done it) eqn:Hd.
  - pose proof (partitioned_done_head _ _ Hp Hd) as Hall.
    assert (Forall (λ x, Done x = true) (it :: items)) as Hall'
      by by constructor.
    by rewrite (incomplete_of_none _ Hall'), (completed_of_id _ Hall').
  - unfold incomplete_of, completed_of in *.
    rewrite (filter_cons_True (λ x, Done x = false)) by done.
    rewrite (filter_cons_False (λ x, Done x = true)) by congruence.
    simpl. f_equal. apply IH. by eapply partitioned_cons_inv.
Qed.

Lemma Sort_partitioned_id l : partitioned (Items l) → Sort l = l.
Proof.
  intros Hp. destruct l as [items]. simpl in Hp.
  pose proof (Sort_Items (mkList items)) as Hs. simpl in Hs.
  rewrite (partitioned_split _ Hp) in Hs.
  destruct (Sort (mkList items)) as [items']. simpl in Hs. by subst.
Qed.

(** [Sort] leaves a list as it is exactly when no completed item of the
    list precedes an incomplete one. *)
Theorem Sort_fixed_point (l : List) : Sort l = l ↔ partitioned (Items l).
Proof.
  split.
  - intros Heq. rewrite <- Heq. apply Sort_partitioned.
  - apply Sort_partitioned_id.
Qed.

Lemma set_Done_same it : set_Done (Done it) it = it.
Proof. by destruct it. Qed.

Lemma alter_same {A} (f : A → A) (items : list A) (i : nat) (x : A) :
  items !! i = Some x → f x = x → alter f i items = items.
Proof.
  intros Hi Hf. rewrite (alter_middle _ _ _ _ Hi), Hf.
  by apply take_drop_middle.
Qed.

(** On a list where no completed item precedes an incomplete one,
    [Complete] of an item that is already done changes nothing. *)
Theorem Complete_done_item (index : Z) (l : List) (it : Item) :
  partitioned (Items l) →
  Items l !! Z.to_nat index = Some it →
  0 ≤ index →
  Done it = true →
  Complete index l = (l, None).
Proof.
  intros Hp Hit H0 Hd.
  assert (valid_index index l) as Hv.
  { apply lookup_lt_Some in Hit. unfold valid_index, len. lia. }
  unfold Complete. rewrite (out_of_range_false _ _ Hv). f_equal.
  assert (update_item index (set_Done true) l = l) as ->.
  { unfold update_item. destruct l as [items]. simpl in *. f_equal.
    apply (alter_same _ _ _ it); [done|]. rewrite <- Hd. apply set_Done_same. }
  by apply Sort_partitioned_id.
Qed.

Lemma Complete_done_item_witness :
  Complete 2 (Complete 0 three_tasks).1 = ((Complete 0 three_tasks).1, None).
Proof.
  apply (Complete_done_item 2 (Complete 0 three_tasks).1
           (set_Done true (NewItem 1 "Task 1"))).
  - apply Sort_partitioned.
  - reflexivity.
  - lia.
  - reflexivity.
Defined.

(** [Uncomplete] at a valid index succeeds; the item that was at the index
    has [Done = false] afterwards and sits among the incomplete items, at
    the place its position in the list gives it: the list afterwards is the
    incomplete items that were before it, the item itself, the incomplete
    items that were after it, and then the completed items other than it,
    in their order. *)
Theorem Uncomplete_moves_item (index : Z) (l : List) :
  valid_index index l →
  ∃ (it : Item) (l' : List),
    let i := Z.to_nat index in
    let before := take i (Items l) in
    let after := drop (S i) (Items l) in
    Items l !! i = Some it
    ∧ Uncomplete index l = (l', None)
    ∧ Items l' = incomplete_of before
                 ++ set_Done false it :: incomplete_of after
                 ++ completed_of (before ++ after)
    ∧ Items l' !! length (incomplete_of before) = Some (set_Done false it)
    ∧ partitioned (Items l').
Proof.
  intros Hv. destruct (valid_index_lookup _ _ Hv) as [it Hit].
  exists it, (Uncomplete index l).1. simpl.
  assert (Items (Uncomplete index l).1
          = incomplete_of (take (Z.to_nat index) (Items l))
            ++ set_Done false it
               :: incomplete_of (drop (S (Z.to_nat index)) (Items l))
            ++ completed_of (take (Z.to_nat index) (Items l)
                             ++ drop (S (Z.to_nat index)) (Items l))) as Heq.
  { unfold Uncomplete. rewrite (out_of_range_false _ _ Hv). simpl.
    rewrite Sort_Items. unfold update_item. simpl.
    rewrite (alter_middle _ _ _ _ Hit).
    rewrite !incomplete_of_app, !completed_of_app.
    unfold incomplete_of at 2. unfold completed_of at 2.
    rewrite (filter_cons_True (λ it, Done it = false)) by done.
    rewrite (filter_cons_False (λ it, Done it = true)) by done.
    by rewrite <- !app_assoc. }
  split_and!; [done| |done| |].
  - unfold Uncomplete. by rewrite (out_of_range_false _ _ Hv).
  - rewrite Heq. rewrite lookup_app_r by lia.
    by replace (_ - _)%nat with 0%nat by lia.
  - unfold Uncomplete. rewrite (out_of_range_false _ _ Hv). simpl.
    apply Sort_partitioned.
Qed.

Lemma Uncomplete_moves_item_witness :
  ∃ (it : Item) (l' : List),
    Items (Complete 0 three_tasks).1 !! 2%nat = Some it
    ∧ Uncomplete 2 (Complete 0 three_tasks).1 = (l', None)
    ∧ Items l' !! 2%nat = Some (set_Done false it).
Proof.
  destruct (Uncomplete_moves_item 2 (Complete 0 three_tasks).1)
    as (it & l' & H).
  { unfold valid_index, len. simpl. lia. }
  exists it, l'. simpl in H. destruct H as (H1 & H2 & H3 & H4 & H5).
  split; [exact H1|]. split; [exact H2|]. exact H4.
Defined.

(** [Add] does not sort: appending a new item to a list that has a done
    item leaves a completed item before an incomplete one. *)
Theorem Add_breaks_partition (now : Time) (t : string) (l : List) :
  has_done l → ¬ has_text t l →
  ∃ l', Add now t l = (l', None) ∧ ¬ partitioned (Items l').
Proof.
  intros Hdone Hfresh. rewrite Add_eq.
  rewrite bool_decide_eq_false_2 by done.
  eexists. split; [reflexivity|]. simpl. intros Hp.
  unfold has_done in Hdone. apply Exists_exists in Hdone as (a & Hin & Ha).
  apply list_elem_of_lookup in Hin as [i Hi].
  pose proof (lookup_lt_Some _ _ _ Hi) as Hlt.
  assert (Done (NewItem now t) = true) as Hbad; [|done].
  apply (Hp i (length (Items l)) a (NewItem now t)); [done| | |done].
  - by rewrite lookup_app_l.
  - rewrite lookup_app_r by lia. by rewrite Nat.sub_diag.
Qed.

Lemma Add_breaks_partition_witness :
  ∃ l', Add 4 "Task 4" (Complete 0 three_tasks).1 = (l', None)
        ∧ ¬ partitioned (Items l').
Proof.
  apply (Add_breaks_partition 4 "Task 4" (Complete 0 three_tasks).1).
  - unfold has_done. simpl. do 2 apply Exists_cons_tl. by apply Exists_cons_hd.
  - unfold has_text. simpl. intros H.
    repeat (apply Exists_cons in H as [H|H]; [discriminate H|]).
    by apply Exists_nil in H.
Defined.

(** ** Edit *)

Lemma update_item_lookup index f l it :
  valid_index index l →
  Items l !! Z.to_nat index = Some it →
  length (Items (update_item index f l)) = length (Items l)
  ∧ Items (update_item index f l) !! Z.to_nat index = Some (f it)
  ∧ ∀ j, j ≠ Z.to_nat index →
         Items (update_item index f l) !! j = Items l !! j.
Proof.
  intros Hv Hit. unfold update_item. simpl. split_and!.
  - apply length_alter.
  - by rewrite list_lookup_alter_eq, Hit.
  - intros j Hj. by apply list_lookup_alter_ne.
Qed.

(** [Edit] at a valid index with a non-empty text succeeds, whether or not
    another item has that text: the item keeps its position and its other
    fields and gets the new text; every other item is as it was. *)
Theorem Edit_replaces_text (index : Z) (newText : string) (l : List) :
  valid_index index l → newText ≠ "" →
  ∃ (it : Item) (l' : List),
    Items l !! Z.to_nat index = Some it
    ∧ Edit index newText l = (l', None)
    ∧ length (Items l') = length (Items l)
    ∧ Items l' !! Z.to_nat index = Some (set_Text newText it)
    ∧ ∀ j, j ≠ Z.to_nat index → Items l' !! j = Items l !! j.
Proof.
  intros Hv Hne. destruct (valid_index_lookup _ _ Hv) as [it Hit].
  exists it, (update_item index (set_Text newText) l).
  destruct (update_item_lookup index (set_Text newText) l it Hv Hit)
    as (Hlen & Hat & Hother).
  split_and!; try done.
  unfold Edit. rewrite (out_of_range_false _ _ Hv).
  by rewrite bool_decide_eq_false_2.
Qed.

Lemma Edit_replaces_text_witness :
  ∃ (it : Item) (l' : List),
    Edit 1 "Task two" three_tasks = (l', None)
    ∧ Items l' !! 1%nat = Some (set_Text "Task two" it).
Proof.
  destruct (Edit_replaces_text 1 "Task two" three_tasks)
    as (it & l' & _ & He & _ & Hat & _).
  - unfold valid_index, len. simpl. lia.
  - discriminate.
  - exists it, l'. split; [exact He|exact Hat].
Defined.

(** [Edit] does not check for duplicates: giving an item the non-empty
    text of an item at another position succeeds and leaves two items with
    the same text. *)
Theorem Edit_makes_duplicate (index : Z) (j : nat) (other : Item) (l : List) :
  valid_index index l →
  Items l !! j = Some other → j ≠ Z.to_nat index → Text other ≠ "" →
  ∃ l', Edit index (Text other) l = (l', None) ∧ ¬ unique_texts l'.
Proof.
  intros Hv Hj Hne Htext. destruct (valid_index_lookup _ _ Hv) as [it Hit].
  destruct (update_item_lookup index (set_Text (Text other)) l it Hv Hit)
    as (Hlen & Hat & Hother).
  exists (update_item index (set_Text (Text other)) l). split.
  - unfold Edit. rewrite (out_of_range_false _ _ Hv).
    by rewrite bool_decide_eq_false_2.
  - unfold unique_texts. intros Hnd.
    apply (NoDup_lookup _ (Z.to_nat index) j (Text other)) in Hnd; [congruence| |].
    + by rewrite list_lookup_fmap, Hat.
    + by rewrite list_lookup_fmap, Hother, Hj.
Qed.

Lemma Edit_makes_duplicate_witness :
  ∃ l', Edit 0 "Task 2" three_tasks = (l', None) ∧ ¬ unique_texts l'.
Proof.
  apply (Edit_makes_duplicate 0 1 (NewItem 2 "Task 2") three_tasks).
  - unfold valid_index, len. simpl. lia.
  - reflexivity.
  - discriminate.
  - discriminate.
Defined.

(** ** Uniqueness of texts *)

Lemma unique_texts_update index f l :
  (∀ it, Text (f it) = Text it) →
  unique_texts l → unique_texts (update_item index f l).
Proof.
  intros Hf. unfold unique_texts, update_item. simpl.
  assert (Text <$> alter f (Z.to_nat index) (Items l) = Text <$> Items l)
    as ->; [|done].
  apply list_eq. intros j. rewrite !list_lookup_fmap.
  destruct (decide (j = Z.to_nat index)) as [->|Hj].
  - rewrite list_lookup_alter_eq.
    destruct (Items l !! Z.to_nat index); [|done]. simpl. by rewrite Hf.
  - by rewrite list_lookup_alter_ne.
Qed.

Lemma unique_texts_Sort l : unique_texts l → unique_texts (Sort l).
Proof.
  unfold unique_texts. intros Hl.
  assert (Text <$> Items (Sort l) ≡ₚ Text <$> Items l) as ->; [|done].
  apply fmap_Permutation. rewrite Sort_Items. apply partition_Permutation.
Qed.

Lemma take_drop_sublist {A} (l : list A) (n m : nat) :
  (n ≤ m)%nat → take n l ++ drop m l `sublist_of` l.
Proof.
  intros Hnm. transitivity (take n l ++ drop n l); [|by rewrite take_drop].
  apply sublist_app; [done|].
  replace m with (n + (m - n))%nat by lia.
  rewrite <- drop_drop. apply sublist_drop.
Qed.

Lemma unique_texts_sublist l items :
  items `sublist_of` Items l → unique_texts l → unique_texts (mkList items).
Proof.
  unfold unique_texts. simpl. intros Hsub.
  intros Hnd. eapply sublist_NoDup; [exact Hnd|]. by apply fmap_sublist.
Qed.

(** Every operation other than [Edit] keeps the texts of a list pairwise
    different. *)
Theorem unique_texts_preserved (l : List) :
  unique_texts l →
  (∀ now text, unique_texts (Add now text l).1)
  ∧ (∀ index, unique_texts (Complete index l).1)
  ∧ (∀ index, unique_texts (Uncomplete index l).1)
  ∧ (∀ index, unique_texts (Delete index l).1)
  ∧ (∀ index p, unique_texts (SetPriority index p l).1)
  ∧ (∀ index d, unique_texts (SetDueDate index d l).1)
  ∧ (∀ index tag, unique_texts (AddTag index tag l).1)
  ∧ (∀ index tag, unique_texts (RemoveTag index tag l).1)
  ∧ unique_texts (ClearCompleted l).1
  ∧ unique_texts (Sort l).
Proof.
  intros Hl. split_and!.
  - intros now text. rewrite Add_eq. case_bool_decide as Hin; [done|].
    unfold unique_texts. simpl. rewrite fmap_app. simpl.
    apply NoDup_app. split_and!; [done| |apply NoDup_singleton].
    intros t Ht ->%list_elem_of_singleton. apply Hin.
    apply list_elem_of_fmap in Ht as (it & -> & Hit).
    unfold has_text. apply Exists_exists. by exists it.
  - intros index. unfold Complete. destruct (out_of_range index l); [done|].
    by apply unique_texts_Sort, unique_texts_update.
  - intros index. unfold Uncomplete. destruct (out_of_range index l); [done|].
    by apply unique_texts_Sort, unique_texts_update.
  - intros index. unfold Delete. destruct (out_of_range index l); [done|].
    simpl. apply (unique_texts_sublist l); [|done].
    apply take_drop_sublist. lia.
  - intros index p. unfold SetPriority.
    destruct (out_of_range index l); [done|]. by apply unique_texts_update.
  - intros index d. unfold SetDueDate.
    destruct (out_of_range index l); [done|]. by apply unique_texts_update.
  - intros index tag. unfold AddTag.
    destruct (out_of_range index l); [done|].
    destruct (AddTag_loop _ _); [done|]. by apply unique_texts_update.
  - intros index tag. unfold RemoveTag.
    destruct (out_of_range index l); [done|].
    destruct (RemoveTag_loop _ _ _); [|done]. by apply unique_texts_update.
  - unfold ClearCompleted. rewrite ClearCompleted_loop_spec. simpl.
    apply (unique_texts_sublist l); [|done]. apply sublist_filter.
  - by apply unique_texts_Sort.
Qed.

Lemma unique_texts_preserved_witness :
  unique_texts (Add 4 "Task 4" three_tasks).1.
Proof.
  apply (unique_texts_preserved three_tasks).
  unfold unique_texts. simpl.
  repeat (apply NoDup_cons; split;
          [intros H; repeat (apply elem_of_cons in H as [H|H];
                             [discriminate H|]);
           by apply elem_of_nil in H|]).
  apply NoDup_nil_2.
Defined.

(** ** ClearCompleted and GetStats *)

Lemma partition_length items :
  (length (incomplete_of items) + length (completed_of items))%nat
  = length items.
Proof.
  rewrite <- length_app. apply Permutation_length, partition_Permutation.
Qed.

(** [ClearCompleted] keeps the incomplete items, in their order, and returns
    the number of completed items; the items kept and the number returned
    add up to the length before; a second [ClearCompleted] finds nothing to
    remove. *)
Theorem ClearCompleted_removes_done (l : List) :
  ∃ (l' : List) (count : Z),
    ClearCompleted l = (l', count)
    ∧ Items l' = incomplete_of (Items l)
    ∧ count = Z.of_nat (length (completed_of (Items l)))
    ∧ len l' + count = len l
    ∧ ClearCompleted l' = (l', 0).
Proof.
  exists (mkList (incomplete_of (Items l))),
         (Z.of_nat (length (completed_of (Items l)))).
  unfold ClearCompleted. rewrite !ClearCompleted_loop_spec. simpl.
  split_and!; try done.
  - unfold len. simpl. rewrite <- (partition_length (Items l)). lia.
  - rewrite (incomplete_of_id (incomplete_of (Items l)))
      by apply incomplete_of_Forall.
    by rewrite (completed_of_none (incomplete_of (Items l)))
      by apply incomplete_of_Forall.
Qed.

Lemma GetStats_loop_spec items stats :
  GetStats_loop items stats
  = mkStats (Total stats)
      (Completed stats + Z.of_nat (length (completed_of items)))
      (Pending stats + Z.of_nat (length (incomplete_of items))).
Proof.
  revert stats. induction items as [|item rest IH]; intros stats; simpl.
  - destruct stats. simpl. f_equal; lia.
  - unfold incomplete_of, completed_of in *.
    destruct (Done item) eqn:Hd; rewrite IH; simpl.
    + rewrite (filter_cons_False (λ it, Done it = false)) by congruence.
      rewrite (filter_cons_True (λ it, Done it = true)) by done.
      simpl. f_equal; lia.
    + rewrite (filter_cons_True (λ it, Done it = false)) by done.
      rewrite (filter_cons_False (λ it, Done it = true)) by congruence.
      simpl. f_equal; lia.
Qed.

(** [GetStats] returns the list as it is; [Total] is the length of the
    list, [Completed] the number of done items, [Pending] the number of the
    others, and [Total] is their sum. *)
Theorem GetStats_counts (l : List) :
  ∃ stats,
    GetStats l = (l, stats)
    ∧ Total stats = len l
    ∧ Completed stats = Z.of_nat (length (completed_of (Items l)))
    ∧ Pending stats = Z.of_nat (length (incomplete_of (Items l)))
    ∧ Total stats = Completed stats + Pending stats.
Proof.
  eexists. split; [reflexivity|]. rewrite GetStats_loop_spec. simpl.
  split_and!; try done.
  unfold len. rewrite <- (partition_length (Items l)). lia.
Qed.

(** [ClearCompleted] returns the [Completed] count of [GetStats]; after it
    [GetStats] counts no completed item and as many pending items as
    before, which is then the total. *)
Theorem GetStats_after_ClearCompleted (l : List) :
  (ClearCompleted l).2 = Completed (GetStats l).2
  ∧ Completed (GetStats (ClearCompleted l).1).2 = 0
  ∧ Pending (GetStats (ClearCompleted l).1).2 = Pending (GetStats l).2
  ∧ Total (GetStats (ClearCompleted l).1).2 = Pending (GetStats l).2.
Proof.
  unfold ClearCompleted, GetStats. rewrite ClearCompleted_loop_spec. simpl.
  rewrite !GetStats_loop_spec. simpl.
  rewrite (incomplete_of_id (incomplete_of (Items l)))
    by apply incomplete_of_Forall.
  rewrite (completed_of_none (incomplete_of (Items l)))
    by apply incomplete_of_Forall.
  by split_and!.
Qed.

(** ** FilterByPriority and FilterByTag *)

Lemma FilterByPriority_loop_spec priority items results :
  ∃ found,
    FilterByPriority_loop priority items results = results ++ found
    ∧ selects (λ it, Item_Priority it = priority) items found.
Proof.
  revert results. induction items as [|item rest IH]; intros results.
  - exists []. split; [by rewrite app_nil_r|constructor].
  - cbn [FilterByPriority_loop].
    destruct (decide (Item_Priority item = priority)) as [Heq|Hne].
    + rewrite (bool_decide_eq_true_2 _ Heq).
      destruct (IH (results ++ [item])) as [found [Hf Hsel]].
      exists (item :: found). split; [by rewrite Hf, <- app_assoc|].
      by constructor.
    + rewrite (bool_decide_eq_false_2 _ Hne).
      destruct (IH results) as [found [Hf Hsel]].
      exists found. split; [done|]. by apply selects_skip.
Qed.

(** [FilterByPriority] returns the list as it is; its results are the
    items whose priority is the given one, in list order. *)
Theorem FilterByPriority_spec (priority : Priority) (l : List) :
  ∃ results,
    FilterByPriority priority l = (l, results)
    ∧ selects (λ it, Item_Priority it = priority) (Items l) results
    ∧ ∀ it, it ∈ results ↔ it ∈ Items l ∧ Item_Priority it = priority.
Proof.
  destruct (FilterByPriority_loop_spec priority (Items l) [])
    as [found [Hf Hsel]].
  exists found. split_and!.
  - unfold FilterByPriority. by rewrite Hf.
  - done.
  - intros it. apply (selects_elem_of _ _ _ _ Hsel).
Qed.

Lemma FilterByTag_tags_spec tags tag item results :
  FilterByTag_tags tags tag item results
  = if bool_decide (tag ∈ tags) then results ++ [item] else results.
Proof.
  induction tags as [|t rest IH]; cbn [FilterByTag_tags].
  - rewrite bool_decide_eq_false_2; [done|]. by intros ?%elem_of_nil.
  - destruct (decide (t = tag)) as [->|Hne].
    + rewrite (bool_decide_eq_true_2 (tag = tag)) by done.
      rewrite bool_decide_eq_true_2; [done|by left].
    + rewrite (bool_decide_eq_false_2 _ Hne), IH.
      destruct (decide (tag ∈ rest)) as [Hin|Hnin].
      * rewrite (bool_decide_eq_true_2 _ Hin).
        rewrite bool_decide_eq_true_2; [done|by right].
      * rewrite (bool_decide_eq_false_2 _ Hnin).
        rewrite bool_decide_eq_false_2; [done|].
        intros [->|Hin]%elem_of_cons; done.
Qed.

Lemma FilterByTag_loop_spec tag items results :
  ∃ found,
    FilterByTag_loop tag items results = results ++ found
    ∧ selects (λ it, tag ∈ Tags it) items found.
Proof.
  revert results. induction items as [|item rest IH]; intros results.
  - exists []. split; [by rewrite app_nil_r|constructor].
  - cbn [FilterByTag_loop]. rewrite FilterByTag_tags_spec.
    case_bool_decide as Hin.
    + destruct (IH (results ++ [item])) as [found [Hf Hsel]].
      exists (item :: found). split; [by rewrite Hf, <- app_assoc|].
      by constructor.
    + destruct (IH results) as [found [Hf Hsel]].
      exists found. split; [done|]. by apply selects_skip.
Qed.

(** [FilterByTag] returns the list as it is; its results are the items
    that hold a tag equal to the given one, byte for byte, in list order,
    each position kept at most once. *)
Theorem FilterByTag_spec (tag : string) (l : List) :
  ∃ results,
    FilterByTag tag l = (l, results)
    ∧ selects (λ it, tag ∈ Tags it) (Items l) results
    ∧ ∀ it, it ∈ results ↔ it ∈ Items l ∧ tag ∈ Tags it.
Proof.
  destruct (FilterByTag_loop_spec tag (Items l) []) as [found [Hf Hsel]].
  exists found. split_and!.
  - unfold FilterByTag. by rewrite Hf.
  - done.
  - intros it. apply (selects_elem_of _ _ _ _ Hsel).
Qed.

(** ** SetPriority and SetDueDate *)

(** [SetPriority] at a valid index succeeds; the item keeps its position
    and its other fields, every other item is as it was, and the item is
    among the results of [FilterByPriority] for the new priority. *)
Theorem SetPriority_then_Filter (index : Z) (priority : Priority) (l : List) :
  valid_index index l →
  ∃ (it : Item) (l' : List),
    Items l !! Z.to_nat index = Some it
    ∧ SetPriority index priority l = (l', None)
    ∧ Items l' !! Z.to_nat index = Some (set_Priority priority it)
    ∧ (∀ j, j ≠ Z.to_nat index → Items l' !! j = Items l !! j)
    ∧ set_Priority priority it ∈ (FilterByPriority priority l').2.
Proof.
  intros Hv. destruct (valid_index_lookup _ _ Hv) as [it Hit].
  exists it, (update_item index (set_Priority priority) l).
  destruct (update_item_lookup index (set_Priority priority) l it Hv Hit)
    as (Hlen & Hat & Hother).
  split_and!; try done.
  - unfold SetPriority. by rewrite (out_of_range_false _ _ Hv).
  - unfold FilterByPriority. cbn [snd].
    destruct (FilterByPriority_loop_spec priority
                (Items (update_item index (set_Priority priority) l)) [])
      as [found [Hf Hsel]].
    rewrite Hf. simpl. apply (selects_elem_of _ _ _ _ Hsel).
    split; [|done]. apply list_elem_of_lookup. eauto.
Qed.

Lemma SetPriority_then_Filter_witness :
  ∃ (it : Item) (l' : List),
    SetPriority 1 PriorityHigh three_tasks = (l', None)
    ∧ set_Priority PriorityHigh it ∈ (FilterByPriority PriorityHigh l').2.
Proof.
  destruct (SetPriority_then_Filter 1 PriorityHigh three_tasks)
    as (it & l' & _ & Hs & _ & _ & Hin).
  - unfold valid_index, len. simpl. lia.
  - exists it, l'. split; [exact Hs|exact Hin].
Defined.

(** [SetDueDate] at a valid index succeeds; the item keeps its position
    and its other fields, every other item is as it was, and the item is
    among the results of [GetOverdue] exactly when the new date is before
    the current instant and the item is not done. *)
Theorem SetDueDate_then_GetOverdue (index : Z) (dueDate : Time) (l : List) :
  valid_index index l →
  ∃ (it : Item) (l' : List),
    Items l !! Z.to_nat index = Some it
    ∧ SetDueDate index dueDate l = (l', None)
    ∧ Items l' !! Z.to_nat index = Some (set_DueDate (Some dueDate) it)
    ∧ (∀ j, j ≠ Z.to_nat index → Items l' !! j = Items l !! j)
    ∧ ∀ now, set_DueDate (Some dueDate) it ∈ (GetOverdue now l').2
             ↔ dueDate < now ∧ Done it = false.
Proof.
  intros Hv. destruct (valid_index_lookup _ _ Hv) as [it Hit].
  exists it, (update_item index (set_DueDate (Some dueDate)) l).
  destruct (update_item_lookup index (set_DueDate (Some dueDate)) l it Hv Hit)
    as (Hlen & Hat & Hother).
  split_and!; try done.
  - unfold SetDueDate. by rewrite (out_of_range_false _ _ Hv).
  - intros now. unfold GetOverdue. cbn [snd].
    destruct (GetOverdue_loop_spec now
                (Items (update_item index (set_DueDate (Some dueDate)) l)) [])
      as [found [Hf Hsel]].
    rewrite Hf. simpl. rewrite (selects_elem_of _ _ _ _ Hsel). split.
    + intros [_ (due & Hdue & Hlt & Hdone)]. simpl in Hdue, Hdone.
      injection Hdue as <-. done.
    + intros [Hlt Hdone]. split.
      * apply list_elem_of_lookup. eauto.
      * exists dueDate. done.
Qed.

Lemma SetDueDate_then_GetOverdue_witness :
  ∃ (it : Item) (l' : List),
    SetDueDate 0 10 three_tasks = (l', None)
    ∧ set_DueDate (Some 10) it ∈ (GetOverdue 11 l').2.
Proof.
  destruct (SetDueDate_then_GetOverdue 0 10 three_tasks)
    as (it & l' & Hit & Hs & _ & _ & Hov).
  - unfold valid_index, len. simpl. lia.
  - exists it, l'. split; [exact Hs|]. apply Hov.
    injection Hit as <-. split; [lia|reflexivity].
Defined.

(** ** AddTag and RemoveTag *)

Lemma tags_at_lookup index l it :
  Items l !! Z.to_nat index = Some it → tags_at index l = Tags it.
Proof. intros Hit. unfold tags_at. by rewrite Hit. Qed.

Lemma AddTag_loop_spec tags tag :
  AddTag_loop tags tag = bool_decide (tag ∈ tags).
Proof.
  induction tags as [|t rest IH]; cbn [AddTag_loop].
  - rewrite bool_decide_eq_false_2; [done|]. by intros ?%elem_of_nil.
  - destruct (decide (t = tag)) as [->|Hne].
    + rewrite (bool_decide_eq_true_2 (tag = tag)) by done.
      rewrite bool_decide_eq_true_2; [done|by left].
    + rewrite (bool_decide_eq_false_2 _ Hne), IH.
      destruct (decide (tag ∈ rest)) as [Hin|Hnin].
      * rewrite (bool_decide_eq_true_2 _ Hin).
        rewrite bool_decide_eq_true_2; [done|by right].
      * rewrite (bool_decide_eq_false_2 _ Hnin).
        rewrite bool_decide_eq_false_2; [done|].
        intros [->|Hin]%elem_of_cons; done.
Qed.

Lemma RemoveTag_loop_Some rest tag i k :
  RemoveTag_loop rest tag i = Some k →
  ∃ pre post, rest = pre ++ tag :: post ∧ (tag ∉ pre)
              ∧ k = (i + length pre)%nat.
Proof.
  revert i. induction rest as [|t rest IH]; intros i; cbn [RemoveTag_loop];
    [done|].
  destruct (decide (t = tag)) as [->|Hne].
  - rewrite bool_decide_eq_true_2 by done. intros [= <-].
    exists [], rest. split_and!; [done| |simpl; lia].
    by intros ?%elem_of_nil.
  - rewrite (bool_decide_eq_false_2 _ Hne). intros Hk.
    destruct (IH _ Hk) as (pre & post & -> & Hpre & ->).
    exists (t :: pre), post. split_and!; [done| |simpl; lia].
    intros [->|Hin]%elem_of_cons; done.
Qed.

Lemma RemoveTag_loop_None rest tag i :
  RemoveTag_loop rest tag i = None ↔ tag ∉ rest.
Proof.
  revert i. induction rest as [|t rest IH]; intros i; cbn [RemoveTag_loop].
  - split; [by intros _ ?%elem_of_nil|done].
  - destruct (decide (t = tag)) as [->|Hne].
    + rewrite bool_decide_eq_true_2 by done. split; [done|].
      intros Hnin. exfalso. apply Hnin. by left.
    + rewrite (bool_decide_eq_false_2 _ Hne), IH. split.
      * intros Hnin [->|Hin]%elem_of_cons; done.
      * intros Hnin Hin. apply Hnin. by right.
Qed.

Lemma take_drop_remove {A} (pre post : list A) (x : A) :
  take (length pre) (pre ++ x :: post)
  ++ drop (S (length pre)) (pre ++ x :: post) = pre ++ post.
Proof.
  rewrite take_app_length. f_equal.
  replace (S (length pre)) with (length pre + 1)%nat by lia.
  by rewrite drop_app_add.
Qed.

(** [AddTag] at a valid index: when the item already holds the tag, the
    call fails with "Tag already exists" and the list is as it was;
    otherwise the tag is appended after the tags of the item, whose other
    fields and position are kept, and every other item is as it was. *)
Theorem AddTag_appends (index : Z) (tag : string) (l : List) :
  valid_index index l →
  ∃ it : Item,
    Items l !! Z.to_nat index = Some it
    ∧ (tag ∈ Tags it →
       AddTag index tag l = (l, Some (errors_New "Tag already exists")))
    ∧ (tag ∉ Tags it →
       ∃ l', AddTag index tag l = (l', None)
             ∧ Items l' !! Z.to_nat index
               = Some (set_Tags (Tags it ++ [tag]) it)
             ∧ ∀ j, j ≠ Z.to_nat index → Items l' !! j = Items l !! j).
Proof.
  intros Hv. destruct (valid_index_lookup _ _ Hv) as [it Hit].
  exists it. split; [done|].
  unfold AddTag. rewrite (out_of_range_false _ _ Hv).
  rewrite (tags_at_lookup _ _ _ Hit), AddTag_loop_spec. split.
  - intros Hin. by rewrite bool_decide_eq_true_2.
  - intros Hnin. rewrite bool_decide_eq_false_2 by done.
    eexists. split; [reflexivity|].
    destruct (update_item_lookup index
                (λ it, set_Tags (Tags it ++ [tag]) it) l it Hv Hit)
      as (_ & Hat & Hother).
    by split.
Qed.

Lemma AddTag_appends_witness :
  ∃ l', AddTag 0 "work" three_tasks = (l', None)
        ∧ Tags <$> Items l' !! 0%nat = Some ["work"].
Proof.
  destruct (AddTag_appends 0 "work" three_tasks) as (it & Hit & _ & Hadd).
  { unfold valid_index, len. simpl. lia. }
  injection Hit as <-.
  destruct Hadd as (l' & Ha & Hat & _).
  { simpl. by intros ?%elem_of_nil. }
  exists l'. split; [exact Ha|].
  change (Z.to_nat 0) with 0%nat in Hat. by rewrite Hat.
Defined.

(** [RemoveTag] at a valid index: when the item does not hold the tag, the
    call fails with "Tag not found" and the list is as it was; otherwise
    the first occurrence of the tag is removed from the tags of the item,
    the other tags keeping their order, and every other item is as it
    was. *)
Theorem RemoveTag_removes_first (index : Z) (tag : string) (l : List) :
  valid_index index l →
  ∃ it : Item,
    Items l !! Z.to_nat index = Some it
    ∧ (tag ∉ Tags it →
       RemoveTag index tag l = (l, Some (errors_New "Tag not found")))
    ∧ (tag ∈ Tags it →
       ∃ l' pre post,
         Tags it = pre ++ tag :: post ∧ (tag ∉ pre)
         ∧ RemoveTag index tag l = (l', None)
         ∧ Items l' !! Z.to_nat index = Some (set_Tags (pre ++ post) it)
         ∧ ∀ j, j ≠ Z.to_nat index → Items l' !! j = Items l !! j).
Proof.
  intros Hv. destruct (valid_index_lookup _ _ Hv) as [it Hit].
  exists it. split; [done|].
  unfold RemoveTag. rewrite (out_of_range_false _ _ Hv).
  rewrite (tags_at_lookup _ _ _ Hit). split.
  - intros Hnin. apply (RemoveTag_loop_None _ _ 0%nat) in Hnin.
    by rewrite Hnin.
  - intros Hin. destruct (RemoveTag_loop (Tags it) tag 0) as [k|] eqn:Hk.
    + destruct (RemoveTag_loop_Some _ _ _ _ Hk) as (pre & post & Ht & Hpre & ->).
      exists (update_item index
                (set_Tags (take (0 + length pre) (Tags it)
                           ++ drop (S (0 + length pre)) (Tags it))) l),
             pre, post.
      split_and!; [done|done|done| |].
      * destruct (update_item_lookup index
                    (set_Tags (take (0 + length pre) (Tags it)
                               ++ drop (S (0 + length pre)) (Tags it)))
                    l it Hv Hit) as (_ & Hat & _).
        rewrite Hat. do 2 f_equal. rewrite Ht. simpl.
        apply take_drop_remove.
      * by apply update_item_lookup with it.
    + apply RemoveTag_loop_None in Hk. done.
Qed.

Lemma RemoveTag_removes_first_witness :
  ∃ (l' : List) (pre post : list string),
    ["home"; "work"; "urgent"] = pre ++ "work" :: post
    ∧ ("work" ∉ pre)
    ∧ RemoveTag 1 "work"
        {| Items := [NewItem 1 "Task 1";
                     mkItem "Task 2" true PriorityHigh (Some 5)
                       ["home"; "work"; "urgent"] 2] |}
      = (l', None)
    ∧ Tags <$> Items l' !! 1%nat = Some (pre ++ post).
Proof.
  destruct (RemoveTag_removes_first 1 "work"
              {| Items := [NewItem 1 "Task 1";
                           mkItem "Task 2" true PriorityHigh (Some 5)
                             ["home"; "work"; "urgent"] 2] |})
    as (it & Hit & _ & Hremove).
  { unfold valid_index, len. simpl. lia. }
  injection Hit as <-.
  destruct Hremove as (l' & pre & post & Htags & Hpre & Hr & Hat & _).
  { simpl. apply elem_of_cons. right. apply elem_of_cons. by left. }
  exists l', pre, post. split; [exact Htags|]. split; [exact Hpre|].
  split; [exact Hr|].
  change (Z.to_nat 1) with 1%nat in Hat. by rewrite Hat.
Defined.

(** A successful [AddTag] followed by [RemoveTag] of the same tag at the
    same index gives the list back. *)
Theorem AddTag_then_RemoveTag (index : Z) (tag : string) (l l' : List) :
  AddTag index tag l = (l', None) → RemoveTag index tag l' = (l, None).
Proof.
  unfold AddTag. destruct (out_of_range index l) eqn:Hr; [done|].
  rewrite AddTag_loop_spec. case_bool_decide as Hin; [done|]. intros [= <-].
  assert (valid_index index l) as Hv.
  { unfold valid_index. unfold out_of_range in Hr.
    apply orb_false_elim in Hr as [H0 Hlen].
    apply Z.ltb_ge in H0. rewrite Z.geb_leb in Hlen. apply Z.leb_gt in Hlen.
    lia. }
  destruct (valid_index_lookup _ _ Hv) as [it Hit].
  rewrite (tags_at_lookup _ _ _ Hit) in Hin.
  set (l1 := update_item index (λ it, set_Tags (Tags it ++ [tag]) it) l).
  destruct (update_item_lookup index
              (λ it, set_Tags (Tags it ++ [tag]) it) l it Hv Hit)
    as (Hlen & Hat & _). fold l1 in Hlen, Hat.
  assert (valid_index index l1) as Hv1.
  { unfold valid_index, len in *. rewrite Hlen. done. }
  unfold RemoveTag. rewrite (out_of_range_false _ _ Hv1).
  rewrite (tags_at_lookup _ _ _ Hat). simpl.
  destruct (RemoveTag_loop (Tags it ++ [tag]) tag 0) as [k|] eqn:Hk.
  - destruct (RemoveTag_loop_Some _ _ _ _ Hk) as (pre & post & Ht & Hpre & ->).
    assert (pre = Tags it ∧ post = []) as [-> ->].
    { destruct post as [|p post _] using rev_ind.
      - apply app_inj_tail in Ht as [Ht _]. done.
      - rewrite app_comm_cons, app_assoc in Ht.
        apply app_inj_tail in Ht as [Ht _].
        exfalso. apply Hin. rewrite Ht. apply elem_of_app. right. by left. }
    f_equal. rewrite !Nat.add_0_l, take_drop_remove, app_nil_r.
    unfold l1, update_item. simpl. destruct l as [items]. simpl in *. f_equal.
    rewrite list_alter_alter_eq.
    apply (alter_same _ _ _ it); [done|]. by destruct it.
  - apply RemoveTag_loop_None in Hk. exfalso. apply Hk.
    apply elem_of_app. right. by left.
Qed.

Lemma AddTag_then_RemoveTag_witness :
  RemoveTag 0 "work" (AddTag 0 "work" three_tasks).1 = (three_tasks, None).
Proof.
  apply (AddTag_then_RemoveTag 0 "work" three_tasks
           (AddTag 0 "work" three_tasks).1).
  reflexivity.
Defined.

(** After a successful [AddTag] the item at the index holds the tag and is
    among the results of [FilterByTag] for it. *)
Theorem AddTag_then_FilterByTag (index : Z) (tag : string) (l l' : List) :
  AddTag index tag l = (l', None) →
  ∃ it, Items l' !! Z.to_nat index = Some it
        ∧ tag ∈ Tags it
        ∧ it ∈ (FilterByTag tag l').2.
Proof.
  unfold AddTag. destruct (out_of_range index l) eqn:Hr; [done|].
  destruct (AddTag_loop _ _); [done|]. intros [= <-].
  assert (valid_index index l) as Hv.
  { unfold valid_index. unfold out_of_range in Hr.
    apply orb_false_elim in Hr as [H0 Hlen].
    apply Z.ltb_ge in H0. rewrite Z.geb_leb in Hlen. apply Z.leb_gt in Hlen.
    lia. }
  destruct (valid_index_lookup _ _ Hv) as [it Hit].
  destruct (update_item_lookup index
              (λ it, set_Tags (Tags it ++ [tag]) it) l it Hv Hit)
    as (_ & Hat & _).
  exists (set_Tags (Tags it ++ [tag]) it).
  assert (tag ∈ Tags (set_Tags (Tags it ++ [tag]) it)) as Hin.
  { simpl. apply elem_of_app. right. by left. }
  split_and!; [done|done|].
  unfold FilterByTag. cbn [snd].
  destruct (FilterByTag_loop_spec tag
              (Items (update_item index
                        (λ it, set_Tags (Tags it ++ [tag]) it) l)) [])
    as [found [Hf Hsel]].
  rewrite Hf. simpl. apply (selects_elem_of _ _ _ _ Hsel).
  split; [|done]. apply list_elem_of_lookup. eauto.
Qed.

Lemma AddTag_then_FilterByTag_witness :
  ∃ it, Items (AddTag 0 "work" three_tasks).1 !! 0%nat = Some it
        ∧ it ∈ (FilterByTag "work" (AddTag 0 "work" three_tasks).1).2.
Proof.
  destruct (AddTag_then_FilterByTag 0 "work" three_tasks
              (AddTag 0 "work" three_tasks).1) as (it & Hit & _ & Hin).
  - reflexivity.
  - exists it. split; [exact Hit|exact Hin].
Defined.

(** ** Uniqueness of tags *)

Lemma unique_tags_update index f l :
  (∀ it, Items l !! Z.to_nat index = Some it →
         NoDup (Tags it) → NoDup (Tags (f it))) →
  unique_tags l → unique_tags (update_item index f l).
Proof.
  intros Hf Hl. unfold unique_tags, update_item. simpl.
  by apply Forall_alter.
Qed.

Lemma unique_tags_Sort l : unique_tags l → unique_tags (Sort l).
Proof.
  unfold unique_tags. intros Hl.
  eapply Permutation_Forall; [|exact Hl].
  symmetry. rewrite Sort_Items. apply partition_Permutation.
Qed.

Lemma unique_tags_sublist l items :
  items `sublist_of` Items l → unique_tags l → unique_tags (mkList items).
Proof.
  unfold unique_tags. simpl. intros Hsub Hl.
  rewrite Forall_forall in *. intros it Hin. apply Hl.
  by eapply elem_of_sublist.
Qed.

(** In every list built from the empty list by the operations of the
    package, no item holds the same tag twice. *)
Theorem unique_tags_reachable (l : List) : reachable l → unique_tags l.
Proof.
  induction 1 as [|now text l _ IH|index l _ IH|index l _ IH|index l _ IH
                  |index text l _ IH|index p l _ IH|index d l _ IH
                  |index tag l _ IH|index tag l _ IH|l _ IH|l _ IH].
  - constructor.
  - rewrite Add_eq. case_bool_decide; [done|].
    unfold unique_tags. simpl. apply Forall_app. split; [done|].
    repeat constructor.
  - unfold Complete. destruct (out_of_range index l); [done|].
    apply unique_tags_Sort, unique_tags_update; done.
  - unfold Uncomplete. destruct (out_of_range index l); [done|].
    apply unique_tags_Sort, unique_tags_update; done.
  - unfold Delete. destruct (out_of_range index l); [done|]. simpl.
    apply (unique_tags_sublist l); [|done]. apply take_drop_sublist. lia.
  - unfold Edit. destruct (out_of_range index l); [done|].
    case_bool_decide; [done|]. apply unique_tags_update; done.
  - unfold SetPriority. destruct (out_of_range index l); [done|].
    apply unique_tags_update; done.
  - unfold SetDueDate. destruct (out_of_range index l); [done|].
    apply unique_tags_update; done.
  - unfold AddTag. destruct (out_of_range index l); [done|].
    rewrite AddTag_loop_spec. case_bool_decide as Hin; [done|].
    apply unique_tags_update; [|done]. intros it Hit Hnd. simpl.
    rewrite (tags_at_lookup _ _ _ Hit) in Hin.
    apply NoDup_app. split_and!; [done| |apply NoDup_singleton].
    by intros t Ht ->%list_elem_of_singleton.
  - unfold RemoveTag. destruct (out_of_range index l); [done|].
    destruct (RemoveTag_loop _ _ _) as [k|]; [|done].
    apply unique_tags_update; [|done]. intros it Hit Hnd. simpl.
    rewrite (tags_at_lookup _ _ _ Hit).
    eapply sublist_NoDup; [exact Hnd|]. apply take_drop_sublist. lia.
  - unfold ClearCompleted. rewrite ClearCompleted_loop_spec. simpl.
    apply (unique_tags_sublist l); [|done]. apply sublist_filter.
  - by apply unique_tags_Sort.
Qed.

Lemma unique_tags_reachable_witness :
  unique_tags (AddTag 0 "work" (Add 1 "Task 1" NewList).1).1.
Proof.
  apply (unique_tags_reachable (AddTag 0 "work" (Add 1 "Task 1" NewList).1).1).
  apply reach_AddTag, reach_Add, reach_NewList.
Defined.

(** ** ParsePriority *)

Lemma upper_lower_byte c : upper_byte (lower_byte c) = upper_byte c.
Proof. by destruct c as [[] [] [] [] [] [] [] []]. Qed.

Lemma lower_byte_ascii c :
  (byte_code (lower_byte c) <? RuneSelf)%N = (byte_code c <? RuneSelf)%N.
Proof. by destruct c as [[] [] [] [] [] [] [] []]. Qed.

Lemma ToUpper_lower unicode_ToUpper s :
  isASCII s = true →
  ToUpper unicode_ToUpper (string_map lower_byte s)
  = ToUpper unicode_ToUpper s.
Proof.
  intros Hs. unfold ToUpper.
  assert (isASCII (string_map lower_byte s) = true) as ->.
  { revert Hs. unfold isASCII. induction s as [|c s IH]; [done|]. simpl.
    rewrite lower_byte_ascii. intros [-> Hs]%andb_true_iff. by apply IH. }
  rewrite Hs. clear Hs. induction s as [|c s IH]; [done|]. simpl.
  by rewrite upper_lower_byte, IH.
Qed.

(** [ParsePriority] undoes [String] on the three priorities and always
    returns one of the three; the name [String] gives to any other value
    parses as medium. *)
Theorem ParsePriority_String (unicode_ToUpper : string → string) :
  ParsePriority unicode_ToUpper (Priority_String PriorityLow) = PriorityLow
  ∧ ParsePriority unicode_ToUpper (Priority_String PriorityMedium)
    = PriorityMedium
  ∧ ParsePriority unicode_ToUpper (Priority_String PriorityHigh)
    = PriorityHigh
  ∧ (∀ p, ¬ is_priority p →
          ParsePriority unicode_ToUpper (Priority_String p) = PriorityMedium)
  ∧ ∀ s, is_priority (ParsePriority unicode_ToUpper s).
Proof.
  split_and!; try reflexivity.
  - intros p Hp. unfold Priority_String, is_priority in *.
    repeat case_bool_decide; try reflexivity; exfalso; apply Hp; auto.
  - intros s. unfold ParsePriority, is_priority.
    repeat destruct (_ || _); auto.
Qed.

(** On ASCII input [ParsePriority] ignores case: the lowered input parses
    as the input does. *)
Theorem ParsePriority_ignores_case (unicode_ToUpper : string → string)
    (s : string) :
  isASCII s = true →
  ParsePriority unicode_ToUpper (string_map lower_byte s)
  = ParsePriority unicode_ToUpper s.
Proof. intros Hs. unfold ParsePriority. by rewrite ToUpper_lower. Qed.

Lemma ParsePriority_ignores_case_witness :
  ParsePriority id (string_map lower_byte "High") = ParsePriority id "High".
Proof. apply (ParsePriority_ignores_case id "High"). reflexivity. Defined.

(** ** Add and Search *)

Lemma append_empty_r s : s +:+ "" = s.
Proof.
  induction s as [|c s IH]; [done|].
  change (String c (s +:+ "") = String c s). by rewrite IH.
Qed.

Lemma substring_of_refl s : substring_of s s.
Proof. exists "", "". change (s = s +:+ ""). by rewrite append_empty_r. Qed.

(** After a successful [Add] of a text, [Search] for that text finds the
    new item. *)
Theorem Add_then_Search (unicode_ToLower : string → string) (now : Time)
    (t : string) (l l' : List) :
  Add now t l = (l', None) →
  NewItem now t ∈ (Search unicode_ToLower t l').2.
Proof.
  rewrite Add_eq. case_bool_decide; [done|]. intros [= <-].
  unfold Search. cbn [snd].
  destruct (Search_loop_spec unicode_ToLower
              (Items {| Items := Items l ++ [NewItem now t] |}) t [])
    as [found [Hf Hsel]].
  rewrite Hf. simpl. apply (selects_elem_of _ _ _ _ Hsel). split.
  - apply elem_of_app. right. by left.
  - left. apply substring_of_refl.
Qed.

Lemma Add_then_Search_witness :
  NewItem 4 "Task 4" ∈ (Search id "Task 4" (Add 4 "Task 4" three_tasks).1).2.
Proof.
  apply (Add_then_Search id 4 "Task 4" three_tasks
           (Add 4 "Task 4" three_tasks).1).
  reflexivity.
Defined.

Lemma lower_lower_byte c : lower_byte (lower_byte c) = lower_byte c.
Proof. by destruct c as [[] [] [] [] [] [] [] []]. Qed.

Lemma lower_upper_byte c : lower_byte (upper_byte c) = lower_byte c.
Proof. by destruct c as [[] [] [] [] [] [] [] []]. Qed.

Lemma upper_byte_ascii c :
  (byte_code (upper_byte c) <? RuneSelf)%N = (byte_code c <? RuneSelf)%N.
Proof. by destruct c as [[] [] [] [] [] [] [] []]. Qed.

Lemma ToLower_recased unicode_ToLower (f : ascii → ascii) s :
  (∀ c, lower_byte (f c) = lower_byte c) →
  (∀ c, (byte_code (f c) <? RuneSelf)%N = (byte_code c <? RuneSelf)%N) →
  isASCII s = true →
  ToLower unicode_ToLower (string_map f s) = ToLower unicode_ToLower s.
Proof.
  intros Hlow Hascii Hs. unfold ToLower.
  assert (isASCII (string_map f s) = true) as ->.
  { revert Hs. unfold isASCII. induction s as [|c s IH]; [done|]. simpl.
    rewrite Hascii. intros [-> Hs]%andb_true_iff. by apply IH. }
  rewrite Hs. clear Hs. induction s as [|c s IH]; [done|]. simpl.
  by rewrite Hlow, IH.
Qed.

(** On an ASCII query [Search] ignores the case of the query: the query in
    upper case and the query in lower case give the results of the query
    itself. *)
Theorem Search_ignores_query_case (unicode_ToLower : string → string)
    (q : string) (l : List) :
  isASCII q = true →
  Search unicode_ToLower (string_map upper_byte q) l
  = Search unicode_ToLower q l
  ∧ Search unicode_ToLower (string_map lower_byte q) l
    = Search unicode_ToLower q l.
Proof.
  intros Hq. unfold Search.
  rewrite (ToLower_recased _ upper_byte q lower_upper_byte upper_byte_ascii Hq).
  by rewrite (ToLower_recased _ lower_byte q lower_lower_byte
                lower_byte_ascii Hq).
Qed.

Lemma Search_ignores_query_case_witness :
  Search id "BUY" {| Items := [NewItem 1 "Buy groceries"] |}
  = Search id "Buy" {| Items := [NewItem 1 "Buy groceries"] |}.
Proof.
  apply (Search_ignores_query_case id "Buy"
           {| Items := [NewItem 1 "Buy groceries"] |}).
  reflexivity.
Defined.

(** ** Complete and Uncomplete keep the items *)

Lemma fmap_Text_update index f l :
  (∀ it, Text (f it) = Text it) →
  Text <$> Items (update_item index f l) = Text <$> Items l.
Proof.
  intros Hf. unfold update_item. simpl.
  apply list_eq. intros j. rewrite !list_lookup_fmap.
  destruct (decide (j = Z.to_nat index)) as [->|Hj].
  - rewrite list_lookup_alter_eq.
    destruct (Items l !! Z.to_nat index); [|done]. simpl. by rewrite Hf.
  - by rewrite list_lookup_alter_ne.
Qed.

(** Whatever the index, [Complete] and [Uncomplete] neither lose nor add
    an item: the texts after the call are a permutation of the texts
    before. *)
Theorem Complete_keeps_texts (index : Z) (l : List) :
  Text <$> Items (Complete index l).1 ≡ₚ Text <$> Items l
  ∧ Text <$> Items (Uncomplete index l).1 ≡ₚ Text <$> Items l.
Proof.
  unfold Complete, Uncomplete. destruct (out_of_range index l); [done|].
  simpl. split.
  - rewrite <- (fmap_Text_update index (set_Done true) l) by done.
    apply fmap_Permutation. rewrite Sort_Items. apply partition_Permutation.
  - rewrite <- (fmap_Text_update index (set_Done false) l) by done.
    apply fmap_Permutation. rewrite Sort_Items. apply partition_Permutation.
Qed.

Lemma nonempty_texts_preserved_witness :
  nonempty_texts (Complete 0 three_tasks).1.
Proof.
  apply (nonempty_texts_preserved three_tasks).
  unfold nonempty_texts. simpl. by repeat constructor.
Defined.

(** * Search and case

    What [Search] compares are the lowered strings.  On ASCII strings this
    is containment up to case; outside well-formed UTF-8 it is not. *)

Lemma byte_code_inj c d : byte_code c = byte_code d → c = d.
Proof.
  unfold byte_code. intros H.
  rewrite <- (ascii_N_embedding c), <- (ascii_N_embedding d). by rewrite H.
Qed.

Lemma byte_code_chr n : (n < 256)%N → byte_code (ascii_of_N n) = n.
Proof. apply N_ascii_embedding. Qed.

Lemma byte_code_bounded c : (byte_code c < 256)%N.
Proof. apply N_ascii_bounded. Qed.

Lemma lower_byte_upper c :
  is_upper_letter c → lower_byte c = ascii_of_N (byte_code c + 32).
Proof.
  intros [H1 H2]. unfold lower_byte.
  apply N.leb_le in H1, H2. by rewrite H1, H2.
Qed.

Lemma lower_byte_other c : ¬ is_upper_letter c → lower_byte c = c.
Proof.
  intros Hn. unfold lower_byte.
  destruct (65 <=? byte_code c)%N eqn:H1; [|done].
  destruct (byte_code c <=? 90)%N eqn:H2; [|done].
  exfalso. apply Hn. split; [by apply N.leb_le|by apply N.leb_le].
Qed.

Lemma is_upper_letter_dec c : is_upper_letter c ∨ ¬ is_upper_letter c.
Proof. unfold is_upper_letter. lia. Qed.

(** Lowering identifies exactly the bytes that are the same letter. *)
Lemma lower_byte_same_letter c d :
  lower_byte c = lower_byte d ↔ same_letter c d.
Proof.
  unfold same_letter.
  pose proof (byte_code_bounded c) as Hc.
  pose proof (byte_code_bounded d) as Hd.
  destruct (is_upper_letter_dec c) as [Uc|Uc],
           (is_upper_letter_dec d) as [Ud|Ud].
  - rewrite (lower_byte_upper c Uc), (lower_byte_upper d Ud). split.
    + intros H. left. apply byte_code_inj.
      apply (f_equal byte_code) in H. unfold is_upper_letter in *.
      rewrite !byte_code_chr in H by lia. lia.
    + intros [->|[[_ H]|[_ H]]]; [done| |];
        unfold is_upper_letter in *; lia.
  - rewrite (lower_byte_upper c Uc), (lower_byte_other d Ud). split.
    + intros H. right. left. split; [done|]. rewrite <- H.
      unfold is_upper_letter in *. rewrite byte_code_chr; lia.
    + intros [->|[[_ H]|[H _]]]; [done| |done].
      rewrite <- H. unfold byte_code. by rewrite ascii_N_embedding.
  - rewrite (lower_byte_other c Uc), (lower_byte_upper d Ud). split.
    + intros H. right. right. split; [done|]. rewrite H.
      unfold is_upper_letter in *. rewrite byte_code_chr; lia.
    + intros [->|[[H _]|[_ H]]]; [done|done|].
      rewrite <- H. unfold byte_code. by rewrite ascii_N_embedding.
  - rewrite (lower_byte_other c Uc), (lower_byte_other d Ud). split.
    + intros H. by left.
    + intros [->|[[H _]|[H _]]]; done.
Qed.

Lemma string_map_lower_case_equal s t :
  string_map lower_byte s = string_map lower_byte t ↔ case_equal s t.
Proof.
  revert t. induction s as [|c s IH]; intros [|d t]; simpl; try done.
  rewrite <- IH, <- lower_byte_same_letter. split.
  - by intros [= -> ->].
  - by intros [-> ->].
Qed.

Lemma string_map_app f a b :
  string_map f (a +:+ b) = string_map f a +:+ string_map f b.
Proof.
  induction a as [|c a IH]; [done|].
  change (String (f c) (string_map f (a +:+ b))
          = String (f c) (string_map f a +:+ string_map f b)).
  by rewrite IH.
Qed.

Lemma string_map_app_inv f s a b :
  string_map f s = a +:+ b →
  ∃ s1 s2, s = s1 +:+ s2 ∧ string_map f s1 = a ∧ string_map f s2 = b.
Proof.
  revert s. induction a as [|c a IH]; intros s Hs.
  - by exists EmptyString, s.
  - destruct s as [|d s]; [done|].
    change (String (f d) (string_map f s) = String c (a +:+ b)) in Hs.
    injection Hs as Hd Hs. destruct (IH _ Hs) as (s1 & s2 & -> & H1 & H2).
    exists (String d s1), s2. split_and!; [done| |done].
    simpl. by rewrite Hd, H1.
Qed.

(** Containment of the lowered query in the lowered string is containment
    up to ASCII case. *)
Lemma lowered_substring q s :
  substring_of (string_map lower_byte q) (string_map lower_byte s)
  ↔ ci_occurs q s.
Proof.
  unfold substring_of, ci_occurs. split.
  - intros (pre' & post' & Hs).
    apply string_map_app_inv in Hs as (pre & rest & -> & Hpre & Hrest).
    apply string_map_app_inv in Hrest as (mid & post & -> & Hmid & Hpost).
    exists pre, mid, post. split; [done|].
    by apply string_map_lower_case_equal.
  - intros (pre & mid & post & -> & Hmid).
    apply string_map_lower_case_equal in Hmid.
    exists (string_map lower_byte pre), (string_map lower_byte post).
    by rewrite !string_map_app, Hmid.
Qed.

Lemma ci_substring_ascii unicode_ToLower q s :
  isASCII q = true → isASCII s = true →
  ci_substring unicode_ToLower q s ↔ ci_occurs q s.
Proof.
  intros Hq Hs. unfold ci_substring, ToLower. rewrite Hq, Hs.
  apply lowered_substring.
Qed.

Lemma matches_ascii unicode_ToLower q it :
  isASCII q = true → ascii_item it →
  matches unicode_ToLower q it ↔ matches_ci q it.
Proof.
  intros Hq [Htext Htags]. unfold matches, matches_ci.
  rewrite (ci_substring_ascii _ _ _ Hq Htext).
  rewrite Forall_forall in Htags. split.
  - intros [H|(tag & Hin & H)]; [by left|right].
    exists tag. split; [done|].
    by apply (ci_substring_ascii unicode_ToLower _ _ Hq (Htags _ Hin)).
  - intros [H|(tag & Hin & H)]; [by left|right].
    exists tag. split; [done|].
    by apply (ci_substring_ascii unicode_ToLower _ _ Hq (Htags _ Hin)).
Qed.

Lemma selects_ext {A} (P Q : A → Prop) xs rs :
  Forall (λ x, P x ↔ Q x) xs → selects P xs rs → selects Q xs rs.
Proof.
  intros Hall Hsel. induction Hsel as [|x xs rs Hx _ IH|x xs rs Hx _ IH];
    [constructor| |]; apply Forall_cons_1 in Hall as [Hpq Hall].
  - apply selects_keep; [by apply Hpq|by apply IH].
  - apply selects_skip; [by rewrite <- Hpq|by apply IH].
Qed.

Lemma Contains_refl s : Contains s s = true.
Proof. apply Contains_spec, substring_of_refl. Qed.

(** A query of one byte that is not UTF-8 matches a text of another such
    byte, for every table of lower case runes: [strings.ToLower] turns
    both into U+FFFD.  The query does not occur in the text, whatever the
    case. *)
Lemma Search_invalid_utf8_matches :
  (∀ rune_ToLower : N → N,
     Search (strings_Map rune_ToLower) byte_fe
       {| Items := [NewItem 1 byte_ff] |}
     = ({| Items := [NewItem 1 byte_ff] |}, [NewItem 1 byte_ff]))
  ∧ ¬ matches_ci byte_fe (NewItem 1 byte_ff)
  ∧ ¬ substring_of byte_fe byte_ff.
Proof.
  split_and!.
  - intros rune_ToLower. unfold Search. f_equal. cbn [Items Search_loop].
    change (ToLower (strings_Map rune_ToLower) (Text (NewItem 1 byte_ff)))
      with (ToLower (strings_Map rune_ToLower) byte_fe).
    by rewrite Contains_refl.
  - intros [(pre & mid & post & Hs & Hmid)|(tag & Hin & _)];
      [|by apply elem_of_nil in Hin].
    simpl in Hs. destruct mid as [|d [|? ?]]; simpl in Hmid; try tauto.
    destruct Hmid as [Hd _].
    assert (d = ascii_of_N 255) as ->.
    { destruct pre as [|p pre]; [by injection Hs as <-|].
      injection Hs as _ Hs. by destruct pre. }
    destruct Hd as [Hd|[[[H1 H2] _]|[[H1 H2] _]]];
      [discriminate Hd|vm_compute in H2; done|vm_compute in H2; done].
  - intros (pre & post & Hs). unfold byte_ff, byte_fe in Hs.
    destruct pre as [|p pre]; [discriminate Hs|].
    injection Hs as _ Hs. by destruct pre.
Qed.

(** C8, amended.  [Search] has no error result and returns the list as it
    is.  Its results are the items of the list, in list order and each
    position at most once, for which the query lowered by [strings.ToLower]
    occurs in the lowered text or in one of the lowered tags.  When the
    query and the texts and tags of the list are ASCII, these are exactly
    the items that contain the query as a case-insensitive substring of
    their text or of one of their tags. *)
Theorem Search_case_insensitive (unicode_ToLower : string → string)
    (q : string) (l : List) :
  ∃ results,
    Search unicode_ToLower q l = (l, results)
    ∧ selects (matches unicode_ToLower q) (Items l) results
    ∧ results `sublist_of` Items l
    ∧ (∀ it, it ∈ results ↔ it ∈ Items l ∧ matches unicode_ToLower q it)
    ∧ (isASCII q = true → Forall ascii_item (Items l) →
       selects (matches_ci q) (Items l) results
       ∧ ∀ it, it ∈ results ↔ it ∈ Items l ∧ matches_ci q it).
Proof.
  destruct (Search_loop_spec unicode_ToLower (Items l) q [])
    as [found [Heq Hsel]].
  exists found. split_and!.
  - unfold Search. by rewrite Heq.
  - done.
  - by eapply selects_sublist.
  - intros it. apply (selects_elem_of _ _ _ _ Hsel).
  - intros Hq Hascii.
    assert (selects (matches_ci q) (Items l) found) as Hci.
    { apply (selects_ext (matches unicode_ToLower q)); [|done].
      eapply Forall_impl; [exact Hascii|]. intros it Hit.
      by apply matches_ascii. }
    split; [done|]. intros it. apply (selects_elem_of _ _ _ _ Hci).
Qed.

Lemma Search_case_insensitive_witness :
  ∃ results,
    Search id "GO" go_tasks = (go_tasks, results)
    ∧ selects (matches_ci "GO") (Items go_tasks) results
    ∧ Text <$> results = ["Learn Go programming"].
Proof.
  destruct (Search_case_insensitive id "GO" go_tasks)
    as (results & Heq & _ & _ & _ & Hascii).
  destruct Hascii as [Hsel _]; [reflexivity|repeat constructor|].
  exists results. split_and!; [exact Heq|exact Hsel|].
  vm_compute in Heq. by injection Heq as <-.
Defined.

(** * The JSON round trip of a List

    [json.Marshal] followed by [json.Unmarshal] into an empty List gives
    the List back: the scanner accepts what the encoder writes, and the
    decoder reads each value as the field it was written from. *)

(** ** Strings *)

Lemma append_cons c s t : String c s +:+ t = String c (s +:+ t).
Proof. reflexivity. Qed.

Lemma append_assoc a b c : (a +:+ b) +:+ c = a +:+ (b +:+ c).
Proof.
  induction a as [|x a IH]; [done|]. rewrite !append_cons. by rewrite IH.
Qed.

Lemma length_append a b :
  String.length (a +:+ b) = (String.length a + String.length b)%nat.
Proof.
  induction a as [|x a IH]; [done|]. rewrite append_cons.
  cbn [String.length]. by rewrite IH.
Qed.

Lemma string_take_drop n s :
  gojson.string_take n s +:+ gojson.string_drop n s = s.
Proof.
  revert s. induction n as [|n IH]; intros [|c s]; try done.
  cbn [gojson.string_take gojson.string_drop].
  rewrite append_cons. by rewrite IH.
Qed.

Lemma length_string_drop n s :
  (String.length (gojson.string_drop n s) ≤ String.length s)%nat.
Proof.
  revert s. induction n as [|n IH]; intros [|c s]; simpl; try lia.
  specialize (IH s). lia.
Qed.

Lemma string_take_append n a b :
  String.length a = n → gojson.string_take n (a +:+ b) = a.
Proof.
  revert a. induction n as [|n IH]; intros [|c a] Ha; simpl in Ha;
    try done.
  rewrite append_cons. cbn [gojson.string_take]. f_equal. apply IH. lia.
Qed.

Lemma string_drop_append n a b :
  String.length a = n → gojson.string_drop n (a +:+ b) = b.
Proof.
  revert a. induction n as [|n IH]; intros [|c a] Ha; simpl in Ha;
    try done.
  rewrite append_cons. cbn [gojson.string_drop]. apply IH. lia.
Qed.

(** ** The scanner on a raw string body *)

Lemma scan_string_raw raw rest :
  raw_ok raw →
  gojson.scan_string (raw +:+ String gojson.dq rest) = Some (raw, rest).
Proof.
  induction 1 as [|c raw Hc Hq Hb _ IH|e raw He _ IH
                  |h1 h2 h3 h4 raw H1 H2 H3 H4 _ IH].
  - reflexivity.
  - rewrite append_cons. cbn [gojson.scan_string].
    rewrite Hq, Hb, IH.
    apply N.leb_le in Hc. replace (byte_code c <? 32)%N with false; [done|].
    symmetry. apply N.ltb_ge. done.
  - rewrite !append_cons. cbn [gojson.scan_string].
    change (gojson.byte_is gojson.bs 34) with false.
    change (gojson.byte_is gojson.bs 92) with true. cbn match.
    unfold is_escape in He. rewrite He, IH. done.
  - rewrite !append_cons. cbn [gojson.scan_string].
    change (gojson.byte_is gojson.bs 34) with false.
    change (gojson.byte_is gojson.bs 92) with true. cbn match.
    destruct H1 as [? ->], H2 as [? ->], H3 as [? ->], H4 as [? ->].
    rewrite IH. reflexivity.
Qed.

(** ** Quoting one ASCII byte *)

Lemma quote_byte_raw_ok b Y :
  (byte_code b <? RuneSelf)%N = true → raw_ok Y →
  raw_ok (gojson.quote_byte b +:+ Y).
Proof.
  intros Hb HY.
  destruct b as [[] [] [] [] [] [] [] []]; try discriminate Hb;
    first [ by apply raw_plain
          | by apply raw_escape
          | by apply raw_unicode; [eexists|eexists|eexists|eexists|] ].
Qed.

Lemma getu4_not_u b e Y :
  gojson.byte_is e 117 = false → gojson.getu4 (String b (String e Y)) = None.
Proof.
  intros He. unfold gojson.getu4.
  destruct Y as [|h1 [|h2 [|h3 [|h4 rest]]]]; try done.
  by rewrite He, andb_false_r.
Qed.

Lemma unquote_escape e g Y :
  gojson.byte_is e 117 = false →
  gojson.unquote_loop (S g) (String gojson.bs (String e Y))
  = String (gojson.unescape e) (gojson.unquote_loop g Y).
Proof.
  intros He. cbn [gojson.unquote_loop].
  change (gojson.byte_is gojson.bs 92) with true. cbn match.
  by rewrite (getu4_not_u _ _ _ He).
Qed.

Lemma unquote_quote_byte b g Y :
  (byte_code b <? RuneSelf)%N = true →
  gojson.unquote_loop (S g) (gojson.quote_byte b +:+ Y)
  = String b (gojson.unquote_loop g Y).
Proof.
  intros Hb.
  destruct b as [[] [] [] [] [] [] [] []]; try discriminate Hb;
    first [ reflexivity | by apply unquote_escape ].
Qed.

Lemma length_quote_byte b : (1 ≤ String.length (gojson.quote_byte b))%nat.
Proof.
  unfold gojson.quote_byte. repeat case_match; simpl; lia.
Qed.

(** ** Runes of several bytes *)

Lemma in_range_high lo hi c :
  gojson.in_range lo hi c = true → (128 ≤ lo)%N →
  (128 <=? byte_code c)%N = true.
Proof.
  unfold gojson.in_range. intros [H1 _]%andb_true_iff Hlo.
  apply N.leb_le in H1. apply N.leb_le. lia.
Qed.

Lemma second_high (p q : bool) c :
  (if p then gojson.in_range 160 191 c
   else if q then gojson.in_range 128 159 c
   else gojson.in_range 128 191 c) = true →
  (128 <=? byte_code c)%N = true.
Proof. destruct p, q; intros H; eapply in_range_high; try exact H; lia. Qed.

Lemma second_high' (p q : bool) c :
  (if p then gojson.in_range 144 191 c
   else if q then gojson.in_range 128 143 c
   else gojson.in_range 128 191 c) = true →
  (128 <=? byte_code c)%N = true.
Proof. destruct p, q; intros H; eapply in_range_high; try exact H; lia. Qed.

(** A rune that starts with a byte from 128 on has continuation bytes from
    128 on, and its width depends on its own bytes only. *)
Lemma rune_width_multi b rest n :
  (byte_code b <? RuneSelf)%N = false →
  gojson.rune_width (String b rest) = S n →
  String.length (gojson.string_take n rest) = n
  ∧ high_bytes (gojson.string_take n rest)
  ∧ ∀ Y, gojson.rune_width (String b (gojson.string_take n rest +:+ Y))
         = S n.
Proof.
  intros Hb Hw. unfold gojson.rune_width in Hw.
  change (byte_code b <? 128)%N with (byte_code b <? RuneSelf)%N in Hw.
  rewrite Hb in Hw.
  destruct rest as [|b1 s2]; [done|].
  destruct (gojson.in_range 194 223 b) eqn:H2.
  { destruct (gojson.in_range 128 191 b1) eqn:H21; [|done].
    injection Hw as <-. split_and!; [done| |].
    - unfold high_bytes. simpl.
      rewrite (in_range_high _ _ _ H21) by lia. done.
    - intros Y. unfold gojson.rune_width.
      change (byte_code b <? 128)%N with (byte_code b <? RuneSelf)%N.
      rewrite Hb. cbn [gojson.string_take]. rewrite !append_cons.
      by rewrite H2, H21. }
  destruct s2 as [|b2 s3]; [done|].
  destruct (gojson.in_range 224 239 b) eqn:H3.
  { match type of Hw with
    | (if ?c && _ then _ else _) = _ => destruct c eqn:H31
    end; [|done].
    destruct (gojson.in_range 128 191 b2) eqn:H32; [|done].
    injection Hw as <-. split_and!; [done| |].
    - unfold high_bytes. simpl.
      rewrite (second_high _ _ _ H31).
      rewrite (in_range_high _ _ _ H32) by lia. done.
    - intros Y. unfold gojson.rune_width.
      change (byte_code b <? 128)%N with (byte_code b <? RuneSelf)%N.
      rewrite Hb. cbn [gojson.string_take]. rewrite !append_cons.
      by rewrite H2, H3, H31, H32. }
  destruct s3 as [|b3 s4]; [done|].
  destruct (gojson.in_range 240 244 b) eqn:H4; [|done].
  match type of Hw with
  | (if _ && ?c && _ && _ then _ else _) = _ => destruct c eqn:H41
  end; [|done].
  destruct (gojson.in_range 128 191 b2) eqn:H42; [|done].
  destruct (gojson.in_range 128 191 b3) eqn:H43; [|done].
  injection Hw as <-. split_and!; [done| |].
  - unfold high_bytes. simpl.
    rewrite (second_high' _ _ _ H41).
    rewrite (in_range_high _ _ _ H42) by lia.
    rewrite (in_range_high _ _ _ H43) by lia. done.
  - intros Y. unfold gojson.rune_width.
    change (byte_code b <? 128)%N with (byte_code b <? RuneSelf)%N.
    rewrite Hb. cbn [gojson.string_take]. rewrite !append_cons.
    by rewrite H2, H3, H4, H41, H42, H43.
Qed.

Lemma rune_width_ascii b rest :
  (byte_code b <? RuneSelf)%N = true →
  gojson.rune_width (String b rest) = 1%nat.
Proof.
  intros Hb. unfold gojson.rune_width.
  change (byte_code b <? 128)%N with (byte_code b <? RuneSelf)%N.
  by rewrite Hb.
Qed.

Lemma high_byte_plain c :
  (128 <=? byte_code c)%N = true →
  (32 <=? byte_code c)%N = true
  ∧ gojson.byte_is c 34 = false ∧ gojson.byte_is c 92 = false
  ∧ (byte_code c <? RuneSelf)%N = false.
Proof.
  intros H%N.leb_le. unfold gojson.byte_is, RuneSelf. split_and!.
  - apply N.leb_le. lia.
  - apply N.eqb_neq. lia.
  - apply N.eqb_neq. lia.
  - apply N.ltb_ge. lia.
Qed.

Lemma raw_ok_high chunk Y :
  high_bytes chunk → raw_ok Y → raw_ok (chunk +:+ Y).
Proof.
  unfold high_bytes. induction chunk as [|c chunk IH]; [done|].
  simpl. intros [Hc Hrest]%andb_true_iff HY. rewrite append_cons.
  destruct (high_byte_plain _ Hc) as (H1 & H2 & H3 & _).
  apply raw_plain; auto.
Qed.

Lemma unquote_high b chunk n g Y :
  (byte_code b <? RuneSelf)%N = false →
  String.length chunk = n →
  gojson.rune_width (String b (chunk +:+ Y)) = S n →
  gojson.unquote_loop (S g) (String b (chunk +:+ Y))
  = String b (chunk +:+ gojson.unquote_loop g Y).
Proof.
  intros Hb Hlen Hw. cbn [gojson.unquote_loop].
  assert (gojson.byte_is b 92 = false) as ->.
  { unfold gojson.byte_is. apply N.eqb_neq. apply N.ltb_ge in Hb.
    unfold RuneSelf in Hb. lia. }
  rewrite Hw, (string_take_append _ _ _ Hlen), (string_drop_append _ _ _ Hlen).
  by rewrite append_cons.
Qed.

Lemma byte_is_eq c n : (n < 256)%N → gojson.byte_is c n = true → c = ascii_of_N n.
Proof.
  unfold gojson.byte_is. intros Hn H%N.eqb_eq.
  apply byte_code_inj. by rewrite byte_code_chr.
Qed.

Lemma line_separator_Some s h rest3 :
  gojson.line_separator s = Some (h, rest3) →
  (s = String (ascii_of_N 226) (String (ascii_of_N 128)
         (String (ascii_of_N 168) rest3)) ∧ h = ascii_of_N 56)
  ∨ (s = String (ascii_of_N 226) (String (ascii_of_N 128)
           (String (ascii_of_N 169) rest3)) ∧ h = ascii_of_N 57).
Proof.
  unfold gojson.line_separator.
  destruct s as [|b0 [|b1 [|b2 rest]]]; try done.
  destruct (gojson.byte_is b0 226) eqn:H0; [|done].
  destruct (gojson.byte_is b1 128) eqn:H1; [|done]. cbn [andb].
  apply byte_is_eq in H0; [|done]. apply byte_is_eq in H1; [|done]. subst.
  destruct (gojson.byte_is b2 168) eqn:H2.
  - apply byte_is_eq in H2; [|done]. subst. intros [= <- <-]. by left.
  - destruct (gojson.byte_is b2 169) eqn:H3; [|done].
    apply byte_is_eq in H3; [|done]. subst. intros [= <- <-]. by right.
Qed.

(** ** Quoting and unquoting a string *)

Lemma raw_ok_quote_loop f s : raw_ok (gojson.quote_loop f s).
Proof.
  revert s. induction f as [|f IH]; intros s; [constructor|].
  destruct s as [|b rest]; [constructor|]. cbn [gojson.quote_loop].
  destruct (byte_code b <? RuneSelf)%N eqn:Hb.
  - by apply quote_byte_raw_ok.
  - destruct (gojson.rune_width (String b rest)) as [|n] eqn:Hw.
    + apply raw_unicode; try (by eexists). apply IH.
    + destruct (gojson.line_separator (String b rest)) as [[h rest3]|] eqn:Hls.
      * apply line_separator_Some in Hls as [[_ ->]|[_ ->]];
          (apply raw_unicode; try (by eexists); apply IH).
      * destruct (rune_width_multi _ _ _ Hb Hw) as (_ & Hhigh & _).
        apply N.ltb_ge in Hb. unfold RuneSelf in Hb.
        rewrite append_cons. apply raw_plain.
        -- apply N.leb_le. lia.
        -- apply N.eqb_neq. lia.
        -- apply N.eqb_neq. lia.
        -- by apply raw_ok_high.
Qed.

Lemma unquote_quote_loop s :
  valid_utf8 s →
  ∀ f g, (String.length s ≤ f)%nat →
         (String.length (gojson.quote_loop f s) ≤ g)%nat →
         gojson.unquote_loop g (gojson.quote_loop f s) = s.
Proof.
  induction 1 as [|s n Hw _ IH]; intros f g Hf Hg.
  - by destruct f, g.
  - destruct s as [|b rest]; [done|].
    destruct f as [|f]; [simpl in Hf; lia|].
    cbn [gojson.quote_loop] in *.
    destruct (byte_code b <? RuneSelf)%N eqn:Hb.
    + rewrite (rune_width_ascii _ _ Hb) in Hw. injection Hw as <-.
      cbn [gojson.string_drop] in IH.
      rewrite length_append in Hg.
      pose proof (length_quote_byte b) as Hq.
      destruct g as [|g]; [lia|].
      rewrite (unquote_quote_byte _ _ _ Hb). f_equal.
      apply IH; [simpl in Hf; lia|lia].
    + rewrite Hw in *.
      destruct (gojson.line_separator (String b rest)) as [[h rest3]|] eqn:Hls.
      * apply line_separator_Some in Hls as [[Hs ->]|[Hs ->]];
          rewrite Hs in *; injection Hw as <-;
          cbn [gojson.string_drop] in IH;
          (destruct g as [|g]; [simpl in Hg; lia|]);
          (etransitivity; [|apply (f_equal (λ x,
             String (ascii_of_N 226) (String (ascii_of_N 128) x)));
             apply f_equal, (IH f g)]);
          [reflexivity|simpl in Hf; lia|simpl in Hg; lia
          |reflexivity|simpl in Hf; lia|simpl in Hg; lia].
      * destruct (rune_width_multi _ _ _ Hb Hw) as (Hlen & _ & Hwidth).
        cbn [gojson.string_drop] in IH.
        rewrite append_cons in *. destruct g as [|g]; [simpl in Hg; lia|].
        rewrite (unquote_high b _ n _ _ Hb Hlen (Hwidth _)).
        rewrite IH.
        -- by rewrite string_take_drop.
        -- pose proof (length_string_drop n rest). simpl in Hf. lia.
        -- simpl in Hg. rewrite length_append in Hg. lia.
Qed.

Lemma unquote_quote_body s :
  valid_utf8 s → gojson.unquote (gojson.quote_body s) = s.
Proof.
  intros Hs. unfold gojson.unquote, gojson.quote_body.
  by apply unquote_quote_loop.
Qed.

(** ** Numbers *)

Lemma digit_chr m :
  (m < 10)%N →
  gojson.is_digit (gojson.chr (48 + m)) = true
  ∧ byte_code (gojson.chr (48 + m)) = (48 + m)%N.
Proof.
  intros Hm. unfold gojson.chr, gojson.is_digit.
  rewrite byte_code_chr by lia. split; [|done].
  apply andb_true_iff. split; apply N.leb_le; lia.
Qed.

Lemma digit_sub m : (48 + m - 48 = m)%N.
Proof. lia. Qed.

Lemma div_mod_10 (n : N) :
  10 * Z.of_N (n `div` 10) + Z.of_N (n `mod` 10) = Z.of_N n.
Proof. rewrite (N.div_mod n 10) at 3 by lia. lia. Qed.

Lemma div10_lt (n : N) (f : nat) :
  (n < 10 ^ N.of_nat (S f))%N → (n `div` 10 < 10 ^ N.of_nat f)%N.
Proof.
  intros Hn. apply N.Div0.div_lt_upper_bound.
  replace (N.of_nat (S f)) with (N.succ (N.of_nat f)) in Hn by lia.
  by rewrite N.pow_succ_r' in Hn.
Qed.

Lemma digits_loop_acc f n acc :
  gojson.digits_loop f n acc = gojson.digits_loop f n EmptyString +:+ acc.
Proof.
  revert n acc. induction f as [|f IH]; intros n acc; [done|].
  cbn [gojson.digits_loop]. destruct (n / 10 =? 0)%N; [done|].
  rewrite (IH _ (String _ acc)), (IH _ (String _ EmptyString)).
  by rewrite append_assoc.
Qed.

Lemma digits_loop_digits f n acc :
  (0 < f)%nat → (n < 10 ^ N.of_nat f)%N →
  gojson.digits_value (gojson.digits_loop f n acc) 0
  = gojson.digits_value acc (Z.of_N n).
Proof.
  revert n acc. induction f as [|f IH]; intros n acc Hf Hn; [lia|].
  cbn [gojson.digits_loop].
  assert (n mod 10 < 10)%N as Hm by (apply N.mod_lt; lia).
  destruct (digit_chr _ Hm) as [Hd Hc].
  destruct (n / 10 =? 0)%N eqn:Hq.
  - apply N.eqb_eq in Hq. cbn [gojson.digits_value].
    rewrite Hd, Hc, digit_sub. f_equal.
    rewrite <- (div_mod_10 n), Hq. lia.
  - apply N.eqb_neq in Hq.
    destruct f as [|f].
    { exfalso. apply Hq. apply N.div_small. simpl in Hn. lia. }
    rewrite IH; [|lia|].
    + cbn [gojson.digits_value]. rewrite Hd, Hc, digit_sub. f_equal.
      apply div_mod_10.
    + by apply div10_lt.
Qed.

(** The digits of a number: all of them are digits, there is at least
    one, and the first is [0] only for the number 0. *)
Lemma digits_loop_head f n acc :
  (0 < f)%nat → (n < 10 ^ N.of_nat f)%N →
  string_forallb gojson.is_digit acc = true →
  ∃ c ds,
    gojson.digits_loop f n acc = String c ds
    ∧ string_forallb gojson.is_digit (String c ds) = true
    ∧ (gojson.byte_is c 48 = true → n = 0%N ∧ ds = acc).
Proof.
  revert n acc. induction f as [|f IH]; intros n acc Hf Hn Hacc; [lia|].
  cbn [gojson.digits_loop].
  assert (n mod 10 < 10)%N as Hm by (apply N.mod_lt; lia).
  destruct (digit_chr _ Hm) as [Hd Hc].
  destruct (n / 10 =? 0)%N eqn:Hq.
  - apply N.eqb_eq in Hq. eexists _, _. split; [done|]. split.
    + simpl. by rewrite Hd.
    + unfold gojson.byte_is. rewrite Hc. intros H0%N.eqb_eq.
      split; [|done]. assert (n `mod` 10 = 0)%N as Hz by lia.
      apply N2Z.inj. rewrite <- (div_mod_10 n), Hq, Hz. lia.
  - apply N.eqb_neq in Hq.
    destruct f as [|f].
    { exfalso. apply Hq. apply N.div_small. simpl in Hn. lia. }
    destruct (IH (n / 10)%N (String (gojson.chr (48 + n mod 10)) acc))
      as (c & ds & Heq & Hall & Hzero).
    + lia.
    + by apply div10_lt.
    + simpl. by rewrite Hd.
    + exists c, ds. split; [done|]. split; [done|].
      intros H0. by destruct (Hzero H0).
Qed.

Lemma digit_not c k :
  gojson.is_digit c = true → (k < 48 ∨ 57 < k)%N → gojson.byte_is c k = false.
Proof.
  unfold gojson.is_digit, gojson.byte_is.
  intros [H1%N.leb_le H2%N.leb_le]%andb_true_iff Hk. apply N.eqb_neq. lia.
Qed.

Lemma int64_digits z :
  int64 z → (Z.to_N z < 10 ^ N.of_nat 20)%N ∧ (Z.to_N (- z) < 10 ^ N.of_nat 20)%N.
Proof.
  unfold int64. intros Hz.
  change (10 ^ N.of_nat 20)%N with 100000000000000000000%N. lia.
Qed.

Lemma ParseInt_digits n c ds :
  gojson.digits_loop 20 n EmptyString = String c ds →
  string_forallb gojson.is_digit (String c ds) = true →
  (n < 10 ^ N.of_nat 20)%N →
  gojson.digits_value (String c ds) 0 = Some (Z.of_N n).
Proof.
  intros Heq _ Hn. rewrite <- Heq.
  by rewrite digits_loop_digits by (done || lia).
Qed.

(** [ParseInt] reads back what [itoa] writes for a Go [int]. *)
Lemma ParseInt_itoa z : int64 z → gojson.ParseInt (gojson.itoa z) = Some z.
Proof.
  intros Hz. destruct (int64_digits z Hz) as [Hpos Hneg].
  unfold gojson.itoa. destruct (z <? 0) eqn:Hsign.
  - apply Z.ltb_lt in Hsign.
    destruct (digits_loop_head 20 (Z.to_N (- z)) EmptyString)
      as (c & ds & Heq & Hall & _); [lia|done|done|].
    unfold gojson.ParseInt.
    change (gojson.byte_is (gojson.chr 45) 45) with true. cbn match.
    rewrite Heq, (ParseInt_digits _ _ _ Heq Hall Hneg).
    unfold int64 in Hz.
    replace (- Z.of_N (Z.to_N (- z))) with z by lia.
    replace (- 2 ^ 63 <=? z) with true by (symmetry; apply Z.leb_le; lia).
    by replace (z <? 2 ^ 63) with true by (symmetry; apply Z.ltb_lt; lia).
  - apply Z.ltb_ge in Hsign.
    destruct (digits_loop_head 20 (Z.to_N z) EmptyString)
      as (c & ds & Heq & Hall & _); [lia|done|done|].
    unfold gojson.ParseInt. rewrite Heq.
    assert (gojson.byte_is c 45 = false) as ->.
    { apply digit_not; [|lia]. simpl in Hall.
      by apply andb_true_iff in Hall as [? _]. }
    rewrite (ParseInt_digits _ _ _ Heq Hall Hpos).
    unfold int64 in Hz.
    replace (Z.of_N (Z.to_N z)) with z by lia.
    replace (- 2 ^ 63 <=? z) with true by (symmetry; apply Z.leb_le; lia).
    by replace (z <? 2 ^ 63) with true by (symmetry; apply Z.ltb_lt; lia).
Qed.

Lemma span_digits_append ds x X :
  string_forallb gojson.is_digit ds = true → gojson.is_digit x = false →
  gojson.span_digits (ds +:+ String x X) = (ds, String x X).
Proof.
  intros Hds Hx. induction ds as [|c ds IH].
  - change (EmptyString +:+ String x X) with (String x X).
    cbn [gojson.span_digits]. by rewrite Hx.
  - simpl in Hds. apply andb_true_iff in Hds as [Hc Hds].
    rewrite append_cons. cbn [gojson.span_digits]. by rewrite Hc, IH.
Qed.

Lemma scan_frac_end lit x X :
  ends_number x → gojson.scan_frac lit (String x X) = Some (lit, String x X).
Proof.
  intros (_ & H46 & H101 & H69). unfold gojson.scan_frac, gojson.scan_exp.
  by rewrite H46, H101, H69.
Qed.

Lemma scan_number_digits sign c ds x X :
  string_forallb gojson.is_digit (String c ds) = true →
  (gojson.byte_is c 48 = true → ds = EmptyString) →
  ends_number x →
  (let s1 := String c ds +:+ String x X in
   match s1 with
   | String c s2 =>
       if gojson.byte_is c 48
       then gojson.scan_frac (sign +:+ String c EmptyString) s2
       else if gojson.is_digit c then
         let '(ds, rest) := gojson.span_digits s1 in
         gojson.scan_frac (sign +:+ ds) rest
       else None
   | EmptyString => None
   end) = Some (sign +:+ String c ds, String x X).
Proof.
  intros Hall Hzero Hx. cbn zeta. rewrite append_cons.
  destruct (gojson.byte_is c 48) eqn:H0.
  - rewrite (Hzero eq_refl). by apply scan_frac_end.
  - pose proof Hall as Hall'. simpl in Hall'.
    apply andb_true_iff in Hall' as [Hc _]. rewrite Hc.
    rewrite <- append_cons, (span_digits_append _ _ _ Hall (proj1 Hx)).
    by apply scan_frac_end.
Qed.

Lemma scan_number_itoa z x X :
  int64 z → ends_number x →
  gojson.scan_number (gojson.itoa z +:+ String x X)
  = Some (gojson.itoa z, String x X).
Proof.
  intros Hz Hx. destruct (int64_digits z Hz) as [Hpos Hneg].
  unfold gojson.itoa. destruct (z <? 0) eqn:Hsign.
  - destruct (digits_loop_head 20 (Z.to_N (- z)) EmptyString)
      as (c & ds & Heq & Hall & Hzero); [lia|done|done|].
    rewrite Heq, append_cons. unfold gojson.scan_number.
    change (gojson.byte_is (gojson.chr 45) 45) with true. cbn match.
    apply (scan_number_digits (String (gojson.chr 45) EmptyString));
      [done| |done]. intros H0. by destruct (Hzero H0).
  - destruct (digits_loop_head 20 (Z.to_N z) EmptyString)
      as (c & ds & Heq & Hall & Hzero); [lia|done|done|].
    rewrite Heq. unfold gojson.scan_number. rewrite append_cons.
    assert (gojson.byte_is c 45 = false) as ->.
    { apply digit_not; [|lia]. simpl in Hall.
      by apply andb_true_iff in Hall as [? _]. }
    rewrite <- append_cons.
    apply (scan_number_digits EmptyString); [done| |done].
    intros H0. by destruct (Hzero H0).
Qed.

Lemma itoa_head z :
  int64 z →
  ∃ c r, gojson.itoa z = String c r
         ∧ (gojson.is_digit c = true ∨ c = gojson.chr 45).
Proof.
  intros Hz. destruct (int64_digits z Hz) as [Hpos Hneg].
  unfold gojson.itoa. destruct (z <? 0).
  - eexists _, _. split; [done|by right].
  - destruct (digits_loop_head 20 (Z.to_N z) EmptyString)
      as (c & ds & Heq & Hall & _); [lia|done|done|].
    exists c, ds. split; [done|left]. simpl in Hall.
    by apply andb_true_iff in Hall as [? _].
Qed.

(** ** The scanner on what the encoder writes *)

Lemma delimiter_ends_number x : delimiter x → ends_number x.
Proof. by intros [-> | [-> | ->]]. Qed.

Lemma skip_space_delimiter x X :
  delimiter x → gojson.skip_space (String x X) = String x X.
Proof. by intros [-> | [-> | ->]]. Qed.

Lemma skip_space_starts c r :
  gojson.is_space c = false → gojson.skip_space (String c r) = String c r.
Proof. intros H. cbn [gojson.skip_space]. by rewrite H. Qed.

Lemma join_comma_cons t t2 r :
  gojson.join_comma (t :: t2 :: r)
  = t +:+ String (gojson.chr 44) (gojson.join_comma (t2 :: r)).
Proof. done. Qed.

Lemma length_join_comma texts :
  Forall starts_value texts →
  (length texts ≤ String.length (gojson.join_comma texts))%nat.
Proof.
  induction 1 as [|t r (c & s & -> & _) Hr IH]; [done|].
  destruct r as [|t2 r].
  - simpl. lia.
  - rewrite join_comma_cons, length_append.
    cbn [String.length length] in *. lia.
Qed.

Lemma scan_elements_join scan texts vs :
  Forall2 (scans_to scan) texts vs → texts ≠ [] →
  ∀ fuel X, (length texts ≤ fuel)%nat →
    gojson.scan_elements scan fuel
      (gojson.join_comma texts +:+ String (gojson.chr 93) X)
    = Some (vs, X).
Proof.
  induction 1 as [|t v r vs [_ Ht] Hr IH]; [done|]. intros _ fuel X Hfuel.
  destruct fuel as [|fuel]; [simpl in Hfuel; lia|].
  destruct r as [|t2 r].
  - apply Forall2_nil_inv_l in Hr as ->.
    cbn [gojson.join_comma gojson.scan_elements].
    rewrite Ht by (right; by left).
    by rewrite skip_space_delimiter by (right; by left).
  - rewrite join_comma_cons, append_assoc, append_cons.
    cbn [gojson.scan_elements].
    rewrite Ht by by left.
    rewrite skip_space_delimiter by by left.
    change (gojson.byte_is (gojson.chr 44) 44) with true. cbn match.
    rewrite IH; [done|done|]. simpl in Hfuel. simpl. lia.
Qed.

Lemma scans_to_starts scan texts vs :
  Forall2 (scans_to scan) texts vs → Forall starts_value texts.
Proof. induction 1 as [|???? [? _]]; by constructor. Qed.

Lemma scan_value_array d s1 :
  gojson.scan_value (S (S d)) (String (gojson.chr 91) s1)
  = match gojson.skip_space s1 with
    | EmptyString => None
    | String c s2 =>
        if gojson.byte_is c 93 then Some (gojson.Array [], s2)
        else match gojson.scan_elements (gojson.scan_value (S d))
                     (String.length s1) s1 with
             | Some (vs, rest) => Some (gojson.Array vs, rest)
             | None => None
             end
    end.
Proof. done. Qed.

Lemma scan_value_object d s1 :
  gojson.scan_value (S (S d)) (String (gojson.chr 123) s1)
  = match gojson.skip_space s1 with
    | EmptyString => None
    | String c s2 =>
        if gojson.byte_is c 125 then Some (gojson.Object [], s2)
        else match gojson.scan_members (gojson.scan_value (S d))
                     (String.length s1) s1 with
             | Some (ms, rest) => Some (gojson.Object ms, rest)
             | None => None
             end
    end.
Proof. done. Qed.

Lemma scan_value_literal d s1 :
  gojson.scan_value (S d) (String gojson.dq s1)
  = match gojson.scan_string s1 with
    | Some (raw, rest) => Some (gojson.Str raw, rest)
    | None => None
    end.
Proof. done. Qed.

(** An array of one value or more. *)
Lemma scan_array d texts vs R :
  texts ≠ [] → Forall2 (scans_to (gojson.scan_value (S d))) texts vs →
  gojson.scan_value (S (S d)) (gojson.brackets 91 93 texts +:+ R)
  = Some (gojson.Array vs, R).
Proof.
  intros Hne Hall. unfold gojson.brackets.
  rewrite append_cons, append_assoc, append_cons.
  change (EmptyString +:+ R) with R. rewrite scan_value_array.
  pose proof (scans_to_starts _ _ _ Hall) as Hstarts.
  pose proof (length_join_comma _ Hstarts) as Hlen.
  destruct texts as [|t r]; [done|].
  pose proof (Forall_inv Hstarts) as (c & s & -> & Hsp & H93 & _).
  assert (∃ rest, gojson.join_comma (String c s :: r)
                  +:+ String (gojson.chr 93) R = String c rest) as [rest Hrest].
  { destruct r; [by eexists|]. rewrite join_comma_cons. by eexists. }
  rewrite Hrest at 1. rewrite skip_space_starts, H93 by done.
  rewrite scan_elements_join with (vs := vs); [done|done|done|].
  rewrite length_append. lia.
Qed.

Lemma member_append name value R :
  gojson.member name value +:+ R
  = String gojson.dq (name +:+ String gojson.dq
                               (String (gojson.chr 58) (value +:+ R))).
Proof.
  unfold gojson.member. by rewrite append_cons, append_assoc, !append_cons.
Qed.

Lemma scan_members_step scan fuel key text v x X :
  raw_ok key → scan (text +:+ String x X) = Some (v, String x X) →
  delimiter x →
  gojson.scan_members scan (S fuel) (gojson.member key text +:+ String x X)
  = if gojson.byte_is x 44 then
      match gojson.scan_members scan fuel X with
      | Some (ms, s6) => Some ((key, v) :: ms, s6)
      | None => None
      end
    else if gojson.byte_is x 125 then Some ([(key, v)], X)
    else None.
Proof.
  intros Hkey Hv Hx. rewrite member_append. cbn [gojson.scan_members].
  change (gojson.skip_space (String gojson.dq ?s)) with (String gojson.dq s).
  change (gojson.byte_is gojson.dq 34) with true. cbn match.
  rewrite scan_string_raw by done.
  change (gojson.skip_space (String (gojson.chr 58) ?s))
    with (String (gojson.chr 58) s).
  change (gojson.byte_is (gojson.chr 58) 58) with true. cbn match.
  by rewrite Hv, skip_space_delimiter.
Qed.

Lemma scan_members_join scan members kvs :
  Forall2 (member_scans scan) members kvs → members ≠ [] →
  ∀ fuel X, (length members ≤ fuel)%nat →
    gojson.scan_members scan fuel
      (gojson.join_comma (map (λ m, gojson.member m.1 m.2) members)
       +:+ String (gojson.chr 125) X)
    = Some (kvs, X).
Proof.
  induction 1 as [|[key text] [key' v] r kvs (Hkey & Heq & _ & Ht) Hr IH];
    [done|].
  intros _ fuel X Hfuel. simpl in Hkey, Heq, Ht. subst key'.
  destruct fuel as [|fuel]; [simpl in Hfuel; lia|].
  destruct r as [|m2 r].
  - apply Forall2_nil_inv_l in Hr as ->. cbn [map gojson.join_comma fst snd].
    rewrite (scan_members_step scan fuel key text v);
      [done|done|by apply Ht; right; right|by right; right].
  - cbn [map fst snd]. rewrite join_comma_cons, append_assoc, append_cons.
    rewrite (scan_members_step scan fuel key text v);
      [|done|by apply Ht; left|by left].
    change (gojson.byte_is (gojson.chr 44) 44) with true. cbn match.
    cbn [map] in IH. rewrite IH; [done|done|]. simpl in Hfuel. simpl. lia.
Qed.

Lemma member_starts name value : starts_value (gojson.member name value).
Proof. by eexists _, _. Qed.

(** An object of one member or more. *)
Lemma scan_object d members kvs R :
  members ≠ [] →
  Forall2 (member_scans (gojson.scan_value (S d))) members kvs →
  gojson.scan_value (S (S d))
    (gojson.brackets 123 125 (map (λ m, gojson.member m.1 m.2) members) +:+ R)
  = Some (gojson.Object kvs, R).
Proof.
  intros Hne Hall. unfold gojson.brackets.
  rewrite append_cons, append_assoc, append_cons.
  change (EmptyString +:+ R) with R. rewrite scan_value_object.
  assert (length members
          ≤ String.length
              (gojson.join_comma (map (λ m, gojson.member m.1 m.2) members)))%nat
    as Hlen.
  { rewrite <- (length_map (λ m, gojson.member m.1 m.2)).
    apply length_join_comma, Forall_map, Forall_true.
    intros. apply member_starts. }
  destruct members as [|[key text] r]; [done|].
  assert (∃ rest,
            gojson.join_comma
              (map (λ m, gojson.member m.1 m.2) ((key, text) :: r))
            +:+ String (gojson.chr 125) R = String gojson.dq rest)
    as [rest Hrest].
  { destruct r; [by eexists|]. cbn [map]. rewrite join_comma_cons.
    by eexists. }
  rewrite Hrest at 1.
  change (gojson.skip_space (String gojson.dq rest))
    with (String gojson.dq rest).
  change (gojson.byte_is gojson.dq 125) with false. cbn match.
  rewrite scan_members_join with (kvs := kvs); [done|done|done|].
  rewrite length_append. lia.
Qed.

Lemma plain_text_raw_ok s : plain_text s → raw_ok s.
Proof.
  unfold plain_text. induction s as [|c s IH]; [constructor|].
  cbn [string_forallb].
  intros [[[H1 H2]%andb_true_iff H3]%andb_true_iff Hs]%andb_true_iff.
  apply raw_plain; [done|by apply negb_true_iff..|by apply IH].
Qed.

Lemma literal_append body R :
  gojson.literal body +:+ R
  = String gojson.dq (body +:+ String gojson.dq R).
Proof. unfold gojson.literal. by rewrite append_cons, append_assoc. Qed.

Lemma scans_literal d raw :
  raw_ok raw →
  scans_to (gojson.scan_value (S d)) (gojson.literal raw) (gojson.Str raw).
Proof.
  intros Hraw. split; [by eexists _, _|]. intros x X _.
  by rewrite literal_append, scan_value_literal, scan_string_raw.
Qed.

Lemma scans_bool d (b : bool) :
  scans_to (gojson.scan_value (S d)) (if b then "true" else "false")
    (gojson.Bool b).
Proof.
  split; [destruct b; by eexists _, _|]. intros x X _. by destruct b.
Qed.

Lemma number_head c :
  gojson.is_digit c = true ∨ c = gojson.chr 45 →
  gojson.is_space c = false ∧ gojson.byte_is c 93 = false
  ∧ gojson.byte_is c 125 = false
  ∧ ∀ d s1, gojson.scan_value (S d) (String c s1)
            = match gojson.scan_number (String c s1) with
              | Some (lit, rest) => Some (gojson.Number lit, rest)
              | None => None
              end.
Proof.
  intros [H | ->]; [|done].
  destruct c as [[] [] [] [] [] [] [] []];
    try (vm_compute in H; discriminate H); done.
Qed.

Lemma scans_number d z :
  int64 z →
  scans_to (gojson.scan_value (S d)) (gojson.itoa z)
    (gojson.Number (gojson.itoa z)).
Proof.
  intros Hz. destruct (itoa_head z Hz) as (c & r & Heq & Hc).
  destruct (number_head c Hc) as (Hsp & H93 & H125 & Hscan). split.
  - by exists c, r.
  - intros x X Hx. rewrite Heq, append_cons, Hscan.
    rewrite <- append_cons, <- Heq.
    by rewrite scan_number_itoa by (done || by apply delimiter_ends_number).
Qed.

Lemma scans_array d texts vs :
  texts ≠ [] → Forall2 (scans_to (gojson.scan_value (S d))) texts vs →
  scans_to (gojson.scan_value (S (S d))) (gojson.brackets 91 93 texts)
    (gojson.Array vs).
Proof.
  intros Hne Hall. split; [by eexists _, _|]. intros x X _.
  by apply scan_array.
Qed.

Lemma scans_object d members kvs :
  members ≠ [] →
  Forall2 (member_scans (gojson.scan_value (S d))) members kvs →
  scans_to (gojson.scan_value (S (S d)))
    (gojson.brackets 123 125 (map (λ m, gojson.member m.1 m.2) members))
    (gojson.Object kvs).
Proof.
  intros Hne Hall. split; [by eexists _, _|]. intros x X _.
  by apply scan_object.
Qed.

Lemma scans_tags d tags :
  Forall2 (scans_to (gojson.scan_value (S d)))
    (map (λ tag, gojson.literal (gojson.quote_body tag)) tags)
    (map (λ tag, gojson.Str (gojson.quote_body tag)) tags).
Proof.
  induction tags as [|tag tags IH]; constructor; [|done].
  apply scans_literal, raw_ok_quote_loop.
Qed.

Section RoundTrip.

Variable time_Format : Time → option string.
Variable time_Parse : string → option Time.
Variable unicode_fold : string → string.

Lemma member_scans_intro d key text v :
  plain_text key → scans_to (gojson.scan_value (S d)) text v →
  member_scans (gojson.scan_value (S d)) (key, text) (key, v).
Proof. intros Hkey Hv. split; [by apply plain_text_raw_ok|done]. Qed.

Lemma scans_Text d text :
  member_scans (gojson.scan_value (S d))
    ("Text", gojson.literal (gojson.quote_body text))
    ("Text", gojson.Str (gojson.quote_body text)).
Proof.
  apply member_scans_intro; [reflexivity|].
  apply scans_literal, raw_ok_quote_loop.
Qed.

Lemma scans_Done d (b : bool) :
  member_scans (gojson.scan_value (S d))
    ("Done", if b then "true" else "false") ("Done", gojson.Bool b).
Proof. apply member_scans_intro; [reflexivity|]. apply scans_bool. Qed.

Lemma scans_Priority d z :
  int64 z →
  member_scans (gojson.scan_value (S d))
    ("Priority", gojson.itoa z) ("Priority", gojson.Number (gojson.itoa z)).
Proof.
  intros Hz. apply member_scans_intro; [reflexivity|].
  apply scans_number, Hz.
Qed.

Lemma scans_time d key t :
  plain_text key → plain_text t →
  member_scans (gojson.scan_value (S d))
    (key, gojson.literal t) (key, gojson.Str t).
Proof.
  intros Hkey Ht. apply member_scans_intro; [exact Hkey|].
  apply scans_literal, plain_text_raw_ok, Ht.
Qed.

Lemma scans_Tags d tag tags :
  member_scans (gojson.scan_value (S (S d)))
    ("Tags",
     gojson.brackets 91 93
       (map (λ tag, gojson.literal (gojson.quote_body tag)) (tag :: tags)))
    ("Tags",
     gojson.Array
       (map (λ tag, gojson.Str (gojson.quote_body tag)) (tag :: tags))).
Proof.
  apply member_scans_intro; [reflexivity|].
  apply scans_array; [discriminate|]. apply scans_tags.
Qed.

Lemma scan_Item d it text :
  encodable time_Format time_Parse it →
  gojson.encode_Item time_Format it = Some text →
  scans_to (gojson.scan_value (S (S (S d)))) text (Item_value time_Format it).
Proof.
  unfold gojson.encode_Item, gojson.Item_members, Item_value, encodable.
  destruct it as [text' done prio due tags created].
  cbn [Text Done Item_Priority DueDate Tags CreatedAt].
  intros (Htext & Htags & Hprio & Hcreated & Hdue).
  destruct Hcreated as (c & Hc & Hplain & _). rewrite Hc.
  destruct due as [due|].
  - destruct (Hdue due eq_refl) as (t & Ht & Hplain' & _). rewrite Ht.
    destruct tags as [|tag tags']; cbn [app default from_option id];
      intros Heq; apply (inj Some) in Heq; rewrite <- Heq;
      (apply scans_object; [discriminate|]).
    + constructor; [apply scans_Text|].
      constructor; [apply scans_Done|].
      constructor; [apply scans_Priority, Hprio|].
      constructor; [apply scans_time; [reflexivity|exact Hplain']|].
      constructor; [apply scans_time; [reflexivity|exact Hplain]|].
      constructor.
    + constructor; [apply scans_Text|].
      constructor; [apply scans_Done|].
      constructor; [apply scans_Priority, Hprio|].
      constructor; [apply scans_time; [reflexivity|exact Hplain']|].
      constructor; [apply scans_Tags|].
      constructor; [apply scans_time; [reflexivity|exact Hplain]|].
      constructor.
  - destruct tags as [|tag tags']; cbn [app default from_option id];
      intros Heq; apply (inj Some) in Heq; rewrite <- Heq;
      (apply scans_object; [discriminate|]).
    + constructor; [apply scans_Text|].
      constructor; [apply scans_Done|].
      constructor; [apply scans_Priority, Hprio|].
      constructor; [apply scans_time; [reflexivity|exact Hplain]|].
      constructor.
    + constructor; [apply scans_Text|].
      constructor; [apply scans_Done|].
      constructor; [apply scans_Priority, Hprio|].
      constructor; [apply scans_Tags|].
      constructor; [apply scans_time; [reflexivity|exact Hplain]|].
      constructor.
Qed.

Lemma scan_Items d items texts :
  Forall (encodable time_Format time_Parse) items →
  gojson.encode_Items time_Format items = Some texts →
  Forall2 (scans_to (gojson.scan_value (S (S (S d))))) texts
    (map (Item_value time_Format) items).
Proof.
  intros Hall. revert texts.
  induction Hall as [|it items Hit _ IH]; intros texts.
  - intros [= <-]. constructor.
  - cbn [gojson.encode_Items map].
    destruct (gojson.encode_Item time_Format it) as [text|] eqn:Htext;
      [|done].
    destruct (gojson.encode_Items time_Format items) as [texts'|]; [|done].
    intros [= <-]. constructor; [by apply scan_Item|by apply IH].
Qed.

Lemma append_nil_r s : s +:+ EmptyString = s.
Proof. induction s as [|c s IH]; [done|]. by rewrite append_cons, IH. Qed.

Lemma maxNestingDepth_eq :
  S gojson.maxNestingDepth
  = S (S (S (S (S (Nat.pred (Nat.pred (Nat.pred (Nat.pred
                      gojson.maxNestingDepth)))))))).
Proof. reflexivity. Qed.

(** The text of a non-empty List is well-formed, and denotes an object
    whose one member holds the values of the items. *)
Lemma checkValid_Marshal items texts :
  items ≠ [] →
  Forall (encodable time_Format time_Parse) items →
  gojson.encode_Items time_Format items = Some texts →
  gojson.checkValid
    (gojson.brackets 123 125
       [gojson.member "Items" (gojson.brackets 91 93 texts)])
  = Some (gojson.Object
            [("Items", gojson.Array (map (Item_value time_Format) items))]).
Proof.
  intros Hne Hall Htexts. unfold gojson.checkValid.
  rewrite maxNestingDepth_eq.
  generalize (Nat.pred (Nat.pred (Nat.pred (Nat.pred
                gojson.maxNestingDepth)))). intros d.
  rewrite <- (append_nil_r (gojson.brackets 123 125 _)).
  rewrite (scan_object (S (S (S d))) [("Items", gojson.brackets 91 93 texts)]
             [("Items", gojson.Array (map (Item_value time_Format) items))]).
  - reflexivity.
  - discriminate.
  - constructor; [|constructor].
    apply member_scans_intro; [reflexivity|].
    apply scans_array; [|by apply scan_Items].
    intros ->. destruct items as [|it items]; [done|].
    cbn [gojson.encode_Items] in Htexts.
    destruct (gojson.encode_Item time_Format it); [|discriminate].
    destruct (gojson.encode_Items time_Format items); discriminate.
Qed.

(** *** Decoding the values *)

Lemma decode_tags tags saved :
  Forall valid_utf8 tags →
  gojson.decode_elems EmptyString gojson.decode_string
    (map (λ tag, gojson.Str (gojson.quote_body tag)) tags) [] saved
  = (tags, saved, None).
Proof.
  induction 1 as [|tag tags Htag _ IH]; [done|].
  cbn [map gojson.decode_elems gojson.decode_string head tail default
       from_option id].
  by rewrite IH, unquote_quote_body.
Qed.

Lemma decode_member_Text raw it saved :
  gojson.decode_Item_member time_Parse unicode_fold "Text" (gojson.Str raw)
    it saved
  = (set_Text (gojson.unquote raw) it, saved, None).
Proof. reflexivity. Qed.

Lemma decode_member_Done b it saved :
  gojson.decode_Item_member time_Parse unicode_fold "Done" (gojson.Bool b)
    it saved
  = (set_Done b it, saved, None).
Proof. reflexivity. Qed.

Lemma decode_member_Priority lit z it saved :
  gojson.ParseInt lit = Some z →
  gojson.decode_Item_member time_Parse unicode_fold "Priority"
    (gojson.Number lit) it saved
  = (set_Priority z it, saved, None).
Proof.
  intros Hz.
  change (gojson.decode_Item_member time_Parse unicode_fold "Priority"
            (gojson.Number lit) it saved)
    with (let '(x, saved1, stop) :=
            gojson.decode_int (gojson.Number lit) (Item_Priority it) saved in
          (set_Priority x it, saved1, stop)).
  unfold gojson.decode_int. by rewrite Hz.
Qed.

Lemma decode_member_DueDate raw t it saved :
  time_Parse raw = Some t →
  gojson.decode_Item_member time_Parse unicode_fold "DueDate"
    (gojson.Str raw) it saved
  = (set_DueDate (Some t) it, saved, None).
Proof.
  intros Ht.
  change (gojson.decode_Item_member time_Parse unicode_fold "DueDate"
            (gojson.Str raw) it saved)
    with (let '(x, saved1, stop) :=
            gojson.decode_Time_ptr time_Parse (gojson.Str raw) (DueDate it)
              saved in
          (set_DueDate x it, saved1, stop)).
  unfold gojson.decode_Time_ptr, gojson.decode_Time. by rewrite Ht.
Qed.

Lemma decode_member_Tags vs tags it saved :
  gojson.decode_elems EmptyString gojson.decode_string vs (Tags it) saved
  = (tags, saved, None) →
  gojson.decode_Item_member time_Parse unicode_fold "Tags" (gojson.Array vs)
    it saved
  = (set_Tags tags it, saved, None).
Proof.
  intros Htags.
  change (gojson.decode_Item_member time_Parse unicode_fold "Tags"
            (gojson.Array vs) it saved)
    with (let '(x, saved1, stop) :=
            gojson.decode_slice EmptyString gojson.decode_string
              (gojson.Array vs) (Tags it) saved in
          (set_Tags x it, saved1, stop)).
  unfold gojson.decode_slice. by rewrite Htags.
Qed.

Lemma decode_member_CreatedAt raw t it saved :
  time_Parse raw = Some t →
  gojson.decode_Item_member time_Parse unicode_fold "CreatedAt"
    (gojson.Str raw) it saved
  = (mkItem (Text it) (Done it) (Item_Priority it) (DueDate it) (Tags it) t,
     saved, None).
Proof.
  intros Ht.
  change (gojson.decode_Item_member time_Parse unicode_fold "CreatedAt"
            (gojson.Str raw) it saved)
    with (let '(x, saved1, stop) :=
            gojson.decode_Time time_Parse (gojson.Str raw) (CreatedAt it)
              saved in
          (mkItem (Text it) (Done it) (Item_Priority it) (DueDate it)
             (Tags it) x, saved1, stop)).
  unfold gojson.decode_Time. by rewrite Ht.
Qed.

(** The value of an Item decodes, into the zero Item, to the Item. *)
Lemma decode_Item_value it saved :
  encodable time_Format time_Parse it →
  gojson.decode_Item time_Parse unicode_fold (Item_value time_Format it)
    gojson.Item_zero saved
  = (it, saved, None).
Proof.
  unfold Item_value, encodable.
  destruct it as [text done prio due tags created].
  cbn [Text Done Item_Priority DueDate Tags CreatedAt].
  intros (Htext & Htags & Hprio & Hcreated & Hdue).
  destruct Hcreated as (c & Hc & _ & Hpc). rewrite Hc.
  pose proof (unquote_quote_body text Htext) as Hq.
  pose proof (ParseInt_itoa prio Hprio) as Hp.
  destruct due as [due|].
  - destruct (Hdue due eq_refl) as (t & Ht & _ & Hpt). rewrite Ht.
    destruct tags as [|tag tags'];
      cbn [app default from_option id gojson.decode_Item
           gojson.decode_Item_members].
    + rewrite decode_member_Text, decode_member_Done.
      rewrite (decode_member_Priority _ prio) by exact Hp.
      rewrite (decode_member_DueDate _ due) by exact Hpt.
      rewrite (decode_member_CreatedAt _ created) by exact Hpc.
      unfold set_Text, set_Done, set_Priority, set_DueDate, gojson.Item_zero.
      cbn [Text Done Item_Priority DueDate Tags CreatedAt]. by rewrite Hq.
    + rewrite decode_member_Text, decode_member_Done.
      rewrite (decode_member_Priority _ prio) by exact Hp.
      rewrite (decode_member_DueDate _ due) by exact Hpt.
      rewrite (decode_member_Tags _ (tag :: tags'))
        by (apply decode_tags, Htags).
      rewrite (decode_member_CreatedAt _ created) by exact Hpc.
      unfold set_Text, set_Done, set_Priority, set_DueDate, set_Tags,
        gojson.Item_zero.
      cbn [Text Done Item_Priority DueDate Tags CreatedAt]. by rewrite Hq.
  - destruct tags as [|tag tags'];
      cbn [app default from_option id gojson.decode_Item
           gojson.decode_Item_members].
    + rewrite decode_member_Text, decode_member_Done.
      rewrite (decode_member_Priority _ prio) by exact Hp.
      rewrite (decode_member_CreatedAt _ created) by exact Hpc.
      unfold set_Text, set_Done, set_Priority, gojson.Item_zero.
      cbn [Text Done Item_Priority DueDate Tags CreatedAt]. by rewrite Hq.
    + rewrite decode_member_Text, decode_member_Done.
      rewrite (decode_member_Priority _ prio) by exact Hp.
      rewrite (decode_member_Tags _ (tag :: tags'))
        by (apply decode_tags, Htags).
      rewrite (decode_member_CreatedAt _ created) by exact Hpc.
      unfold set_Text, set_Done, set_Priority, set_Tags, gojson.Item_zero.
      cbn [Text Done Item_Priority DueDate Tags CreatedAt]. by rewrite Hq.
Qed.

(** Encodable items are encoded. *)
Lemma encode_Item_encodable it :
  encodable time_Format time_Parse it →
  is_Some (gojson.encode_Item time_Format it).
Proof.
  unfold gojson.encode_Item, gojson.Item_members.
  intros (_ & _ & _ & (c & Hc & _) & Hdue). rewrite Hc.
  destruct (DueDate it) as [due|]; [|by eexists].
  destruct (Hdue due eq_refl) as (t & Ht & _). rewrite Ht. by eexists.
Qed.

Lemma encode_Items_encodable items :
  Forall (encodable time_Format time_Parse) items →
  is_Some (gojson.encode_Items time_Format items).
Proof.
  induction 1 as [|it items Hit _ [texts IH]]; [by eexists|].
  cbn [gojson.encode_Items].
  destruct (encode_Item_encodable it Hit) as [text Htext].
  rewrite Htext, IH. by eexists.
Qed.

Lemma decode_Items items saved :
  Forall (encodable time_Format time_Parse) items →
  gojson.decode_elems gojson.Item_zero
    (gojson.decode_Item time_Parse unicode_fold)
    (map (Item_value time_Format) items) [] saved
  = (items, saved, None).
Proof.
  induction 1 as [|it items Hit _ IH]; [done|].
  cbn [map gojson.decode_elems head tail default from_option id].
  by rewrite decode_Item_value, IH.
Qed.

(** What [Marshal] writes for a List of encodable items, [Unmarshal] reads
    into an empty List as that List. *)
Lemma Unmarshal_Marshal nil_Items l data :
  Forall (encodable time_Format time_Parse) (Items l) →
  gojson.Marshal time_Format nil_Items l = inl data →
  gojson.Unmarshal time_Parse unicode_fold data NewList = (l, None).
Proof.
  destruct l as [items]. unfold gojson.Marshal. cbn [Items].
  intros Hall. destruct items as [|it items].
  - intros [= <-]. by destruct nil_Items.
  - destruct (gojson.encode_Items time_Format (it :: items)) as [texts|]
      eqn:Htexts; [|discriminate].
    intros Heq. apply (inj inl) in Heq. rewrite <- Heq.
    unfold gojson.Unmarshal.
    rewrite (checkValid_Marshal (it :: items)) by done.
    change (gojson.decode_List time_Parse unicode_fold
              (gojson.Object [("Items", ?v)]) NewList None)
      with (let '(items, saved1, stop) :=
              gojson.decode_slice gojson.Item_zero
                (gojson.decode_Item time_Parse unicode_fold) v [] None in
            match stop with
            | Some err => (mkList items, saved1, Some err)
            | None => (mkList items, saved1, None)
            end).
    unfold gojson.decode_slice.
    by rewrite decode_Items.
Qed.

End RoundTrip.

(** ** Save, then Load *)

Lemma valid_utf8_ascii s : isASCII s = true → valid_utf8 s.
Proof.
  unfold isASCII. induction s as [|c s IH]; [constructor|].
  cbn [string_forallb]. intros [Hc Hs]%andb_true_iff.
  apply (valid_utf8_rune _ 0); [by apply rune_width_ascii|by apply IH].
Qed.

(** The encoder fails on no List of encodable items. *)
Lemma Marshal_encodable time_Format time_Parse nil_Items l :
  Forall (encodable time_Format time_Parse) (Items l) →
  ∃ data, gojson.Marshal time_Format nil_Items l = inl data.
Proof.
  intros Hall. unfold gojson.Marshal.
  destruct (Items l) as [|it items] eqn:Hitems; [by eexists|].
  destruct (encode_Items_encodable time_Format time_Parse _ Hall)
    as [texts Htexts].
  rewrite Htexts. by eexists.
Qed.

(** A time stamp that [Time.MarshalJSON] refuses makes [Save] fail, and
    nothing is written. *)
Lemma Save_refused_time time_Format nil_Items filename it items
    (fs : FS string) :
  time_Format (CreatedAt it) = None
  ∨ (∃ d, DueDate it = Some d ∧ time_Format d = None) →
  Save (gojson.Marshal time_Format nil_Items) filename
    {| Items := it :: items |} fs
  = (fs, Some (MarshalerError "Time.MarshalJSON")).
Proof.
  intros Hrefused.
  assert (gojson.encode_Item time_Format it = None) as Hnone.
  { unfold gojson.encode_Item, gojson.Item_members.
    destruct (time_Format (CreatedAt it)) as [c|] eqn:Hc; [|done].
    destruct Hrefused as [[=] | (d & Hd & Hnone)]. by rewrite Hd, Hnone. }
  unfold Save, gojson.Marshal. cbn [Items gojson.encode_Items].
  by rewrite Hnone.
Qed.

(** [Save] and [Load] do not reproduce every List.  A path in a directory
    that does not exist is refused, and nothing is there to load.  A file
    that can be written but not read is saved and not loaded.  A text that
    is not well-formed UTF-8 is saved and loaded without error, and comes
    back as U+FFFD.  A due date in the year 10000 is not encoded, and
    [Save] writes nothing. *)
Lemma Save_then_Load_fails :
  (Save (gojson.Marshal utc_Format false) no_directory three_tasks
     fs_no_directory
   = (fs_no_directory, Some (PathError "open" no_directory))
   ∧ Load (gojson.Unmarshal utc_Parse id) no_directory NewList
       fs_no_directory
     = (NewList, Some (PathError "open" no_directory)))
  ∧ ((Save (gojson.Marshal utc_Format false) "todos.json" three_tasks
        fs_write_only).2 = None
     ∧ Load (gojson.Unmarshal utc_Parse id) "todos.json" NewList
         (Save (gojson.Marshal utc_Format false) "todos.json" three_tasks
            fs_write_only).1
       = (NewList, Some (PathError "open" "todos.json")))
  ∧ ((Save (gojson.Marshal utc_Format false) "todos.json" invalid_task
        fs_empty).2 = None
     ∧ Load (gojson.Unmarshal utc_Parse id) "todos.json" NewList
         (Save (gojson.Marshal utc_Format false) "todos.json" invalid_task
            fs_empty).1
       = (replaced_task, None)
     ∧ ¬ same_items invalid_task replaced_task)
  ∧ Save (gojson.Marshal utc_Format false) "todos.json" far_task fs_empty
    = (fs_empty, Some (MarshalerError "Time.MarshalJSON")).
Proof.
  split_and!; try (vm_compute; reflexivity).
  intros Hsame. apply Forall2_cons_1 in Hsame as [[Htext _] _].
  vm_compute in Htext. discriminate Htext.
Qed.

(** C4, amended.  For a List whose texts and tags are well-formed UTF-8
    and whose time stamps the RFC 3339 codec writes and reads back, [Save]
    to a path that the file system lets write and read succeeds, and
    [Load] from that path into a fresh empty List succeeds and gives the
    List back: the same items in the same order, each with the same text,
    done flag, priority, due date or absence of one, tags and creation
    time. *)
Theorem Save_then_Load_json (time_Format : Time → option string)
    (time_Parse : string → option Time) (unicode_fold : string → string)
    (nil_Items : bool) (filename : string) (l : List) (fs : FS string) :
  Forall (encodable time_Format time_Parse) (Items l) →
  filename ∉ unwritable fs →
  filename ∉ unreadable fs →
  ∃ fs' l',
    Save (gojson.Marshal time_Format nil_Items) filename l fs = (fs', None)
    ∧ Load (gojson.Unmarshal time_Parse unicode_fold) filename NewList fs'
      = (l', None)
    ∧ l' = l
    ∧ same_items l l'.
Proof.
  intros Hall Hwrite Hread.
  destruct (Marshal_encodable time_Format time_Parse nil_Items l Hall)
    as [data Hdata].
  assert (∃ fs', Save (gojson.Marshal time_Format nil_Items) filename l fs
                 = (fs', None)
                 ∧ os_WriteFile filename data fs = (fs', None))
    as (fs' & Hsave & Hw).
  { unfold Save. rewrite Hdata. unfold os_WriteFile.
    rewrite bool_decide_eq_false_2 by done. by eexists. }
  exists fs', l. split_and!; [done| |done|apply same_items_refl].
  rewrite (Load_unmarshal _ _ _ _ data)
    by by eapply os_ReadFile_WriteFile.
  by eapply Unmarshal_Marshal.
Qed.

Lemma Save_then_Load_json_witness :
  ∃ fs' l',
    Save (gojson.Marshal utc_Format false) "todos.json" saved_tasks fs_empty
    = (fs', None)
    ∧ Load (gojson.Unmarshal utc_Parse id) "todos.json" NewList fs'
      = (l', None)
    ∧ l' = saved_tasks
    ∧ same_items saved_tasks l'.
Proof.
  apply (Save_then_Load_json utc_Format utc_Parse id false "todos.json"
           saved_tasks fs_empty).
  - unfold saved_tasks. cbn [Items].
    constructor; [|constructor; [|constructor]].
    + split_and!.
      * apply valid_utf8_ascii. reflexivity.
      * constructor; [apply valid_utf8_ascii; reflexivity|].
        constructor; [apply valid_utf8_ascii; reflexivity|constructor].
      * unfold int64. split; [vm_compute; discriminate|reflexivity].
      * eexists. split; [reflexivity|]. split; reflexivity.
      * intros d [= <-]. eexists. split; [reflexivity|]. split; reflexivity.
    + split_and!.
      * apply valid_utf8_ascii. reflexivity.
      * constructor.
      * unfold int64. split; [vm_compute; discriminate|reflexivity].
      * eexists. split; [reflexivity|]. split; reflexivity.
      * intros d [=].
  - apply not_elem_of_empty.
  - apply not_elem_of_empty.
Defined.
